(** * Contact scoring and ranking (challenge.py)

    A shallow embedding of [challenge.py]: the score tables, the three
    scoring functions, the weighted final score in IEEE 754 binary64
    arithmetic, and [process_contacts] as a pipeline over an in-memory
    data frame (reading and writing the CSV files are left out).

    Python values that can fail (attribute access on a non-string, a
    missing dictionary key or column) are modelled in an error monad.
    Dictionaries are [gmap]s, sets are [gset]s, a data frame is a header
    with a list of rows. *)

From Stdlib Require Import ZArith QArith Qabs String Ascii List Lia.
From Stdlib Require Import SpecFloat.
From stdpp Require Import base gmap strings list sorting.

Local Open Scope string_scope.
Local Open Scope list_scope.
Local Open Scope Z_scope.

(** ** Exceptions *)

Inductive exn :=
  | KeyError (k : string)
  | AttributeError
  | TypeError
  | ValueError
  | IndexError.

Inductive result (A : Type) :=
  | Ok (a : A)
  | Raise (e : exn).
Arguments Ok {A} a.
Arguments Raise {A} e.

Global Instance result_ret : MRet result := @Ok.
Global Instance result_bind : MBind result := λ A B f m,
  match m with Ok a => f a | Raise e => Raise e end.
Global Instance result_fmap : FMap result := λ A B f m,
  match m with Ok a => Ok (f a) | Raise e => Raise e end.

(** [for x in l: f x], stopping at the first exception. *)
Fixpoint traverse {A B} (f : A → result B) (l : list A) : result (list B) :=
  match l with
  | [] => Ok []
  | x :: l' => y ← f x; ys ← traverse f l'; Ok (y :: ys)
  end.

(** ** binary64 floats *)

Module Float64.
Definition prec : Z := 53.
Definition emax : Z := 1024.

Definition mul : spec_float → spec_float → spec_float := SFmul prec emax.
Definition add : spec_float → spec_float → spec_float := SFadd prec emax.
Definition ltb : spec_float → spec_float → bool := SFltb.

(** Conversion of an int64 to float64 (exact below 2^53). *)
Definition of_int (z : Z) : spec_float := binary_normalize prec emax z 0 false.

Definition is_nan (f : spec_float) : bool :=
  match f with S754_nan => true | _ => false end.

Definition is_finite (f : spec_float) : bool :=
  match f with S754_zero _ | S754_finite _ _ _ => true | _ => false end.

(** The rational a finite float stands for (0 for infinities and NaN). *)
Definition to_Q (f : spec_float) : Q :=
  match f with
  | S754_finite s m e =>
      ((if s then -1 else 1) * inject_Z (Z.pos m) * Qpower 2 e)%Q
  | _ => 0%Q
  end.

(** The doubles Python reads the literals [0.5], [0.3] and [0.2] as. *)
Definition lit_0_5 : spec_float := S754_finite false 4503599627370496 (-53).
Definition lit_0_3 : spec_float := S754_finite false 5404319552844595 (-54).
Definition lit_0_2 : spec_float := S754_finite false 7205759403792794 (-55).
End Float64.

Global Instance spec_float_eq_dec : EqDecision spec_float.
Proof. solve_decision. Defined.

(** ** Python values held by a data frame cell

    A missing value is the float NaN, as [pandas.read_csv] produces it. *)

Inductive cell :=
  | Str (s : string)
  | Int (z : Z)
  | Float (f : spec_float).

Global Instance cell_eq_dec : EqDecision cell.
Proof. solve_decision. Defined.

Definition NaN : cell := Float S754_nan.

Definition isna (c : cell) : bool :=
  match c with Float f => Float64.is_nan f | _ => false end.

(** ** [str.lower]

    ASCII capitals are mapped to their small letters.  Of the other code
    points Python lowercases, only U+212A (KELVIN SIGN, bytes E2 84 AA in
    UTF-8) becomes an ASCII letter; every other one stays outside ASCII
    and so can never produce a key of the tables below. *)

Definition lower_ascii (c : ascii) : ascii :=
  let n := nat_of_ascii c in
  if ((65 <=? n) && (n <=? 90))%nat then ascii_of_nat (n + 32) else c.

Fixpoint str_lower (s : string) : string :=
  match s with
  | EmptyString => EmptyString
  | String "226" (String "132" (String "170" s')) => String "k" (str_lower s')
  | String c s' => String (lower_ascii c) (str_lower s')
  end.

(** ** Dictionaries *)

(** [d[k]] *)
Definition dict_getitem {V} (d : gmap string V) (k : string) : result V :=
  match d !! k with
  | Some v => Ok v
  | None => Raise (KeyError k)
  end.

(** [d.get(k, dflt)] for a key that may be any Python value: the tables
    have string keys only, so any other value is absent. *)
Definition dict_get {V} (d : gmap string V) (k : cell) (dflt : V) : V :=
  match k with
  | Str s => default dflt (d !! s)
  | _ => dflt
  end.

(** ** Score tables *)

Definition ROLE_SCORES : gmap string Z :=
  list_to_map
    [ ("ceo", 100); ("cfo", 90); ("cto", 90); ("manager", 80);
      ("consultant", 70); ("engineer", 60); ("developer", 50);
      ("analyst", 40); ("designer", 30); ("intern", 10) ].

Definition COMPANY_SIZE_SCORES : gmap string Z :=
  list_to_map
    [ ("10000+", 100); ("5001-10000", 90); ("1001-5000", 80);
      ("501-1000", 70); ("201-500", 60); ("51-200", 50);
      ("11-50", 30); ("1-10", 20) ].

Definition tier_1 : gset string :=
  {[ "usa"; "uk"; "germany"; "france"; "canada"; "australia" ]}.
Definition tier_2 : gset string :=
  {[ "spain"; "italy"; "brazil"; "india" ]}.

Definition COUNTRY_TIERS : gmap string (gset string) :=
  list_to_map [ ("tier_1", tier_1); ("tier_2", tier_2) ].

Definition COUNTRY_SCORES : gmap string Z :=
  list_to_map [ ("tier_1", 100); ("tier_2", 80); ("other", 60) ].

Definition WEIGHTS : gmap string spec_float :=
  list_to_map
    [ ("role", Float64.lit_0_5); ("company_size", Float64.lit_0_3);
      ("country", Float64.lit_0_2) ].

(** ** Scoring functions *)

(** [role.lower()]: only a [str] has the method. *)
Definition py_lower (v : cell) : result string :=
  match v with
  | Str s => Ok (str_lower s)
  | _ => Raise AttributeError
  end.

Definition assign_role_score (role : cell) : result Z :=
  role ← py_lower role;
  Ok (dict_get ROLE_SCORES (Str role) 20).

Definition assign_company_size_score (size : cell) : result Z :=
  Ok (dict_get COMPANY_SIZE_SCORES size 20).

Definition assign_country_score (country : cell) : result Z :=
  country ← py_lower country;
  t1 ← dict_getitem COUNTRY_TIERS "tier_1";
  if bool_decide (country ∈ t1) then dict_getitem COUNTRY_SCORES "tier_1"
  else
    t2 ← dict_getitem COUNTRY_TIERS "tier_2";
    if bool_decide (country ∈ t2) then dict_getitem COUNTRY_SCORES "tier_2"
    else dict_getitem COUNTRY_SCORES "other".

(** The final score of one row, as the column arithmetic of
    [process_contacts] computes it: each integer score is converted to
    binary64, multiplied by its weight, and the products are added left
    to right. *)
Definition weighted_sum (w_role w_size w_country : spec_float) (r s c : Z)
  : spec_float :=
  Float64.add
    (Float64.add (Float64.mul (Float64.of_int r) w_role)
                 (Float64.mul (Float64.of_int s) w_size))
    (Float64.mul (Float64.of_int c) w_country).

(** ** Series and data frames

    A [Series] is a column of cells.  A [DataFrame] keeps its header and
    its rows; cell [i] of a row belongs to column [i] of the header. *)

Definition Series := list cell.

Record DataFrame := { columns : list string; rows : list (list cell) }.

(** Position of a column label, [KeyError] when there is none. *)
Definition get_loc (cols : list string) (c : string) : result nat :=
  match list_find (λ x, x = c) cols with
  | Some (i, _) => Ok i
  | None => Raise (KeyError c)
  end.

(** [df[c]] *)
Definition getitem (df : DataFrame) (c : string) : result Series :=
  i ← get_loc (columns df) c;
  Ok ((λ row, default NaN (row !! i)) <$> rows df).

(** [df[c] = s]: replaces the column when the label exists, appends a
    new last column otherwise. *)
Definition setitem (df : DataFrame) (c : string) (s : Series) : result DataFrame :=
  if bool_decide (length s = length (rows df)) then
    match list_find (λ x, x = c) (columns df) with
    | Some (i, _) =>
        Ok {| columns := columns df;
              rows := zip_with (λ row v, <[i:=v]> row) (rows df) s |}
    | None =>
        Ok {| columns := columns df ++ [c];
              rows := zip_with (λ row v, row ++ [v]) (rows df) s |}
    end
  else Raise ValueError.

(** [s.fillna(v)] *)
Definition fillna (v : string) (s : Series) : Series :=
  (λ c, if isna c then Str v else c) <$> s.

(** [df[c].fillna(v, inplace=True)], with the semantics the script relies
    on: the series selected from the frame shares the frame's data, so
    the frame is updated. *)
Definition fillna_inplace (df : DataFrame) (c v : string) : result DataFrame :=
  s ← getitem df c;
  setitem df c (fillna v s).

(** [s.apply(f)] for a function returning an [int]. *)
Definition series_apply (f : cell → result Z) (s : Series) : result Series :=
  traverse (λ c, Int <$> f c) s.

(** Wrap-around of int64 arithmetic. *)
Definition wrap_int64 (z : Z) : Z := (z + 2 ^ 63) mod 2 ^ 64 - 2 ^ 63.

(** [s * w] for a Python float [w]. *)
Definition cell_mul_float (c : cell) (w : spec_float) : result cell :=
  match c with
  | Int z => Ok (Float (Float64.mul (Float64.of_int z) w))
  | Float f => Ok (Float (Float64.mul f w))
  | Str _ => Raise TypeError
  end.

Definition series_mul_float (s : Series) (w : spec_float) : result Series :=
  traverse (λ c, cell_mul_float c w) s.

(** [a + b] on numeric columns. *)
Definition cell_add (a b : cell) : result cell :=
  match a, b with
  | Float x, Float y => Ok (Float (Float64.add x y))
  | Float x, Int y => Ok (Float (Float64.add x (Float64.of_int y)))
  | Int x, Float y => Ok (Float (Float64.add (Float64.of_int x) y))
  | Int x, Int y => Ok (Int (wrap_int64 (x + y)))
  | _, _ => Raise TypeError
  end.

Definition series_add (a b : Series) : result Series :=
  traverse (λ p, cell_add p.1 p.2) (zip a b).

(** Keep the entries of [l] whose flag is set. *)
Fixpoint select {A} (keep : list bool) (l : list A) : list A :=
  match keep, l with
  | b :: keep', x :: l' => if b then x :: select keep' l' else select keep' l'
  | _, _ => []
  end.

(** [df.drop(columns=cs)] *)
Definition drop_columns (df : DataFrame) (cs : list string) : result DataFrame :=
  _ ← traverse (get_loc (columns df)) cs;
  let keep := (λ c, bool_decide (c ∉ cs)) <$> columns df in
  Ok {| columns := select keep (columns df);
        rows := select keep <$> rows df |}.

(** The sort key column of [process_contacts] is a float64 column; the
    model of [sort_values] covers that case. *)
Definition as_float64 (c : cell) : result spec_float :=
  match c with
  | Float f => Ok f
  | _ => Raise TypeError
  end.

Section Sorting.
(** [numpy.argsort] on a float64 array without NaN, for the [kind]
    that [sort_values] passes down (its default, ['quicksort']). *)
Variable argsort : list spec_float → list nat.

(** pandas' [nargsort]: NaN keys are set aside and placed last; for a
    descending sort the keys are reversed, sorted ascending, and the
    resulting indexer is reversed.  Indexing [non_nan_idx] with a
    position it does not have raises [IndexError]. *)
Definition nargsort (items : list spec_float) (ascending : bool)
  : result (list nat) :=
  let tagged := zip (seq 0 (length items)) items in
  let non_nan := filter (λ p, Float64.is_nan p.2 = false) tagged in
  let nan_idx := (filter (λ p, Float64.is_nan p.2 = true) tagged).*1 in
  let non_nans := if ascending then non_nan.*2 else reverse (non_nan.*2) in
  let non_nan_idx := if ascending then non_nan.*1 else reverse (non_nan.*1) in
  indexer ← traverse (λ j, match non_nan_idx !! j with
                           | Some i => Ok i
                           | None => Raise IndexError
                           end) (argsort non_nans);
  let indexer := if ascending then indexer else reverse indexer in
  Ok (indexer ++ nan_idx).

(** [df.take(indexer)] *)
Definition take_rows (df : DataFrame) (indexer : list nat) : result DataFrame :=
  rs ← traverse (λ i, match rows df !! i with
                      | Some r => Ok r
                      | None => Raise IndexError
                      end) indexer;
  Ok {| columns := columns df; rows := rs |}.

(** [df.sort_values(by, ascending=ascending)] *)
Definition sort_values (df : DataFrame) (by_ : string) (ascending : bool)
  : result DataFrame :=
  k ← getitem df by_;
  keys ← traverse as_float64 k;
  indexer ← nargsort keys ascending;
  take_rows df indexer.

Definition score_columns : list string :=
  ["role_score"; "company_size_score"; "country_score"; "final_score"].

(** [process_contacts], from the frame read from [data.csv] to the
    frame written to [contact_plan.csv]. *)
Definition process_contacts (df : DataFrame) : result DataFrame :=
  df ← fillna_inplace df "Role" "unknown";
  df ← fillna_inplace df "Company Size" "1-10";
  df ← fillna_inplace df "Country" "unknown";
  role_score ← getitem df "Role" ≫= series_apply assign_role_score;
  df ← setitem df "role_score" role_score;
  company_size_score ← getitem df "Company Size" ≫= series_apply assign_company_size_score;
  df ← setitem df "company_size_score" company_size_score;
  country_score ← getitem df "Country" ≫= series_apply assign_country_score;
  df ← setitem df "country_score" country_score;
  w_role ← dict_getitem WEIGHTS "role";
  w_size ← dict_getitem WEIGHTS "company_size";
  w_country ← dict_getitem WEIGHTS "country";
  a ← getitem df "role_score" ≫= (λ s, series_mul_float s w_role);
  b ← getitem df "company_size_score" ≫= (λ s, series_mul_float s w_size);
  c ← getitem df "country_score" ≫= (λ s, series_mul_float s w_country);
  ab ← series_add a b;
  final_score ← series_add ab c;
  df ← setitem df "final_score" final_score;
  df_sorted ← sort_values df "final_score" false;
  drop_columns df_sorted score_columns.
End Sorting.

(** ** NumPy's default argsort

    [numpy.argsort(kind='quicksort')] on a float64 array, as NumPy's
    portable sorting routines ([npysort/quicksort] and
    [npysort/heapsort], index-sorting variants) compute it: an introsort
    that partitions around a median of three while a segment has more
    than [SMALL_QUICKSORT + 1] elements, finishes small segments by
    insertion sort, and falls back to heapsort for a segment popped once
    the depth budget is used up.  Loops are run on fuel that the lengths
    involved bound. *)

Module Npysort.
Section WithKeys.
Variable v : list spec_float.

Definition SMALL_QUICKSORT : nat := 15.

(** The order of floats used by the sorting routines (NaN last). *)
Definition LT (a b : spec_float) : bool :=
  SFltb a b || (Float64.is_nan b && negb (Float64.is_nan a)).

Definition key (i : nat) : spec_float := default S754_nan (v !! i).

(** Reading the index array at position [p], and [INTP_SWAP] of the
    entries at positions [p] and [q]. *)
Definition at_ (a : list nat) (p : nat) : nat := default 0%nat (a !! p).
Definition swap (a : list nat) (p q : nat) : list nat :=
  <[p := at_ a q]> (<[q := at_ a p]> a).

(** [do ++pi; while (v[tosort[pi]] < vp);] *)
Fixpoint scan_up (fuel : nat) (a : list nat) (vp : spec_float) (pi : nat) : nat :=
  match fuel with
  | O => pi
  | S fuel' =>
      let pi := S pi in
      if LT (key (at_ a pi)) vp then scan_up fuel' a vp pi else pi
  end.

(** [do --pj; while (vp < v[tosort[pj]]);] *)
Fixpoint scan_down (fuel : nat) (a : list nat) (vp : spec_float) (pj : nat) : nat :=
  match fuel with
  | O => pj
  | S fuel' =>
      let pj := pred pj in
      if LT vp (key (at_ a pj)) then scan_down fuel' a vp pj else pj
  end.

Fixpoint hoare (fuel : nat) (a : list nat) (vp : spec_float) (pi pj : nat)
  : list nat * nat :=
  match fuel with
  | O => (a, pi)
  | S fuel' =>
      let pi := scan_up (length a) a vp pi in
      let pj := scan_down (length a) a vp pj in
      if (pj <=? pi)%nat then (a, pi)
      else hoare fuel' (swap a pi pj) vp pi pj
  end.

Definition partition (a : list nat) (pl pr : nat) : list nat * nat :=
  let pm := (pl + (pr - pl) / 2)%nat in
  let a := if LT (key (at_ a pm)) (key (at_ a pl)) then swap a pm pl else a in
  let a := if LT (key (at_ a pr)) (key (at_ a pm)) then swap a pr pm else a in
  let a := if LT (key (at_ a pm)) (key (at_ a pl)) then swap a pm pl else a in
  let vp := key (at_ a pm) in
  let a := swap a pm (pr - 1) in
  let '(a, pi) := hoare (length a) a vp pl (pr - 1) in
  (swap a pi (pr - 1), pi).

(** [while (pj > pl && vp < v[tosort[pk]])], moving entry [pk] up to
    [pj] and stepping both down. *)
Fixpoint shift (fuel : nat) (a : list nat) (vp : spec_float) (pl pj : nat)
  : list nat * nat :=
  match fuel with
  | O => (a, pj)
  | S fuel' =>
      if (pl <? pj)%nat && LT vp (key (at_ a (pj - 1)))
      then shift fuel' (<[pj := at_ a (pj - 1)]> a) vp pl (pj - 1)
      else (a, pj)
  end.

Definition insert_at (a : list nat) (pl pi : nat) : list nat :=
  let vi := at_ a pi in
  let '(a, pj) := shift (length a) a (key vi) pl pi in
  <[pj := vi]> a.

Definition insertion_sort (a : list nat) (pl pr : nat) : list nat :=
  foldl (λ a pi, insert_at a pl pi) a (seq (S pl) (pr - pl)).

(** Heapsort of the [n] entries from [pl] on, with the one-based
    indexing of the C code: entry [i] is [a[pl + i - 1]]. *)
Fixpoint sift (fuel : nat) (a : list nat) (pl n tmp i j : nat) : list nat :=
  match fuel with
  | O => a
  | S fuel' =>
      if (j <=? n)%nat then
        let j := if (j <? n)%nat
                    && LT (key (at_ a (pl + j - 1))) (key (at_ a (pl + (j + 1) - 1)))
                 then S j else j in
        if LT (key tmp) (key (at_ a (pl + j - 1)))
        then sift fuel' (<[(pl + i - 1)%nat := at_ a (pl + j - 1)]> a) pl n tmp j (j + j)
        else <[(pl + i - 1)%nat := tmp]> a
      else <[(pl + i - 1)%nat := tmp]> a
  end.

Definition aheapsort (a : list nat) (pl n : nat) : list nat :=
  let a :=
    foldl (λ a l, sift (length a) a pl n (at_ a (pl + l - 1)) l (2 * l))
          a (reverse (seq 1 (n / 2))) in
  foldl (λ a m,
           let tmp := at_ a (pl + m - 1) in
           let a := <[(pl + m - 1)%nat := at_ a pl]> a in
           sift (length a) a pl (m - 1) tmp 1 2)
        a (reverse (seq 2 (n - 1))).

(** The main loop.  [fresh] holds at the head of the outer loop, where
    alone the depth budget is checked; [stack] holds the postponed
    segments with their budgets. *)
Fixpoint run (fuel : nat) (a : list nat) (pl pr : nat) (cdepth : Z)
    (stack : list (nat * nat * Z)) (fresh : bool) : list nat :=
  match fuel with
  | O => a
  | S fuel' =>
      if fresh && (cdepth <? 0) then
        let a := aheapsort a pl (pr - pl + 1) in
        match stack with
        | [] => a
        | (pl, pr, d) :: stack => run fuel' a pl pr d stack true
        end
      else if (SMALL_QUICKSORT <? pr - pl)%nat then
        let '(a, pi) := partition a pl pr in
        let cdepth := cdepth - 1 in
        if (pi - pl <? pr - pi)%nat
        then run fuel' a pl (pi - 1) cdepth ((S pi, pr, cdepth) :: stack) false
        else run fuel' a (S pi) pr cdepth ((pl, (pi - 1)%nat, cdepth) :: stack) false
      else
        let a := insertion_sort a pl pr in
        match stack with
        | [] => a
        | (pl, pr, d) :: stack => run fuel' a pl pr d stack true
        end
  end.

Definition aquicksort_ : list nat :=
  let num := length v in
  run (2 * num + 2) (seq 0 num) 0 (num - 1) (2 * Z.log2 (Z.of_nat num)) [] true.
End WithKeys.

Definition argsort (v : list spec_float) : list nat := aquicksort_ v.
End Npysort.

(** ** Rows, seen from outside

    The cell of a row under a column label, the defaults that
    [process_contacts] fills in, and the final score of a row computed
    from its own cells. *)

Definition field (cols : list string) (row : list cell) (c : string) : cell :=
  match list_find (λ x, x = c) cols with
  | Some (i, _) => default NaN (row !! i)
  | None => NaN
  end.

Definition default_for (label : string) : option string :=
  if decide (label = "Role") then Some "unknown"
  else if decide (label = "Company Size") then Some "1-10"
  else if decide (label = "Country") then Some "unknown"
  else None.

Definition normalize_cell (label : string) (v : cell) : cell :=
  match default_for label with
  | Some d => if isna v then Str d else v
  | None => v
  end.

Definition normalize_row (cols : list string) (row : list cell) : list cell :=
  zip_with normalize_cell cols row.

(** The three [fillna] statements of [process_contacts]. *)
Definition fill_missing (df : DataFrame) : result DataFrame :=
  df ← fillna_inplace df "Role" "unknown";
  df ← fillna_inplace df "Company Size" "1-10";
  fillna_inplace df "Country" "unknown".

Definition row_final_score (cols : list string) (row : list cell)
  : result spec_float :=
  r ← assign_role_score (field cols row "Role");
  s ← assign_company_size_score (field cols row "Company Size");
  c ← assign_country_score (field cols row "Country");
  Ok (weighted_sum Float64.lit_0_5 Float64.lit_0_3 Float64.lit_0_2 r s c).

(** The final score a row of the input gets (NaN if scoring it raises). *)
Definition score_of (cols : list string) (row : list cell) : spec_float :=
  match row_final_score cols (normalize_row cols row) with
  | Ok f => f
  | Raise _ => S754_nan
  end.

(** The sort keys of a frame: the final score of every row, in input
    order. *)
Definition sort_keys (df : DataFrame) : list spec_float :=
  score_of (columns df) <$> rows df.

(** ** Well-formed input frames *)

Definition is_text (c : cell) : Prop :=
  match c with
  | Str _ => True
  | Float f => Float64.is_nan f = true
  | Int _ => False
  end.

Global Instance is_text_dec c : Decision (is_text c).
Proof. destruct c; simpl; apply _. Defined.

(** As [pandas.read_csv] delivers a table of text: every row has one
    cell per column, labels are distinct, the three input columns are
    there with text or missing cells in [Role] and [Country], and no
    column carries the name of a derived score column. *)
Record well_formed (df : DataFrame) : Prop := {
  wf_rect : Forall (λ row, length row = length (columns df)) (rows df);
  wf_nodup : NoDup (columns df);
  wf_role : "Role" ∈ columns df;
  wf_size : "Company Size" ∈ columns df;
  wf_country : "Country" ∈ columns df;
  wf_role_text : Forall (λ row, is_text (field (columns df) row "Role")) (rows df);
  wf_country_text : Forall (λ row, is_text (field (columns df) row "Country")) (rows df);
  wf_score_free : Forall (λ c, c ∉ columns df) score_columns;
}.

(** No cell of the three input columns is missing. *)
Definition no_missing (df : DataFrame) : Prop :=
  Forall (λ row, normalize_row (columns df) row = row) (rows df).

(** ** What a sorting routine guarantees

    [argsort] returns the positions of its argument in an order in which
    the keys do not decrease. *)

Definition key_at (ks : list spec_float) (i : nat) : spec_float :=
  default S754_nan (ks !! i).

Definition sorts (argsort : list spec_float → list nat) (ks : list spec_float) : Prop :=
  argsort ks ≡ₚ seq 0 (length ks)
  ∧ Sorted (λ i j, Npysort.LT (key_at ks j) (key_at ks i) = false) (argsort ks).

(** A stable routine moreover keeps positions with equal keys in
    increasing order. *)
Definition stable_on (argsort : list spec_float → list nat) (ks : list spec_float) : Prop :=
  Sorted (λ i j, Npysort.LT (key_at ks i) (key_at ks j) = true
                 ∨ (key_at ks i = key_at ks j ∧ (i < j)%nat))
         (argsort ks).

(** The keys [sort_values] hands to [argsort] for a descending sort. *)
Definition argsort_input (df : DataFrame) : list spec_float :=
  reverse (sort_keys df).

Global Instance sorts_dec argsort ks : Decision (sorts argsort ks).
Proof. unfold sorts. apply _. Defined.

Global Instance stable_on_dec argsort ks : Decision (stable_on argsort ks).
Proof. unfold stable_on. apply _. Defined.

(** ** Values the three scores can take *)

Definition role_values : list Z := [100; 90; 80; 70; 60; 50; 40; 30; 10; 20].
Definition size_values : list Z := [100; 90; 80; 70; 60; 50; 30; 20].
Definition country_values : list Z := [100; 80; 60].

(** The final score in points: the exact value of
    [0.5 * r + 0.3 * s + 0.2 * c] when that is a whole number. *)
Definition points (r s c : Z) : Z := (5 * r + 3 * s + 2 * c) / 10.

Definition the_final_score (r s c : Z) : spec_float :=
  weighted_sum Float64.lit_0_5 Float64.lit_0_3 Float64.lit_0_2 r s c.

(** The three scores of a row (0 where scoring raises). *)
Definition role_points (cols : list string) (row : list cell) : Z :=
  match assign_role_score (field cols row "Role") with Ok r => r | Raise _ => 0 end.
Definition size_points (cols : list string) (row : list cell) : Z :=
  match assign_company_size_score (field cols row "Company Size") with
  | Ok s => s
  | Raise _ => 0
  end.
Definition country_points (cols : list string) (row : list cell) : Z :=
  match assign_country_score (field cols row "Country") with Ok c => c | Raise _ => 0 end.

(** The indexer of a descending sort on keys without NaN: position [j]
    of the reversed keys is position [length keys - 1 - j] of the keys. *)
Definition mirror_indexer (argsort : list spec_float → list nat)
    (keys : list spec_float) : list nat :=
  reverse ((λ j, (length keys - 1 - j)%nat) <$> argsort (reverse keys)).

(** The frame [process_contacts] is expected to return: the rows with
    their defaults filled in, in the order of the indexer. *)
Definition ranked (argsort : list spec_float → list nat) (df : DataFrame) : DataFrame :=
  {| columns := columns df;
     rows := (λ i, default [] ((normalize_row (columns df) <$> rows df) !! i))
               <$> mirror_indexer argsort (sort_keys df) |}.

(** What [fillna_inplace] does to one row: the cell at the column's
    position is replaced when it is missing. *)
Definition fill_at (i : nat) (v : string) (row : list cell) : list cell :=
  <[i := if isna (default NaN (row !! i)) then Str v else default NaN (row !! i)]> row.

(** A frame whose rows are rows of [R] with derived cells appended. *)
Definition derived (cols E : list string) (e : list cell → list cell)
    (R : list (list cell)) : DataFrame :=
  {| columns := cols ++ E; rows := (λ row, row ++ e row) <$> R |}.

(** The statements of [process_contacts] that follow the [fillna]
    ones, taken on their own. *)
Definition score_and_rank (argsort : list spec_float → list nat) (df : DataFrame)
  : result DataFrame :=
  role_score ← getitem df "Role" ≫= series_apply assign_role_score;
  df ← setitem df "role_score" role_score;
  company_size_score ← getitem df "Company Size" ≫= series_apply assign_company_size_score;
  df ← setitem df "company_size_score" company_size_score;
  country_score ← getitem df "Country" ≫= series_apply assign_country_score;
  df ← setitem df "country_score" country_score;
  w_role ← dict_getitem WEIGHTS "role";
  w_size ← dict_getitem WEIGHTS "company_size";
  w_country ← dict_getitem WEIGHTS "country";
  a ← getitem df "role_score" ≫= (λ s, series_mul_float s w_role);
  b ← getitem df "company_size_score" ≫= (λ s, series_mul_float s w_size);
  c ← getitem df "country_score" ≫= (λ s, series_mul_float s w_country);
  ab ← series_add a b;
  final_score ← series_add ab c;
  df ← setitem df "final_score" final_score;
  df_sorted ← sort_values argsort df "final_score" false;
  drop_columns df_sorted score_columns.

Global Instance exn_eq_dec : EqDecision exn.
Proof. solve_decision. Defined.

Global Instance result_eq_dec {A} `{EqDecision A} : EqDecision (result A).
Proof. solve_decision. Defined.

(** The whole number a final score stands for, and the points a frame's
    row at a given position has. *)
Definition whole (f : spec_float) : Z :=
  match f with
  | S754_finite s m e =>
      let v := if 0 <=? e then Z.pos m * 2 ^ e else Z.pos m / 2 ^ (- e) in
      if s then - v else v
  | _ => 0
  end.

Definition points_at (ks : list spec_float) (i : nat) : Z := whole (key_at ks i).

Definition point_range : list Z := seqZ 23 78.

(** A float that is the double of a whole number of points. *)
Definition is_score (f : spec_float) : Prop :=
  ∃ n, 23 ≤ n ≤ 100 ∧ f = Float64.of_int n.

(** Order of two positions of a sorted frame: the earlier one holds at
    least as many points ... *)
Definition desc (keys : list spec_float) (i j : nat) : Prop :=
  points_at keys j ≤ points_at keys i.

(** ... and for a stable sort, among equal points, the smaller input
    position. *)
Definition desc_stable (keys : list spec_float) (i j : nat) : Prop :=
  points_at keys j < points_at keys i
  ∨ (points_at keys i = points_at keys j ∧ (i < j)%nat).

(** ** Sample frames *)

Definition header : list string := ["Name"; "Role"; "Company Size"; "Country"].

Definition sample_frame : DataFrame :=
  {| columns := header;
     rows := [ [Str "Ana"; Str "Intern"; Str "1-10"; NaN];
               [Str "Bo"; Str "CEO"; Str "10000+"; Str "USA"];
               [Str "Cy"; NaN; NaN; Str "Spain"];
               [Str "Di"; Str "intern"; Str "1-10"; Str "Peru"];
               [Str "Ed"; Str "Manager"; Str "51-200"; Str "UK"] ] |}.

(** One contact whose role is missing. *)
Definition frame_without_role : DataFrame :=
  {| columns := header;
     rows := [ [Str "Ana"; NaN; Str "11-50"; Str "Spain"] ] |}.

(** One contact whose country is missing. *)
Definition frame_without_country : DataFrame :=
  {| columns := header;
     rows := [ [Str "Ana"; Str "CEO"; Str "11-50"; NaN] ] |}.

(** Eighteen contacts that differ in their names only. *)
Definition tied_row (name : string) : list cell :=
  [Str name; Str "Manager"; Str "51-200"; Str "Spain"].

Definition tied_frame : DataFrame :=
  {| columns := header;
     rows := tied_row <$>
       [ "c00"; "c01"; "c02"; "c03"; "c04"; "c05"; "c06"; "c07"; "c08";
         "c09"; "c10"; "c11"; "c12"; "c13"; "c14"; "c15"; "c16"; "c17" ] |}.

(** An index array that names positions below [n] only. *)
Definition in_range (n : nat) (a : list nat) : Prop := Forall (λ i, (i < n)%nat) a.


(** ** Reading the index array by points

    The points of the entry at position [p] of the index array [a]. *)
Definition ptat (v : list spec_float) (a : list nat) (p : nat) : Z :=
  points_at v (Npysort.at_ a p).

(** Positions [l], ..., [r - 1] of [a] hold their entries in
    non-decreasing order of points. *)
Definition seg_sorted (v : list spec_float) (a : list nat) (l r : nat) : Prop :=
  ∀ p q, (l ≤ p)%nat → (p ≤ q)%nat → (q < r)%nat → ptat v a p ≤ ptat v a q.

(** [a'] has the entries of [a], and differs from it at positions
    [l .. r] only. *)
Definition rearranged (a a' : list nat) (l r : nat) : Prop :=
  a' ≡ₚ a ∧ ∀ p, (p < l ∨ r < p)%nat → a' !! p = a !! p.

(** State of the inner loop of the insertion sort: entry [x], taken
    from position [pi] of [a0], is being moved down; [pj] is the free
    position. *)
Record shifting (v : list spec_float) (a0 : list nat) (pl pi x : nat)
    (a : list nat) (pj : nat) : Prop := {
  sh_bounds : (pl ≤ pj)%nat ∧ (pj ≤ pi)%nat ∧ (pi < length a0)%nat;
  sh_length : length a = length a0;
  sh_range : in_range (length v) a;
  sh_perm : <[pj := x]> a ≡ₚ a0;
  sh_below : ∀ p, (p < pj)%nat → a !! p = a0 !! p;
  sh_above : ∀ p, (pi < p)%nat → a !! p = a0 !! p;
  sh_moved : ∀ p, (pj < p)%nat → (p ≤ pi)%nat →
             Npysort.at_ a p = Npysort.at_ a0 (p - 1)
             ∧ points_at v x < ptat v a0 (p - 1);
}.

(** State of the partition loop around the entry [X], kept at position
    [pr - 1]: positions up to [pi] hold at most the points of [X],
    positions from [pj] on at least as many. *)
Record partitioning (v : list spec_float) (a0 : list nat) (pl pr X : nat)
    (a : list nat) (pi pj : nat) : Prop := {
  pa_bounds : (pl ≤ pi)%nat ∧ (pi < pj)%nat ∧ (pj ≤ pr - 1)%nat ∧ (pr < length a0)%nat;
  pa_rearranged : rearranged a0 a pl pr;
  pa_pivot : Npysort.at_ a (pr - 1) = X;
  pa_low : ∀ p, (pl ≤ p)%nat → (p ≤ pi)%nat → ptat v a p ≤ points_at v X;
  pa_high : ∀ q, (pj ≤ q)%nat → (q ≤ pr)%nat → points_at v X ≤ ptat v a q;
}.

(** ** Heaps in the index array

    The heap of the C code lives at positions [pl], [pl + 1], ... and is
    indexed from 1: node [h] is position [pl + h - 1], its children are
    nodes [2 h] and [2 h + 1]. *)
Definition hat (v : list spec_float) (pl : nat) (a : list nat) (h : nat) : Z :=
  ptat v a (pl + h - 1).

(** Node [x] holds at least as many points as its children, in a heap of
    [k] nodes. *)
Definition dom (v : list spec_float) (pl : nat) (a : list nat) (k x : nat) : Prop :=
  ∀ c, c = (2 * x)%nat ∨ c = (2 * x + 1)%nat → (c ≤ k)%nat →
       hat v pl a c ≤ hat v pl a x.

(** State of sifting entry [T] down from node [i0]: the free node is
    [i]; every node from [i0] on dominates its children, except [i0]
    itself as long as it is the free node. *)
Record sifting (v : list spec_float) (pl k i0 T : nat) (a : list nat) (i : nat)
  : Prop := {
  si_bounds : (1 ≤ i0)%nat ∧ (i0 ≤ i)%nat ∧ (i ≤ k)%nat ∧ (pl + k ≤ length a)%nat;
  si_range : in_range (length v) a ∧ (T < length v)%nat;
  si_below : ∀ x, (i0 < x)%nat → (x ≤ k)%nat → dom v pl a k x;
  si_top : (i0 < i)%nat → dom v pl a k i0 ∧ points_at v T < hat v pl a i;
}.

(** ** The segments of the main loop

    The segment being sorted and the postponed ones on the stack, each
    with its depth budget. *)
Definition inside (s : nat * nat * Z) (p : nat) : Prop :=
  (s.1.1 ≤ p)%nat ∧ (p ≤ s.1.2)%nat.

Definition together (segs : list (nat * nat * Z)) (p q : nat) : Prop :=
  Exists (λ s, inside s p ∧ inside s q) segs.

Fixpoint apart (segs : list (nat * nat * Z)) : Prop :=
  match segs with
  | [] => True
  | s :: segs => Forall (λ t, ∀ p, inside s p → ¬ inside t p) segs ∧ apart segs
  end.

(** Twice the number of positions in the segments, less their number:
    a bound on the iterations still to come. *)
Definition budget (segs : list (nat * nat * Z)) : nat :=
  sum_list ((λ s, 2 * (s.1.2 - s.1.1) + 1)%nat <$> segs).

(** State of the main loop: [a] holds every position of [v] once, and
    two positions that are not in one and the same segment are already
    in order. *)
Record sorting (v : list spec_float) (a : list nat) (segs : list (nat * nat * Z))
  : Prop := {
  so_perm : a ≡ₚ seq 0 (length v);
  so_segs : Forall (λ s, (s.1.1 ≤ s.1.2)%nat ∧ (s.1.2 < length v)%nat) segs;
  so_apart : apart segs;
  so_order : ∀ p q, (p < q)%nat → (q < length v)%nat → ¬ together segs p q →
             ptat v a p ≤ ptat v a q;
}.

(** ** Frames as [process_contacts] may meet them *)

(** The three columns [process_contacts] reads, in the order in which it
    reads them. *)
Definition input_columns : list string := ["Role"; "Company Size"; "Country"].

(** Every row has one cell per column. *)
Definition rectangular (df : DataFrame) : Prop :=
  Forall (λ row, length row = length (columns df)) (rows df).

(** A frame without the columns that carry the name of a derived score
    column: what [drop(columns=score_columns)] leaves of it. *)
Definition without_scores (df : DataFrame) : DataFrame :=
  let keep := (λ c, bool_decide (c ∉ score_columns)) <$> columns df in
  {| columns := select keep (columns df); rows := select keep <$> rows df |}.

(** A frame whose rows can all be scored: a table with distinct labels,
    the three input columns, and text or nothing in [Role] and
    [Country]. *)
Record scorable (df : DataFrame) : Prop := {
  sc_rect : rectangular df;
  sc_nodup : NoDup (columns df);
  sc_columns : Forall (λ c, c ∈ columns df) input_columns;
  sc_role_text : Forall (λ row, is_text (field (columns df) row "Role")) (rows df);
  sc_country_text : Forall (λ row, is_text (field (columns df) row "Country")) (rows df);
}.

(** The three cells of a row that [process_contacts] reads. *)
Definition scored_fields (cols : list string) (row : list cell) : list cell :=
  (λ c, field cols row c) <$> input_columns.

(** The sample frame without its [Name] column. *)
Definition sample_frame_bare : DataFrame :=
  {| columns := input_columns; rows := drop 1 <$> rows sample_frame |}.

(** ** The scored frame

    The statements of [process_contacts] that compute the four score
    columns, taken on their own, and with the [fillna] statements before
    them: the frame that [process_contacts] sorts. *)
Definition add_scores (df : DataFrame) : result DataFrame :=
  role_score ← getitem df "Role" ≫= series_apply assign_role_score;
  df ← setitem df "role_score" role_score;
  company_size_score ← getitem df "Company Size" ≫= series_apply assign_company_size_score;
  df ← setitem df "company_size_score" company_size_score;
  country_score ← getitem df "Country" ≫= series_apply assign_country_score;
  df ← setitem df "country_score" country_score;
  w_role ← dict_getitem WEIGHTS "role";
  w_size ← dict_getitem WEIGHTS "company_size";
  w_country ← dict_getitem WEIGHTS "country";
  a ← getitem df "role_score" ≫= (λ s, series_mul_float s w_role);
  b ← getitem df "company_size_score" ≫= (λ s, series_mul_float s w_size);
  c ← getitem df "country_score" ≫= (λ s, series_mul_float s w_country);
  ab ← series_add a b;
  final_score ← series_add ab c;
  setitem df "final_score" final_score.

Definition score_contacts (df : DataFrame) : result DataFrame :=
  df ← fill_missing df;
  add_scores df.

(** The cells of the four score columns for one row of the input, as
    [score_contacts] computes them. *)
Definition score_cells (cols : list string) (row : list cell) : list cell :=
  let row' := normalize_row cols row in
  [ Int (role_points cols row'); Int (size_points cols row');
    Int (country_points cols row');
    Float (the_final_score (role_points cols row') (size_points cols row')
             (country_points cols row')) ].

(** A contact with the lowest score of every kind, and one with the
    highest. *)
Definition extreme_frame : DataFrame :=
  {| columns := header;
     rows := [ [Str "Lo"; Str "Intern"; Str "1-10"; Str "Peru"];
               [Str "Hi"; Str "CEO"; Str "10000+"; Str "USA"] ] |}.


(** * Properties of the scoring functions *)

(** Membership in an explicit list: split a hypothesis into its cases,
    or find the element in the goal. *)
Ltac elem_cases H :=
  repeat (apply elem_of_cons in H as [->|H]); try (by apply elem_of_nil in H).
Ltac elem_find :=
  solve [ repeat first [ apply list_elem_of_here | apply list_elem_of_further ] ].

Section Results.
Context {A B : Type}.

Lemma bind_ok (m : result A) (k : A → result B) (b : B) :
  m ≫= k = Ok b → ∃ a, m = Ok a ∧ k a = Ok b.
Proof. destruct m as [a|e]; [by exists a | done]. Qed.

Lemma traverse_ok (f : A → result B) (g : A → B) (l : list A) :
  Forall (λ x, f x = Ok (g x)) l → traverse f l = Ok (g <$> l).
Proof.
  induction 1 as [|x l Hx _ IH]; simpl; [done|].
  by rewrite Hx, IH.
Qed.

Lemma traverse_is_ok (f : A → result B) (l : list A) :
  Forall (λ x, ∃ y, f x = Ok y) l → ∃ l', traverse f l = Ok l'.
Proof.
  induction 1 as [|x l [y Hy] _ [l' IH]]; [by exists []|].
  exists (y :: l'). simpl. by rewrite Hy, IH.
Qed.

Lemma traverse_length (f : A → result B) (l : list A) (l' : list B) :
  traverse f l = Ok l' → length l' = length l.
Proof.
  revert l'. induction l as [|x l IH]; intros l'; simpl.
  - by intros [= <-].
  - destruct (f x); simpl; [|done].
    destruct (traverse f l); simpl; [|done].
    intros [= <-]. simpl. f_equal. by apply IH.
Qed.
End Results.

(** The literals are the doubles nearest to one half, three tenths and
    one fifth: the error is below half a unit in the last place. *)
Lemma weight_literals :
  Float64.to_Q Float64.lit_0_5 == 1 # 2
  ∧ (Qabs (Float64.to_Q Float64.lit_0_3 - (3 # 10)) < Qpower 2 (-55))%Q
  ∧ (Qabs (Float64.to_Q Float64.lit_0_2 - (1 # 5)) < Qpower 2 (-56))%Q
  ∧ valid_binary Float64.prec Float64.emax Float64.lit_0_5 = true
  ∧ valid_binary Float64.prec Float64.emax Float64.lit_0_3 = true
  ∧ valid_binary Float64.prec Float64.emax Float64.lit_0_2 = true.
Proof. repeat split; vm_compute; reflexivity. Qed.

Lemma dict_get_elem_of {V} (l : list (string * V)) (k : cell) (d : V) :
  dict_get (list_to_map l) k d ∈ d :: l.*2.
Proof.
  destruct k as [s| |]; simpl; try apply list_elem_of_here.
  destruct (list_to_map l !! s) as [v|] eqn:Hs; simpl; [|apply list_elem_of_here].
  apply list_elem_of_further, list_elem_of_fmap.
  exists (s, v). split; [done|]. by apply elem_of_list_to_map_2.
Qed.

Lemma assign_role_score_values (role : cell) (r : Z) :
  assign_role_score role = Ok r → r ∈ role_values.
Proof.
  destruct role as [s| |]; simpl; [|done..].
  intros [= <-].
  pose proof (dict_get_elem_of
    [ ("ceo", 100); ("cfo", 90); ("cto", 90); ("manager", 80);
      ("consultant", 70); ("engineer", 60); ("developer", 50);
      ("analyst", 40); ("designer", 30); ("intern", 10) ]
    (Str (str_lower s)) 20) as H.
  change (list_to_map _) with ROLE_SCORES in H.
  simpl in H. revert H. generalize (default 20 (ROLE_SCORES !! str_lower s)). intros z.
  unfold role_values. simpl. intros H. elem_cases H; elem_find.
Qed.

Lemma assign_company_size_score_values (size : cell) (s : Z) :
  assign_company_size_score size = Ok s → s ∈ size_values.
Proof.
  intros [= <-].
  pose proof (dict_get_elem_of
    [ ("10000+", 100); ("5001-10000", 90); ("1001-5000", 80);
      ("501-1000", 70); ("201-500", 60); ("51-200", 50);
      ("11-50", 30); ("1-10", 20) ] size 20) as H.
  change (list_to_map _) with COMPANY_SIZE_SCORES in H.
  revert H. generalize (dict_get COMPANY_SIZE_SCORES size 20). intros z.
  unfold size_values. simpl. intros H. elem_cases H; elem_find.
Qed.

Lemma country_tiers_lookup :
  dict_getitem COUNTRY_TIERS "tier_1" = Ok tier_1
  ∧ dict_getitem COUNTRY_TIERS "tier_2" = Ok tier_2
  ∧ dict_getitem COUNTRY_SCORES "tier_1" = Ok 100
  ∧ dict_getitem COUNTRY_SCORES "tier_2" = Ok 80
  ∧ dict_getitem COUNTRY_SCORES "other" = Ok 60.
Proof. repeat split; reflexivity. Qed.

Lemma assign_country_score_str (s : string) :
  assign_country_score (Str s) =
    Ok (if bool_decide (str_lower s ∈ tier_1) then 100
        else if bool_decide (str_lower s ∈ tier_2) then 80 else 60).
Proof.
  destruct country_tiers_lookup as (H1 & H2 & H3 & H4 & H5).
  unfold assign_country_score. simpl.
  rewrite H1. simpl. rewrite H3.
  destruct (bool_decide (str_lower s ∈ tier_1)); [done|].
  rewrite H2. simpl. rewrite H4, H5.
  by destruct (bool_decide (str_lower s ∈ tier_2)).
Qed.

Lemma assign_country_score_values (country : cell) (c : Z) :
  assign_country_score country = Ok c → c ∈ country_values.
Proof.
  destruct country as [s| |]; [|done..].
  rewrite assign_country_score_str. intros [= <-].
  unfold country_values. repeat case_match; elem_find.
Qed.

(** ** The weighted sum in binary64

    Over the values the three scores can take, every product and every
    sum of the computation is exact: the final score is the double of a
    whole number of points between 23 and 100. *)

Lemma final_score_table :
  Forall (λ r, Forall (λ s, Forall (λ c,
    the_final_score r s c = Float64.of_int (points r s c)
    ∧ (5 * r + 3 * s + 2 * c) mod 10 = 0
    ∧ 23 ≤ points r s c ≤ 100
    ∧ Float64.is_finite (the_final_score r s c) = true
    ∧ Qeq_bool (Float64.to_Q (the_final_score r s c))
               ((1 # 2) * inject_Z r + (3 # 10) * inject_Z s + (1 # 5) * inject_Z c)
      = true
    ∧ Qeq_bool (Float64.to_Q (the_final_score r s c)) (inject_Z (points r s c))
      = true)
    country_values) size_values) role_values.
Proof. compute_done. Qed.

Lemma final_score_facts (r s c : Z) :
  r ∈ role_values → s ∈ size_values → c ∈ country_values →
  the_final_score r s c = Float64.of_int (points r s c)
  ∧ 23 ≤ points r s c ≤ 100
  ∧ Float64.is_finite (the_final_score r s c) = true
  ∧ Float64.to_Q (the_final_score r s c)
    == (1 # 2) * inject_Z r + (3 # 10) * inject_Z s + (1 # 5) * inject_Z c
  ∧ Float64.to_Q (the_final_score r s c) == inject_Z (points r s c).
Proof.
  intros Hr Hs Hc.
  pose proof final_score_table as H.
  rewrite Forall_forall in H. specialize (H r Hr).
  rewrite Forall_forall in H. specialize (H s Hs).
  rewrite Forall_forall in H. specialize (H c Hc).
  destruct H as (H1 & _ & H3 & H4 & H5 & H6).
  repeat split; try done; try lia; by apply Qeq_bool_iff.
Qed.

Lemma score_ranges (r s c : Z) :
  r ∈ role_values → s ∈ size_values → c ∈ country_values →
  10 ≤ r ≤ 100 ∧ 20 ≤ s ≤ 100 ∧ 60 ≤ c ≤ 100.
Proof.
  unfold role_values, size_values, country_values. intros Hr Hs Hc.
  repeat split.
  all: try (elem_cases Hr; lia).
  all: try (elem_cases Hs; lia).
  all: elem_cases Hc; lia.
Qed.

(** C4: the role score lowercases its argument and looks it up in the
    role table, with 20 for an absent key; no string makes it fail. *)
Theorem assign_role_score_lookup (s : string) :
  assign_role_score (Str s) = Ok (default 20 (ROLE_SCORES !! str_lower s))
  ∧ assign_role_score (Str "CEO") = Ok 100
  ∧ assign_role_score (Str "ceo") = Ok 100
  ∧ assign_role_score (Str "unknown-role") = Ok 20
  ∧ assign_role_score (Str "") = Ok 20
  ∧ str_lower "CEO" = "ceo".
Proof. repeat split; reflexivity. Qed.

(** C5: the company-size score looks its argument up as it is, with 20
    for an absent key. *)
Theorem assign_company_size_score_lookup (s : string) :
  assign_company_size_score (Str s) = Ok (default 20 (COMPANY_SIZE_SCORES !! s))
  ∧ assign_company_size_score (Str "10000+") = Ok 100
  ∧ assign_company_size_score (Str "not-a-bucket") = Ok 20.
Proof. repeat split; reflexivity. Qed.

(** C6: the country score lowercases its argument and returns 100 for a
    tier-1 country, else 80 for a tier-2 country, else 60. *)
Theorem assign_country_score_tiers (s : string) :
  assign_country_score (Str s) =
    Ok (if bool_decide (str_lower s ∈ tier_1) then 100
        else if bool_decide (str_lower s ∈ tier_2) then 80 else 60)
  ∧ assign_country_score (Str "USA") = Ok 100
  ∧ assign_country_score (Str "usa") = Ok 100
  ∧ assign_country_score (Str "Spain") = Ok 80
  ∧ assign_country_score (Str "Mongolia") = Ok 60.
Proof. split; [apply assign_country_score_str|]. repeat split; reflexivity. Qed.


(** * The data frame operations *)

Lemma traverse_fmap_ok {A B C} (f : B → result C) (g : A → B) (h : A → C) (l : list A) :
  Forall (λ x, f (g x) = Ok (h x)) l → traverse f (g <$> l) = Ok (h <$> l).
Proof.
  induction 1 as [|x l Hx _ IH]; csimpl; [done|].
  by rewrite Hx, IH.
Qed.

Section Labels.
Implicit Types (cols : list string) (c : string) (row : list cell).

Lemma find_label_elem_of cols c :
  c ∈ cols → ∃ i, list_find (λ x, x = c) cols = Some (i, c).
Proof.
  intros Hc.
  destruct (list_find_elem_of (λ x, x = c) cols c Hc eq_refl) as [[i y] Hf].
  exists i. pose proof Hf as Hf'.
  apply list_find_Some in Hf' as (_ & -> & _). done.
Qed.

Lemma find_label_not_elem_of cols c :
  c ∉ cols → list_find (λ x, x = c) cols = None.
Proof.
  intros H. apply list_find_None, Forall_forall. by intros x Hx ->.
Qed.

Lemma find_label_lookup cols c i :
  list_find (λ x, x = c) cols = Some (i, c) → cols !! i = Some c.
Proof. by intros (? & _ & _)%list_find_Some. Qed.

Lemma find_label_nodup cols c i :
  NoDup cols → cols !! i = Some c → list_find (λ x, x = c) cols = Some (i, c).
Proof.
  intros Hnd Hi. apply list_find_Some. split; [done|]. split; [done|].
  intros j y Hj Hlt ->.
  pose proof (NoDup_lookup _ _ _ _ Hnd Hi Hj). lia.
Qed.

Lemma field_at cols row c i :
  list_find (λ x, x = c) cols = Some (i, c) →
  field cols row c = default NaN (row !! i).
Proof. unfold field. by intros ->. Qed.

(** Fields of a row that got further cells appended. *)
Lemma field_app_old cols extra row e c :
  c ∈ cols → length row = length cols →
  field (cols ++ extra) (row ++ e) c = field cols row c.
Proof.
  intros [i Hi]%find_label_elem_of Hlen.
  rewrite (field_at cols row c i Hi).
  rewrite (field_at (cols ++ extra) (row ++ e) c i)
    by by apply list_find_app_l.
  apply find_label_lookup, lookup_lt_Some in Hi.
  rewrite lookup_app_l by lia. done.
Qed.

Lemma field_app_new cols extra row e c k :
  c ∉ cols → length row = length cols →
  list_find (λ x, x = c) extra = Some (k, c) →
  field (cols ++ extra) (row ++ e) c = default NaN (e !! k).
Proof.
  intros Hc Hlen Hk.
  rewrite (field_at (cols ++ extra) (row ++ e) c (length cols + k)).
  - rewrite lookup_app_r by lia. f_equal. f_equal. lia.
  - rewrite list_find_app_r by by apply find_label_not_elem_of.
    rewrite Hk. simpl. do 2 f_equal. lia.
Qed.
End Labels.

Section Frames.
Implicit Types (df : DataFrame) (c : string).

Lemma getitem_fields df c :
  c ∈ columns df →
  getitem df c = Ok ((λ row, field (columns df) row c) <$> rows df).
Proof.
  intros [i Hi]%find_label_elem_of.
  unfold getitem, get_loc, field. by rewrite Hi.
Qed.

Lemma getitem_missing df c :
  c ∉ columns df → getitem df c = Raise (KeyError c).
Proof.
  intros H%find_label_not_elem_of. unfold getitem, get_loc. by rewrite H.
Qed.

Lemma setitem_replace df c i (h : list cell → cell) :
  list_find (λ x, x = c) (columns df) = Some (i, c) →
  setitem df c (h <$> rows df)
  = Ok {| columns := columns df;
          rows := (λ row, <[i := h row]> row) <$> rows df |}.
Proof.
  intros Hi. unfold setitem.
  rewrite length_fmap, bool_decide_eq_true_2 by done.
  rewrite Hi. do 2 f_equal.
  by rewrite zip_with_fmap_r, zip_with_diag.
Qed.

Lemma setitem_append df c (h : list cell → cell) :
  c ∉ columns df →
  setitem df c (h <$> rows df)
  = Ok {| columns := columns df ++ [c];
          rows := (λ row, row ++ [h row]) <$> rows df |}.
Proof.
  intros Hc%find_label_not_elem_of. unfold setitem.
  rewrite length_fmap, bool_decide_eq_true_2 by done.
  rewrite Hc. do 2 f_equal.
  by rewrite zip_with_fmap_r, zip_with_diag.
Qed.

Lemma fillna_inplace_replace df c v :
  c ∈ columns df →
  ∃ i, list_find (λ x, x = c) (columns df) = Some (i, c)
    ∧ fillna_inplace df c v
      = Ok {| columns := columns df; rows := fill_at i v <$> rows df |}.
Proof.
  intros Hc. destruct (find_label_elem_of _ _ Hc) as [i Hi].
  exists i. split; [done|].
  unfold fillna_inplace. rewrite getitem_fields by done. simpl.
  unfold fillna. rewrite <- list_fmap_compose.
  rewrite (setitem_replace df c i) by done.
  do 2 f_equal. apply list_fmap_ext. intros _ row _. simpl.
  unfold fill_at. by rewrite (field_at _ _ _ _ Hi).
Qed.

Lemma fill_at_zip_with (cols : list string) (row : list cell) i c v
    (g : string → cell → cell) :
  NoDup cols → cols !! i = Some c →
  fill_at i v (zip_with g cols row)
  = zip_with (λ l x, if decide (l = c)
                     then (if isna (g l x) then Str v else g l x)
                     else g l x) cols row.
Proof.
  intros Hnd Hi. unfold fill_at. apply list_eq. intros j.
  rewrite list_lookup_insert, !lookup_zip_with.
  rewrite length_zip_with.
  destruct (decide (i = j ∧ (i < length cols `min` length row)%nat)) as [[-> Hlt]|Hn].
  - rewrite Hi. simpl.
    destruct (row !! j) as [x|] eqn:Hx; simpl.
    + by rewrite decide_True.
    + apply lookup_ge_None in Hx. lia.
  - destruct (cols !! j) as [l|] eqn:Hl; simpl; [|done].
    destruct (row !! j) as [x|] eqn:Hx; simpl; [|done].
    rewrite decide_False; [done|]. intros ->.
    pose proof (NoDup_lookup _ _ _ _ Hnd Hi Hl) as ->.
    apply Hn. split; [done|].
    apply lookup_lt_Some in Hl, Hx. lia.
Qed.

Lemma zip_with_snd_id (cols : list string) (row : list cell) :
  length row = length cols → zip_with (λ _ x, x) cols row = row.
Proof.
  revert row. induction cols as [|c cols IH]; intros [|x row] Hlen;
    simplify_eq/=; [done|]. by rewrite IH.
Qed.

(** The three [fillna] statements fill the defaults in, row by row. *)
Lemma fill_missing_ok df :
  Forall (λ row, length row = length (columns df)) (rows df) →
  NoDup (columns df) →
  "Role" ∈ columns df → "Company Size" ∈ columns df → "Country" ∈ columns df →
  fill_missing df
  = Ok {| columns := columns df;
          rows := normalize_row (columns df) <$> rows df |}.
Proof.
  intros Hrect Hnd HR HS HC. unfold fill_missing.
  destruct (fillna_inplace_replace df "Role" "unknown" HR) as (iR & HiR & ->).
  simpl.
  destruct (fillna_inplace_replace
              {| columns := columns df; rows := fill_at iR "unknown" <$> rows df |}
              "Company Size" "1-10" HS) as (iS & HiS & ->).
  simpl.
  destruct (fillna_inplace_replace
              {| columns := columns df;
                 rows := fill_at iS "1-10" <$> (fill_at iR "unknown" <$> rows df) |}
              "Country" "unknown" HC) as (iC & HiC & ->).
  simpl in *. do 2 f_equal.
  rewrite <- !list_fmap_compose.
  apply Forall_fmap_ext_1. eapply Forall_impl; [exact Hrect|].
  intros row Hlen. simpl.
  apply find_label_lookup in HiR, HiS, HiC.
  rewrite <- (zip_with_snd_id (columns df) row Hlen) at 1.
  rewrite (fill_at_zip_with _ _ _ _ _ _ Hnd HiR).
  rewrite (fill_at_zip_with _ _ _ _ _ _ Hnd HiS).
  rewrite (fill_at_zip_with _ _ _ _ _ _ Hnd HiC).
  unfold normalize_row. apply zip_with_ext; [|done..].
  intros l x. unfold normalize_cell, default_for.
  repeat case_decide; simplify_eq; try done.
  all: repeat (destruct (isna _) eqn:?; simplify_eq/=; try done).
Qed.
End Frames.


(** * The pipeline *)

Lemma process_contacts_stages argsort df :
  process_contacts argsort df = fill_missing df ≫= score_and_rank argsort.
Proof.
  unfold process_contacts, fill_missing.
  destruct (fillna_inplace df "Role" "unknown") as [df1|]; [|done]. simpl.
  destruct (fillna_inplace df1 "Company Size" "1-10") as [df2|]; [|done]. simpl.
  by destruct (fillna_inplace df2 "Country" "unknown") as [df3|].
Qed.

Section Derived.
Variables (cols E : list string) (e : list cell → list cell)
          (R : list (list cell)).
Hypothesis rect : Forall (λ row, length row = length cols) R.

Lemma derived_getitem_old c :
  c ∈ cols →
  getitem (derived cols E e R) c = Ok ((λ row, field cols row c) <$> R).
Proof.
  intros Hc. rewrite getitem_fields by (simpl; apply elem_of_app; by left).
  simpl. rewrite <- list_fmap_compose. f_equal.
  apply Forall_fmap_ext_1. eapply Forall_impl; [exact rect|].
  intros row Hlen. simpl. by apply field_app_old.
Qed.

Lemma derived_getitem_new c k :
  c ∉ cols → list_find (λ x, x = c) E = Some (k, c) →
  getitem (derived cols E e R) c = Ok ((λ row, default NaN (e row !! k)) <$> R).
Proof.
  intros Hc Hk.
  rewrite getitem_fields.
  - simpl. rewrite <- list_fmap_compose. f_equal.
    apply Forall_fmap_ext_1. eapply Forall_impl; [exact rect|].
    intros row Hlen. simpl. by apply field_app_new.
  - simpl. apply elem_of_app. right.
    apply find_label_lookup in Hk. by eapply list_elem_of_lookup_2.
Qed.

Lemma derived_setitem c (h : list cell → cell) :
  c ∉ cols → c ∉ E →
  setitem (derived cols E e R) c (h <$> R)
  = Ok (derived cols (E ++ [c]) (λ row, e row ++ [h row]) R).
Proof.
  intros Hc HE. unfold setitem, derived. simpl.
  rewrite !length_fmap, bool_decide_eq_true_2 by done.
  rewrite find_label_not_elem_of
    by (rewrite elem_of_app; intros [?|?]; done).
  rewrite app_assoc. do 2 f_equal.
  rewrite zip_with_fmap_l, zip_with_fmap_r, zip_with_diag.
  apply list_fmap_ext. intros _ row _. simpl. by rewrite app_assoc.
Qed.
End Derived.

Lemma bind_Ok {A B} (a : A) (k : A → result B) : Ok a ≫= k = k a.
Proof. reflexivity. Qed.

(** One statement of the pipeline: rewrite with what it computes, then
    pass the value on. *)
Tactic Notation "step" open_constr(H) := rewrite H; rewrite ?bind_Ok; cbv beta.

Section Columns.
Context {X : Type}.
Implicit Types (R : list X).

Lemma series_apply_ok (f : cell → result Z) (g : X → cell) (p : X → Z) R :
  Forall (λ x, f (g x) = Ok (p x)) R →
  series_apply f (g <$> R) = Ok ((λ x, Int (p x)) <$> R).
Proof.
  intros H. apply traverse_fmap_ok.
  eapply Forall_impl; [exact H|]. intros x Hx. simpl. by rewrite Hx.
Qed.

Lemma series_mul_float_ok (p : X → Z) (w : spec_float) R :
  series_mul_float ((λ x, Int (p x)) <$> R) w
  = Ok ((λ x, Float (Float64.mul (Float64.of_int (p x)) w)) <$> R).
Proof. apply traverse_fmap_ok, Forall_true. done. Qed.

Lemma series_add_ok (f g : X → spec_float) R :
  series_add ((λ x, Float (f x)) <$> R) ((λ x, Float (g x)) <$> R)
  = Ok ((λ x, Float (Float64.add (f x) (g x))) <$> R).
Proof.
  unfold series_add.
  rewrite zip_with_fmap_l, zip_with_fmap_r, zip_with_diag.
  apply traverse_fmap_ok, Forall_true. done.
Qed.

Lemma as_float64_ok (f : X → spec_float) R :
  traverse as_float64 ((λ x, Float (f x)) <$> R) = Ok (f <$> R).
Proof. apply traverse_fmap_ok, Forall_true. done. Qed.
End Columns.

Lemma weights_lookup :
  dict_getitem WEIGHTS "role" = Ok Float64.lit_0_5
  ∧ dict_getitem WEIGHTS "company_size" = Ok Float64.lit_0_3
  ∧ dict_getitem WEIGHTS "country" = Ok Float64.lit_0_2.
Proof. repeat split; reflexivity. Qed.

Lemma take_rows_ok (df : DataFrame) (indexer : list nat) :
  Forall (λ i, (i < length (rows df))%nat) indexer →
  take_rows df indexer
  = Ok {| columns := columns df;
          rows := (λ i, default [] (rows df !! i)) <$> indexer |}.
Proof.
  intros H. unfold take_rows.
  rewrite (traverse_ok _ (λ i, default [] (rows df !! i))); [done|].
  eapply Forall_impl; [exact H|]. intros i Hi. simpl.
  by destruct (lookup_lt_is_Some_2 _ _ Hi) as [r ->].
Qed.

Lemma take_rows_out_of_range (df : DataFrame) (indexer : list nat) :
  ¬ Forall (λ i, (i < length (rows df))%nat) indexer →
  take_rows df indexer = Raise IndexError.
Proof.
  intros H. unfold take_rows.
  induction indexer as [|i l IH]; [by destruct H|].
  simpl. destruct (rows df !! i) as [r|] eqn:Hi; simpl.
  - rewrite Forall_cons in H.
    assert (¬ Forall (λ i, (i < length (rows df))%nat) l) as Hl.
    { intros Hl. apply H. split; [|done]. by eapply lookup_lt_Some. }
    specialize (IH Hl).
    by destruct (traverse _ l).
  - done.
Qed.

Lemma select_app_keep {A} (P : string → Prop) `{∀ c, Decision (P c)}
    (cols : list string) (K : list bool) (l e : list A) :
  Forall P cols → length l = length cols →
  select (((λ c, bool_decide (P c)) <$> cols) ++ K) (l ++ e) = l ++ select K e.
Proof.
  intros HP. revert l. induction HP as [|c cols Hc _ IH]; intros [|x l] Hlen;
    simplify_eq/=; [done|].
  rewrite bool_decide_eq_true_2 by done. f_equal. by apply IH.
Qed.


Section ScoreAndRank.
Variable argsort : list spec_float → list nat.
Variables (cols : list string) (R : list (list cell)).
Hypothesis rect : Forall (λ row, length row = length cols) R.
Hypothesis has_role : "Role" ∈ cols.
Hypothesis has_size : "Company Size" ∈ cols.
Hypothesis has_country : "Country" ∈ cols.
Hypothesis score_free : Forall (λ c, c ∉ cols) score_columns.
Hypothesis scorable :
  Forall (λ row,
    assign_role_score (field cols row "Role") = Ok (role_points cols row)
    ∧ assign_country_score (field cols row "Country") = Ok (country_points cols row))
    R.

Lemma start_derived :
  {| columns := cols; rows := R |} = derived cols [] (λ _, []) R.
Proof.
  unfold derived. f_equal; [by rewrite app_nil_r|].
  rewrite <- (list_fmap_id R) at 1.
  apply list_fmap_ext. intros _ row _. simpl. by rewrite app_nil_r.
Qed.

Lemma drop_score_columns (e : list cell → list cell) (l : list (list cell)) :
  (∀ row, length (e row) = 4%nat) →
  Forall (λ row, length row = length cols) l →
  drop_columns {| columns := cols ++ score_columns;
                  rows := (λ row, row ++ e row) <$> l |} score_columns
  = Ok {| columns := cols; rows := l |}.
Proof.
  intros He Hl. unfold drop_columns. cbn [columns rows].
  assert (Forall (λ c, c ∉ score_columns) cols) as Hcols.
  { apply Forall_forall. intros c Hc Hs.
    rewrite Forall_forall in score_free. by apply (score_free c). }
  assert (∃ locs, traverse (get_loc (cols ++ score_columns)) score_columns = Ok locs)
    as [locs ->].
  { assert (Forall (λ c, ∃ i, get_loc (cols ++ score_columns) c = Ok i) score_columns)
      as Hloc.
    { apply Forall_forall. intros c Hc. unfold get_loc.
      destruct (find_label_elem_of (cols ++ score_columns) c) as [i ->];
        [apply elem_of_app; by right | by exists i]. }
    by apply traverse_is_ok. }
  rewrite bind_Ok. do 2 f_equal.
  - rewrite fmap_app.
    rewrite (select_app_keep (λ c, c ∉ score_columns)) by done.
    by rewrite app_nil_r.
  - rewrite <- list_fmap_compose.
    rewrite <- (list_fmap_id l) at 2.
    apply Forall_fmap_ext_1. eapply Forall_impl; [exact Hl|].
    intros row Hrow. simpl. rewrite fmap_app.
    rewrite (select_app_keep (λ c, c ∉ score_columns)) by done.
    specialize (He row).
    destruct (e row) as [|a [|b [|c [|d [|? ?]]]]]; simplify_eq/=.
    by rewrite app_nil_r.
Qed.

Lemma score_and_rank_ok :
  let keys := (λ row, the_final_score (role_points cols row)
                        (size_points cols row) (country_points cols row)) <$> R in
  ∀ idx, nargsort argsort keys false = Ok idx →
  Forall (λ i, (i < length R)%nat) idx →
  score_and_rank argsort {| columns := cols; rows := R |}
  = Ok {| columns := cols; rows := (λ i, default [] (R !! i)) <$> idx |}.
Proof.
  intros keys idx Hnarg Hidx.
  pose proof score_free as Hsf. unfold score_columns in Hsf.
  rewrite !Forall_cons in Hsf. destruct Hsf as (F1 & F2 & F3 & F4 & _).
  destruct weights_lookup as (W1 & W2 & W3).
  rewrite start_derived. unfold score_and_rank.
  (* role_score *)
  step (derived_getitem_old cols _ _ R rect "Role" has_role).
  step (series_apply_ok assign_role_score
          (λ row, field cols row "Role") (role_points cols) R).
  2:{ eapply Forall_impl; [exact scorable|]. by intros row [? _]. }
  step (derived_setitem cols _ _ R "role_score"
          (λ row, Int (role_points cols row)) F1).
  2:{ apply not_elem_of_nil. }
  cbn [app].
  (* company_size_score *)
  step (derived_getitem_old cols _ _ R rect "Company Size" has_size).
  step (series_apply_ok assign_company_size_score
          (λ row, field cols row "Company Size") (size_points cols) R).
  2:{ apply Forall_true. done. }
  step (derived_setitem cols _ _ R "company_size_score"
          (λ row, Int (size_points cols row)) F2).
  2:{ compute_done. }
  cbn [app].
  (* country_score *)
  step (derived_getitem_old cols _ _ R rect "Country" has_country).
  step (series_apply_ok assign_country_score
          (λ row, field cols row "Country") (country_points cols) R).
  2:{ eapply Forall_impl; [exact scorable|]. by intros row [_ ?]. }
  step (derived_setitem cols _ _ R "country_score"
          (λ row, Int (country_points cols row)) F3).
  2:{ compute_done. }
  cbn [app].
  (* final_score *)
  step W1. step W2. step W3.
  set (e3 := λ row : list cell,
         [Int (role_points cols row); Int (size_points cols row);
          Int (country_points cols row)]).
  set (E3 := ["role_score"; "company_size_score"; "country_score"]).
  assert (getitem (derived cols E3 e3 R) "role_score"
          = Ok ((λ row, Int (role_points cols row)) <$> R)) as G1
    by exact (derived_getitem_new cols E3 e3 R rect "role_score" 0 F1 eq_refl).
  assert (getitem (derived cols E3 e3 R) "company_size_score"
          = Ok ((λ row, Int (size_points cols row)) <$> R)) as G2
    by exact (derived_getitem_new cols E3 e3 R rect "company_size_score" 1 F2 eq_refl).
  assert (getitem (derived cols E3 e3 R) "country_score"
          = Ok ((λ row, Int (country_points cols row)) <$> R)) as G3
    by exact (derived_getitem_new cols E3 e3 R rect "country_score" 2 F3 eq_refl).
  step G1. step (series_mul_float_ok (role_points cols) Float64.lit_0_5 R).
  step G2. step (series_mul_float_ok (size_points cols) Float64.lit_0_3 R).
  step G3. step (series_mul_float_ok (country_points cols) Float64.lit_0_2 R).
  step (series_add_ok
          (λ row, Float64.mul (Float64.of_int (role_points cols row)) Float64.lit_0_5)
          (λ row, Float64.mul (Float64.of_int (size_points cols row)) Float64.lit_0_3)
          R).
  step (series_add_ok
          (λ row, Float64.add
                    (Float64.mul (Float64.of_int (role_points cols row)) Float64.lit_0_5)
                    (Float64.mul (Float64.of_int (size_points cols row)) Float64.lit_0_3))
          (λ row, Float64.mul (Float64.of_int (country_points cols row)) Float64.lit_0_2)
          R).
  change (λ x, Float (Float64.add
                 (Float64.add
                    (Float64.mul (Float64.of_int (role_points cols x)) Float64.lit_0_5)
                    (Float64.mul (Float64.of_int (size_points cols x)) Float64.lit_0_3))
                 (Float64.mul (Float64.of_int (country_points cols x)) Float64.lit_0_2)))
    with (λ x, Float (the_final_score (role_points cols x) (size_points cols x)
                                      (country_points cols x))).
  step (derived_setitem cols E3 e3 R "final_score"
          (λ row, Float (the_final_score (role_points cols row)
                           (size_points cols row) (country_points cols row))) F4).
  2:{ compute_done. }
  (* sort_values *)
  set (e4 := λ row : list cell, e3 row ++ [Float (the_final_score
             (role_points cols row) (size_points cols row) (country_points cols row))]).
  unfold sort_values.
  assert (getitem (derived cols (E3 ++ ["final_score"]) e4 R) "final_score"
          = Ok ((λ row, Float (the_final_score (role_points cols row)
                                 (size_points cols row) (country_points cols row)))
                  <$> R)) as G4
    by exact (derived_getitem_new cols (E3 ++ ["final_score"]) e4 R rect
                "final_score" 3 F4 eq_refl).
  step G4.
  step (as_float64_ok
          (λ row, the_final_score (role_points cols row)
                    (size_points cols row) (country_points cols row)) R).
  fold keys. step Hnarg.
  rewrite take_rows_ok.
  2:{ unfold derived. cbn [rows]. by rewrite length_fmap. }
  rewrite bind_Ok.
  unfold derived. cbn [columns rows].
  assert ((λ i, default [] (((λ row, row ++ e4 row) <$> R) !! i)) <$> idx
          = (λ row, row ++ e4 row) <$> ((λ i, default [] (R !! i)) <$> idx)) as ->.
  { rewrite <- list_fmap_compose. apply Forall_fmap_ext_1.
    eapply Forall_impl; [exact Hidx|]. intros i Hi. simpl.
    rewrite list_lookup_fmap.
    by destruct (lookup_lt_is_Some_2 _ _ Hi) as [r ->]. }
  apply (drop_score_columns e4); [done|].
  apply Forall_fmap, Forall_forall. intros i Hi. simpl.
  rewrite Forall_forall in Hidx. specialize (Hidx i Hi).
  destruct (lookup_lt_is_Some_2 _ _ Hidx) as [r Hr]. rewrite Hr. simpl.
  rewrite Forall_forall in rect. apply rect.
  by eapply list_elem_of_lookup_2.
Qed.
End ScoreAndRank.


(** * Normalized rows can be scored *)

Section Normalized.
Variables (cols : list string) (row : list cell).
Hypothesis rect : length row = length cols.

Lemma normalize_row_length : length (normalize_row cols row) = length cols.
Proof. unfold normalize_row. rewrite length_zip_with. lia. Qed.

Lemma field_normalize c :
  c ∈ cols →
  field cols (normalize_row cols row) c = normalize_cell c (field cols row c).
Proof.
  intros [i Hi]%find_label_elem_of.
  rewrite !(field_at _ _ _ _ Hi). unfold normalize_row.
  rewrite lookup_zip_with.
  apply find_label_lookup in Hi. rewrite Hi. simpl.
  apply lookup_lt_Some in Hi.
  destruct (lookup_lt_is_Some_2 row i) as [x ->]; [lia|]. done.
Qed.

Lemma normalize_text c d :
  default_for c = Some d → is_text (field cols row c) → c ∈ cols →
  ∃ s, field cols (normalize_row cols row) c = Str s.
Proof.
  intros Hd Ht Hc. rewrite field_normalize by done.
  unfold normalize_cell. rewrite Hd.
  destruct (field cols row c) as [s|z|f]; simpl in *; [by exists s|done|].
  rewrite Ht. by exists d.
Qed.

Lemma normalized_scores :
  "Role" ∈ cols → "Country" ∈ cols →
  is_text (field cols row "Role") → is_text (field cols row "Country") →
  let row' := normalize_row cols row in
  assign_role_score (field cols row' "Role") = Ok (role_points cols row')
  ∧ assign_company_size_score (field cols row' "Company Size")
    = Ok (size_points cols row')
  ∧ assign_country_score (field cols row' "Country") = Ok (country_points cols row')
  ∧ row_final_score cols row'
    = Ok (the_final_score (role_points cols row') (size_points cols row')
            (country_points cols row'))
  ∧ score_of cols row
    = the_final_score (role_points cols row') (size_points cols row')
        (country_points cols row').
Proof.
  intros HR HC TR TC row'.
  destruct (normalize_text "Role" "unknown" eq_refl TR HR) as [r Hr].
  destruct (normalize_text "Country" "unknown" eq_refl TC HC) as [c Hc].
  assert (assign_role_score (field cols row' "Role") = Ok (role_points cols row'))
    as H1.
  { unfold role_points. subst row'. by rewrite Hr. }
  assert (assign_company_size_score (field cols row' "Company Size")
          = Ok (size_points cols row')) as H2 by done.
  assert (assign_country_score (field cols row' "Country")
          = Ok (country_points cols row')) as H3.
  { unfold country_points. subst row'. rewrite Hc.
    by rewrite assign_country_score_str. }
  assert (row_final_score cols row'
          = Ok (the_final_score (role_points cols row') (size_points cols row')
                  (country_points cols row'))) as H4.
  { unfold row_final_score. by rewrite H1, H2, H3. }
  repeat split; try done.
  unfold score_of. fold row'. by rewrite H4.
Qed.
End Normalized.

(** The final score of every row of a well-formed frame is the double of
    a whole number of points between 23 and 100. *)
Lemma score_of_points (df : DataFrame) (row : list cell) :
  well_formed df → row ∈ rows df →
  ∃ n, 23 ≤ n ≤ 100 ∧ score_of (columns df) row = Float64.of_int n
       ∧ row_final_score (columns df) (normalize_row (columns df) row)
         = Ok (Float64.of_int n).
Proof.
  intros [Hrect _ HR _ HC TR TC _] Hrow.
  rewrite Forall_forall in Hrect, TR, TC.
  destruct (normalized_scores (columns df) row (Hrect _ Hrow) HR HC
              (TR _ Hrow) (TC _ Hrow)) as (H1 & H2 & H3 & H4 & H5).
  destruct (final_score_facts _ _ _
              (assign_role_score_values _ _ H1)
              (assign_company_size_score_values _ _ H2)
              (assign_country_score_values _ _ H3)) as (Hf & Hp & _).
  eexists. split; [exact Hp|]. split.
  - by rewrite H5.
  - by rewrite H4, Hf.
Qed.



(** * Order of the final scores

    On the doubles of 23 .. 100 the order of floats is the order of the
    whole numbers. *)

Lemma point_table :
  Forall (λ a, Forall (λ b,
    whole (Float64.of_int a) = a
    ∧ Float64.is_nan (Float64.of_int a) = false
    ∧ Npysort.LT (Float64.of_int a) (Float64.of_int b) = bool_decide (a < b)
    ∧ Float64.ltb (Float64.of_int a) (Float64.of_int b) = bool_decide (a < b))
    point_range) point_range.
Proof. compute_done. Qed.

Lemma point_range_elem_of n : 23 ≤ n ≤ 100 → n ∈ point_range.
Proof. intros. unfold point_range. apply elem_of_seqZ. lia. Qed.

Lemma is_score_whole f : is_score f → f = Float64.of_int (whole f).
Proof.
  intros (n & Hn & ->). pose proof point_table as H.
  rewrite Forall_forall in H. specialize (H n (point_range_elem_of n Hn)).
  rewrite Forall_forall in H. destruct (H n (point_range_elem_of n Hn)) as (-> & _).
  done.
Qed.

Lemma is_score_not_nan f : is_score f → Float64.is_nan f = false.
Proof.
  intros (n & Hn & ->). pose proof point_table as H.
  rewrite Forall_forall in H. specialize (H n (point_range_elem_of n Hn)).
  rewrite Forall_forall in H. by destruct (H n (point_range_elem_of n Hn)) as (_ & ? & _).
Qed.

Lemma is_score_lt f g :
  is_score f → is_score g →
  Npysort.LT f g = bool_decide (whole f < whole g)
  ∧ Float64.ltb f g = bool_decide (whole f < whole g).
Proof.
  intros (a & Ha & ->) (b & Hb & ->). pose proof point_table as H.
  rewrite Forall_forall in H.
  pose proof (H a (point_range_elem_of a Ha)) as H1.
  pose proof (H b (point_range_elem_of b Hb)) as H2.
  rewrite Forall_forall in H1, H2.
  destruct (H1 b (point_range_elem_of b Hb)) as (-> & _ & -> & ->).
  by destruct (H2 b (point_range_elem_of b Hb)) as (-> & _).
Qed.

Lemma is_score_eq f g : is_score f → is_score g → whole f = whole g → f = g.
Proof.
  intros Hf Hg Heq.
  by rewrite (is_score_whole f Hf), (is_score_whole g Hg), Heq.
Qed.


(** * Lists, positions and sortedness *)

Section ListFacts.
Context {A : Type}.
Implicit Types (l : list A).

Lemma fmap_lookup_seq (d : A) l :
  (λ j, default d (l !! j)) <$> seq 0 (length l) = l.
Proof.
  apply list_eq. intros i. rewrite list_lookup_fmap.
  destruct (decide (i < length l)%nat) as [Hi|Hi].
  - rewrite lookup_seq_lt by done. simpl.
    by destruct (lookup_lt_is_Some_2 l i Hi) as [x ->].
  - rewrite lookup_seq_ge by lia. simpl.
    symmetry. apply lookup_ge_None. lia.
Qed.

Lemma filter_fmap {B} (f : B → A) (P : A → Prop) `{∀ x, Decision (P x)}
    (k : list B) :
  filter P (f <$> k) = f <$> filter (λ y, P (f y)) k.
Proof.
  induction k as [|y k IH]; [done|]. csimpl.
  rewrite !filter_cons. case_decide; csimpl; by rewrite IH.
Qed.

Lemma filter_ext_Forall (P Q : A → Prop)
    `{∀ x, Decision (P x)} `{∀ x, Decision (Q x)} l :
  Forall (λ x, P x ↔ Q x) l → filter P l = filter Q l.
Proof.
  induction 1 as [|x l Hx _ IH]; [done|].
  rewrite !filter_cons, IH.
  destruct (decide (P x)), (decide (Q x)); [done|exfalso; tauto..|done].
Qed.

Lemma filter_all (P : A → Prop) `{∀ x, Decision (P x)} l :
  Forall P l → filter P l = l.
Proof.
  induction 1 as [|x l Hx _ IH]; [done|].
  by rewrite filter_cons_True, IH.
Qed.

Lemma filter_none (P : A → Prop) `{∀ x, Decision (P x)} l :
  Forall (λ x, ¬ P x) l → filter P l = [].
Proof.
  induction 1 as [|x l Hx _ IH]; [done|].
  by rewrite filter_cons_False, IH.
Qed.

Lemma Sorted_weaken (P : A → Prop) (R1 R2 : relation A) l :
  Forall P l → (∀ x y, P x → P y → R1 x y → R2 x y) →
  Sorted R1 l → Sorted R2 l.
Proof.
  intros HP HR HS. induction HS as [|x l _ IH Hhd]; [constructor|].
  apply Forall_cons in HP as [Hx Hl].
  constructor; [by apply IH|].
  destruct Hhd as [|y l' Hxy]; constructor.
  apply Forall_cons in Hl as [Hy _]. by apply HR.
Qed.

Lemma StronglySorted_filter (R : relation A) (P : A → Prop)
    `{∀ x, Decision (P x)} l :
  StronglySorted R l → StronglySorted R (filter P l).
Proof.
  induction 1 as [|x l _ IH Hx]; [constructor|].
  rewrite filter_cons. case_decide; [|done].
  constructor; [done|].
  apply Forall_forall. intros y [_ Hy]%list_elem_of_filter.
  rewrite Forall_forall in Hx. by apply Hx.
Qed.

Lemma StronglySorted_lookup (R : relation A) l i j x y :
  StronglySorted R l → (i < j)%nat →
  l !! i = Some x → l !! j = Some y → R x y.
Proof.
  intros HS. revert i j. induction HS as [|z l _ IH Hz]; intros i j Hij Hi Hj.
  - done.
  - destruct i as [|i], j as [|j]; simplify_eq/=; try lia.
    + rewrite Forall_forall in Hz. apply Hz. by eapply list_elem_of_lookup_2.
    + apply (IH i j); [lia|done..].
Qed.
End ListFacts.

Lemma StronglySorted_seq (a n : nat) : StronglySorted lt (seq a n).
Proof.
  revert a. induction n as [|n IH]; intros a; simpl; constructor; [apply IH|].
  apply Forall_seq. intros j Hj. lia.
Qed.

Lemma reverse_seq_lookup (n j : nat) :
  (j < n)%nat → default 0%nat (reverse (seq 0 n) !! j) = (n - 1 - j)%nat.
Proof.
  intros Hj. rewrite reverse_lookup by (rewrite length_seq; lia).
  rewrite length_seq. rewrite lookup_seq_lt by lia. simpl. lia.
Qed.

(** ** [nargsort] on keys without NaN *)

Section Nargsort.
Variable argsort : list spec_float → list nat.
Variable keys : list spec_float.
Hypothesis no_nan : Forall (λ k, Float64.is_nan k = false) keys.

Lemma nargsort_descending :
  Forall (λ j, (j < length keys)%nat) (argsort (reverse keys)) →
  nargsort argsort keys false = Ok (mirror_indexer argsort keys).
Proof.
  intros Hrange. unfold nargsort, mirror_indexer.
  assert (Forall (λ p : nat * spec_float, Float64.is_nan p.2 = false)
            (zip (seq 0 (length keys)) keys)) as Hz.
  { apply Forall_forall. intros [i k] Hik.
    apply elem_of_zip_r in Hik. rewrite Forall_forall in no_nan. by apply no_nan. }
  rewrite (filter_all _ _ Hz).
  rewrite (filter_none (λ p, Float64.is_nan p.2 = true)).
  2:{ eapply Forall_impl; [exact Hz|]. intros p Hp. simpl in *. by rewrite Hp. }
  rewrite fst_zip by (rewrite length_seq; lia).
  rewrite snd_zip by (rewrite length_seq; lia).
  rewrite (traverse_ok _ (λ j, (length keys - 1 - j)%nat)).
  - simpl. by rewrite app_nil_r.
  - eapply Forall_impl; [exact Hrange|]. intros j Hj. cbv beta in Hj.
    rewrite reverse_lookup by (rewrite length_seq; lia).
    rewrite length_seq, lookup_seq_lt by lia. do 2 f_equal. lia.
Qed.

Lemma nargsort_out_of_range :
  ¬ Forall (λ j, (j < length keys)%nat) (argsort (reverse keys)) →
  nargsort argsort keys false = Raise IndexError.
Proof.
  intros Hrange. unfold nargsort.
  assert (Forall (λ p : nat * spec_float, Float64.is_nan p.2 = false)
            (zip (seq 0 (length keys)) keys)) as Hz.
  { apply Forall_forall. intros [i k] Hik.
    apply elem_of_zip_r in Hik. rewrite Forall_forall in no_nan. by apply no_nan. }
  rewrite (filter_all _ _ Hz).
  rewrite fst_zip by (rewrite length_seq; lia).
  rewrite snd_zip by (rewrite length_seq; lia).
  generalize (filter (λ p : nat * spec_float, Float64.is_nan p.2 = true)
                (zip (seq 0 (length keys)) keys)).*1. intros nan_idx.
  induction (argsort (reverse keys)) as [|j l IH]; [by destruct Hrange|].
  simpl.
  destruct (reverse (seq 0 (length keys)) !! j) as [i|] eqn:Hj; simpl; [|done].
  assert (¬ Forall (λ j, (j < length keys)%nat) l) as Hl.
  { intros Hl. apply Hrange. constructor; [|done].
    apply lookup_lt_Some in Hj. by rewrite length_reverse, length_seq in Hj. }
  specialize (IH Hl).
  destruct (traverse _ l); simplify_eq/=. done.
Qed.

Hypothesis sorted : sorts argsort (reverse keys).

Lemma argsort_in_range :
  Forall (λ j, (j < length keys)%nat) (argsort (reverse keys)).
Proof.
  destruct sorted as [Hp _]. rewrite Hp, length_reverse.
  apply Forall_seq. intros; lia.
Qed.

Lemma nargsort_mirror :
  nargsort argsort keys false = Ok (mirror_indexer argsort keys).
Proof. apply nargsort_descending, argsort_in_range. Qed.

Lemma mirror_Permutation : mirror_indexer argsort keys ≡ₚ seq 0 (length keys).
Proof.
  unfold mirror_indexer. rewrite reverse_Permutation.
  destruct sorted as [Hp _]. rewrite Hp, length_reverse.
  assert ((λ j, (length keys - 1 - j)%nat) <$> seq 0 (length keys)
          = reverse (seq 0 (length keys))) as ->.
  { pose proof (fmap_lookup_seq 0%nat (reverse (seq 0 (length keys)))) as H.
    rewrite length_reverse, length_seq in H. etrans; [|exact H].
    apply Forall_fmap_ext_1, Forall_seq. intros j Hj. simpl.
    symmetry. apply reverse_seq_lookup. lia. }
  apply reverse_Permutation.
Qed.

Lemma mirror_in_range :
  Forall (λ i, (i < length keys)%nat) (mirror_indexer argsort keys).
Proof.
  rewrite mirror_Permutation. apply Forall_seq. intros; lia.
Qed.
End Nargsort.

(** ** Descending order of the indexer *)

Section Descending.
Variable argsort : list spec_float → list nat.
Variable keys : list spec_float.
Hypothesis scores : Forall is_score keys.

Lemma scores_no_nan : Forall (λ k, Float64.is_nan k = false) keys.
Proof. eapply Forall_impl; [exact scores|]. apply is_score_not_nan. Qed.

Lemma key_at_is_score i : (i < length keys)%nat → is_score (key_at keys i).
Proof.
  intros Hi. unfold key_at.
  destruct (lookup_lt_is_Some_2 keys i Hi) as [k Hk]. rewrite Hk. simpl.
  rewrite Forall_forall in scores. apply scores.
  by eapply list_elem_of_lookup_2.
Qed.

Lemma key_at_reverse j :
  (j < length keys)%nat →
  key_at (reverse keys) j = key_at keys (length keys - 1 - j).
Proof.
  intros Hj. unfold key_at. rewrite reverse_lookup by done.
  do 2 f_equal. lia.
Qed.

Local Instance desc_trans : Transitive (desc keys).
Proof. unfold desc. intros i j k. lia. Qed.

Local Instance desc_stable_trans : Transitive (desc_stable keys).
Proof. unfold desc_stable. intros i j k. lia. Qed.

Lemma nargsort_desc :
  sorts argsort (reverse keys) →
  StronglySorted (desc keys) (mirror_indexer argsort keys).
Proof.
  intros Hs. unfold mirror_indexer.
  apply Sorted_StronglySorted; [apply _|].
  apply (Sorted_reverse (flip (desc keys))).
  apply (Sorted_fmap _ (λ a b, desc keys (length keys - 1 - b) (length keys - 1 - a)));
    [done|].
  destruct Hs as [Hp Hs].
  eapply (Sorted_weaken (λ j, (j < length keys)%nat)); [| |exact Hs].
  - by apply argsort_in_range.
  - intros a b Ha Hb Hab. simpl in Hab.
    rewrite !key_at_reverse in Hab by done.
    destruct (is_score_lt (key_at keys (length keys - 1 - b))
                          (key_at keys (length keys - 1 - a))) as [HLT _];
      [apply key_at_is_score; lia..|].
    rewrite HLT in Hab. apply bool_decide_eq_false in Hab.
    unfold desc, points_at. lia.
Qed.

Lemma nargsort_desc_stable :
  sorts argsort (reverse keys) →
  stable_on argsort (reverse keys) →
  StronglySorted (desc_stable keys) (mirror_indexer argsort keys).
Proof.
  intros Hs Hst. unfold mirror_indexer.
  apply Sorted_StronglySorted; [apply _|].
  apply (Sorted_reverse (flip (desc_stable keys))).
  apply (Sorted_fmap _ (λ a b, desc_stable keys (length keys - 1 - b) (length keys - 1 - a)));
    [done|].
  eapply (Sorted_weaken (λ j, (j < length keys)%nat)); [| |exact Hst].
  - by apply argsort_in_range.
  - intros a b Ha Hb Hab. simpl in Hab.
    rewrite !key_at_reverse in Hab by done.
    destruct (is_score_lt (key_at keys (length keys - 1 - a))
                          (key_at keys (length keys - 1 - b))) as [HLT _];
      [apply key_at_is_score; lia..|].
    rewrite HLT in Hab. unfold desc_stable, points_at.
    destruct Hab as [Hab|[Hab Hlt]].
    + apply bool_decide_eq_true in Hab. left. lia.
    + right. split; [by rewrite Hab|lia].
Qed.
End Descending.


(** * [process_contacts] on a well-formed frame *)

Section Ranking.
Variable argsort : list spec_float → list nat.
Variable df : DataFrame.
Hypothesis wf : well_formed df.

Lemma sort_keys_length : length (sort_keys df) = length (rows df).
Proof. unfold sort_keys. by rewrite length_fmap. Qed.

Lemma sort_keys_scores : Forall is_score (sort_keys df).
Proof.
  unfold sort_keys. apply Forall_fmap, Forall_forall. intros row Hrow. simpl.
  destruct (score_of_points df row wf Hrow) as (n & Hn & Hs & _).
  by exists n.
Qed.

(** Whatever the sorting routine returns, as long as it names
    positions of its argument, [process_contacts] returns the
    normalized rows in the order of the indexer. *)
Lemma process_contacts_ok :
  Forall (λ j, (j < length (rows df))%nat) (argsort (argsort_input df)) →
  process_contacts argsort df = Ok (ranked argsort df).
Proof.
  intros Hrange. pose proof wf as [Hrect Hnd HR HS HC TR TC Hfree].
  rewrite process_contacts_stages.
  rewrite fill_missing_ok by done. rewrite bind_Ok.
  set (cols := columns df) in *.
  set (R := normalize_row cols <$> rows df).
  assert ((λ row, the_final_score (role_points cols row) (size_points cols row)
                    (country_points cols row)) <$> R
          = sort_keys df) as Hkeys.
  { unfold R, sort_keys. rewrite <- list_fmap_compose.
    apply Forall_fmap_ext_1, Forall_forall. intros row Hrow. simpl.
    rewrite Forall_forall in Hrect, TR, TC.
    symmetry.
    apply (normalized_scores cols row (Hrect _ Hrow) HR HC (TR _ Hrow) (TC _ Hrow)). }
  rewrite (score_and_rank_ok argsort cols R) with (idx := mirror_indexer argsort (sort_keys df)).
  - done.
  - apply Forall_fmap. eapply Forall_impl; [exact Hrect|].
    intros row Hlen. simpl. by apply normalize_row_length.
  - done.
  - done.
  - done.
  - done.
  - apply Forall_fmap, Forall_forall. intros row Hrow. simpl.
    rewrite Forall_forall in Hrect, TR, TC.
    destruct (normalized_scores cols row (Hrect _ Hrow) HR HC (TR _ Hrow) (TC _ Hrow))
      as (H1 & _ & H3 & _). done.
  - rewrite Hkeys. apply nargsort_descending.
    + eapply Forall_impl; [exact sort_keys_scores|]. apply is_score_not_nan.
    + by rewrite sort_keys_length.
  - unfold R, mirror_indexer. rewrite length_fmap.
    apply Forall_reverse, Forall_fmap.
    eapply Forall_impl; [exact Hrange|]. intros j Hj. cbv beta in Hj. simpl.
    rewrite sort_keys_length. lia.
Qed.

Hypothesis sorted : sorts argsort (argsort_input df).

Lemma argsort_input_in_range :
  Forall (λ j, (j < length (rows df))%nat) (argsort (argsort_input df)).
Proof.
  rewrite <- sort_keys_length.
  apply argsort_in_range. exact sorted.
Qed.

Lemma process_contacts_ranked : process_contacts argsort df = Ok (ranked argsort df).
Proof. apply process_contacts_ok, argsort_input_in_range. Qed.

Lemma ranked_Permutation :
  rows (ranked argsort df) ≡ₚ normalize_row (columns df) <$> rows df.
Proof.
  unfold ranked. cbn [rows].
  rewrite (mirror_Permutation argsort (sort_keys df) sorted).
  rewrite sort_keys_length.
  rewrite <- (length_fmap (normalize_row (columns df)) (rows df)).
  by rewrite fmap_lookup_seq.
Qed.

(** The row the output holds for position [i] of the input, and its
    final score. *)
Lemma ranked_row_score i :
  (i < length (rows df))%nat →
  row_final_score (columns df)
    (default [] ((normalize_row (columns df) <$> rows df) !! i))
  = Ok (key_at (sort_keys df) i)
  ∧ is_score (key_at (sort_keys df) i).
Proof.
  intros Hi. destruct (lookup_lt_is_Some_2 _ _ Hi) as [row Hrow].
  rewrite list_lookup_fmap, Hrow. simpl.
  unfold key_at, sort_keys. rewrite list_lookup_fmap, Hrow. simpl.
  destruct (score_of_points df row wf) as (n & Hn & Hs & Hf);
    [by eapply list_elem_of_lookup_2|].
  rewrite Hf, Hs. split; [done|]. by exists n.
Qed.
End Ranking.

(** * The score columns *)

(** [process_contacts] sorts the scored frame and drops its score
    columns. *)
Lemma score_and_rank_add_scores argsort (df : DataFrame) :
  score_and_rank argsort df
  = (scored ← add_scores df;
     df_sorted ← sort_values argsort scored "final_score" false;
     drop_columns df_sorted score_columns).
Proof.
  unfold score_and_rank, add_scores.
  repeat (match goal with
          | |- (?m ≫= _) = ((?m ≫= _) ≫= _) =>
              destruct m; simpl; [|reflexivity]
          | |- ((?m ≫= ?f) ≫= _) = (((?m ≫= ?f) ≫= _) ≫= _) =>
              destruct (m ≫= f); simpl; [|reflexivity]
          end).
  reflexivity.
Qed.

Lemma process_contacts_score_contacts argsort (df : DataFrame) :
  process_contacts argsort df
  = (scored ← score_contacts df;
     df_sorted ← sort_values argsort scored "final_score" false;
     drop_columns df_sorted score_columns).
Proof.
  rewrite process_contacts_stages. unfold score_contacts.
  destruct (fill_missing df) as [df'|]; simpl; [|done].
  apply score_and_rank_add_scores.
Qed.

Section AddScores.
Variables (cols : list string) (R : list (list cell)).
Hypothesis rect : Forall (λ row, length row = length cols) R.
Hypothesis has_role : "Role" ∈ cols.
Hypothesis has_size : "Company Size" ∈ cols.
Hypothesis has_country : "Country" ∈ cols.
Hypothesis score_free : Forall (λ c, c ∉ cols) score_columns.
Hypothesis scorable :
  Forall (λ row,
    assign_role_score (field cols row "Role") = Ok (role_points cols row)
    ∧ assign_country_score (field cols row "Country") = Ok (country_points cols row))
    R.

(** The four score columns are appended, in the order of their
    assignments. *)
Lemma add_scores_ok :
  add_scores {| columns := cols; rows := R |}
  = Ok (derived cols score_columns
          (λ row, [ Int (role_points cols row); Int (size_points cols row);
                    Int (country_points cols row);
                    Float (the_final_score (role_points cols row)
                             (size_points cols row) (country_points cols row)) ])
          R).
Proof.
  pose proof score_free as Hsf. unfold score_columns in Hsf.
  rewrite !Forall_cons in Hsf. destruct Hsf as (F1 & F2 & F3 & F4 & _).
  destruct weights_lookup as (W1 & W2 & W3).
  rewrite start_derived. unfold add_scores.
  step (derived_getitem_old cols _ _ R rect "Role" has_role).
  step (series_apply_ok assign_role_score
          (λ row, field cols row "Role") (role_points cols) R).
  2:{ eapply Forall_impl; [exact scorable|]. by intros row [? _]. }
  step (derived_setitem cols _ _ R "role_score"
          (λ row, Int (role_points cols row)) F1).
  2:{ apply not_elem_of_nil. }
  cbn [app].
  step (derived_getitem_old cols _ _ R rect "Company Size" has_size).
  step (series_apply_ok assign_company_size_score
          (λ row, field cols row "Company Size") (size_points cols) R).
  2:{ apply Forall_true. done. }
  step (derived_setitem cols _ _ R "company_size_score"
          (λ row, Int (size_points cols row)) F2).
  2:{ compute_done. }
  cbn [app].
  step (derived_getitem_old cols _ _ R rect "Country" has_country).
  step (series_apply_ok assign_country_score
          (λ row, field cols row "Country") (country_points cols) R).
  2:{ eapply Forall_impl; [exact scorable|]. by intros row [_ ?]. }
  step (derived_setitem cols _ _ R "country_score"
          (λ row, Int (country_points cols row)) F3).
  2:{ compute_done. }
  cbn [app].
  step W1. step W2. step W3.
  set (e3 := λ row : list cell,
         [Int (role_points cols row); Int (size_points cols row);
          Int (country_points cols row)]).
  set (E3 := ["role_score"; "company_size_score"; "country_score"]).
  step (derived_getitem_new cols E3 e3 R rect "role_score" 0 F1 eq_refl).
  change (λ row, default NaN (e3 row !! 0%nat))
    with (λ row, Int (role_points cols row)).
  step (series_mul_float_ok (role_points cols) Float64.lit_0_5 R).
  step (derived_getitem_new cols E3 e3 R rect "company_size_score" 1 F2 eq_refl).
  change (λ row, default NaN (e3 row !! 1%nat))
    with (λ row, Int (size_points cols row)).
  step (series_mul_float_ok (size_points cols) Float64.lit_0_3 R).
  step (derived_getitem_new cols E3 e3 R rect "country_score" 2 F3 eq_refl).
  change (λ row, default NaN (e3 row !! 2%nat))
    with (λ row, Int (country_points cols row)).
  step (series_mul_float_ok (country_points cols) Float64.lit_0_2 R).
  step (series_add_ok
          (λ row, Float64.mul (Float64.of_int (role_points cols row)) Float64.lit_0_5)
          (λ row, Float64.mul (Float64.of_int (size_points cols row)) Float64.lit_0_3)
          R).
  step (series_add_ok
          (λ row, Float64.add
                    (Float64.mul (Float64.of_int (role_points cols row)) Float64.lit_0_5)
                    (Float64.mul (Float64.of_int (size_points cols row)) Float64.lit_0_3))
          (λ row, Float64.mul (Float64.of_int (country_points cols row)) Float64.lit_0_2)
          R).
  change (λ x, Float (Float64.add
                 (Float64.add
                    (Float64.mul (Float64.of_int (role_points cols x)) Float64.lit_0_5)
                    (Float64.mul (Float64.of_int (size_points cols x)) Float64.lit_0_3))
                 (Float64.mul (Float64.of_int (country_points cols x)) Float64.lit_0_2)))
    with (λ x, Float (the_final_score (role_points cols x) (size_points cols x)
                                      (country_points cols x))).
  rewrite (derived_setitem cols E3 e3 R "final_score"
             (λ row, Float (the_final_score (role_points cols row)
                              (size_points cols row) (country_points cols row))) F4).
  - reflexivity.
  - compute_done.
Qed.
End AddScores.

Section Scored.
Variable df : DataFrame.
Hypothesis wf : well_formed df.

(** The scored frame: the filled rows, each followed by its four
    score cells. *)
Lemma score_contacts_ok :
  score_contacts df
  = Ok {| columns := columns df ++ score_columns;
          rows := (λ row, normalize_row (columns df) row
                          ++ score_cells (columns df) row) <$> rows df |}.
Proof.
  pose proof wf as [Hrect Hnd HR HS HC TR TC Hfree].
  unfold score_contacts. rewrite fill_missing_ok by done. rewrite bind_Ok.
  rewrite add_scores_ok; try done.
  - unfold derived. f_equal. f_equal. by rewrite <- list_fmap_compose.
  - apply Forall_fmap. eapply Forall_impl; [exact Hrect|].
    intros row Hlen. simpl. by apply normalize_row_length.
  - apply Forall_fmap, Forall_forall. intros row Hrow. simpl.
    rewrite Forall_forall in Hrect, TR, TC.
    destruct (normalized_scores (columns df) row (Hrect _ Hrow) HR HC
                (TR _ Hrow) (TC _ Hrow)) as (H1 & _ & H3 & _). done.
Qed.

Lemma scored_getitem (c : string) (k : nat) :
  list_find (λ x, x = c) score_columns = Some (k, c) →
  getitem {| columns := columns df ++ score_columns;
             rows := (λ row, normalize_row (columns df) row
                             ++ score_cells (columns df) row) <$> rows df |} c
  = Ok ((λ row, default NaN (score_cells (columns df) row !! k)) <$> rows df).
Proof.
  intros Hk. pose proof wf as [Hrect _ _ _ _ _ _ Hfree].
  assert (c ∉ columns df) as Hc.
  { rewrite Forall_forall in Hfree. apply Hfree.
    apply find_label_lookup in Hk. by eapply list_elem_of_lookup_2. }
  rewrite getitem_fields.
  2:{ cbn [columns]. apply elem_of_app. right.
      apply find_label_lookup in Hk. by eapply list_elem_of_lookup_2. }
  cbn [columns rows]. rewrite <- list_fmap_compose. f_equal.
  apply Forall_fmap_ext_1. eapply Forall_impl; [exact Hrect|].
  intros row Hlen. simpl.
  apply field_app_new; [done|by apply normalize_row_length|done].
Qed.

(** What the score cells of a row hold. *)
Lemma score_cells_facts (row : list cell) :
  row ∈ rows df →
  let row' := normalize_row (columns df) row in
  let r := role_points (columns df) row' in
  let s := size_points (columns df) row' in
  let c := country_points (columns df) row' in
  assign_role_score (field (columns df) row' "Role") = Ok r
  ∧ assign_company_size_score (field (columns df) row' "Company Size") = Ok s
  ∧ assign_country_score (field (columns df) row' "Country") = Ok c
  ∧ r ∈ role_values ∧ s ∈ size_values ∧ c ∈ country_values.
Proof.
  intros Hrow row' r s c. pose proof wf as [Hrect _ HR _ HC TR TC _].
  rewrite Forall_forall in Hrect, TR, TC.
  destruct (normalized_scores (columns df) row (Hrect _ Hrow) HR HC
              (TR _ Hrow) (TC _ Hrow)) as (H1 & H2 & H3 & _).
  repeat split; try done.
  - by eapply assign_role_score_values.
  - by eapply assign_company_size_score_values.
  - by eapply assign_country_score_values.
Qed.
End Scored.

(** The [final_score] column holds the sort keys of the frame. *)
Lemma scored_final_score (df : DataFrame) :
  well_formed df →
  (λ row, default NaN (score_cells (columns df) row !! 3%nat)) <$> rows df
  = Float <$> sort_keys df.
Proof.
  intros [Hrect _ HR _ HC TR TC _]. unfold sort_keys.
  rewrite <- list_fmap_compose. apply Forall_fmap_ext_1.
  rewrite Forall_forall in Hrect, TR, TC. apply Forall_forall. intros row Hrow. simpl.
  destruct (normalized_scores (columns df) row (Hrect _ Hrow) HR HC
              (TR _ Hrow) (TC _ Hrow)) as (_ & _ & _ & _ & H5).
  by rewrite H5.
Qed.

(** C3: for every record the final score is 0.5 times its role score
    plus 0.3 times its company-size score plus 0.2 times its country
    score.  The scores are those of the columns [role_score],
    [company_size_score], [country_score] and [final_score] of the frame
    that [process_contacts] computes and sorts; the first three hold
    what the scoring functions return for the filled cells of the
    record, the products and sums are computed in binary64, and the
    equation holds exactly.  Scores of 100, 100 and 100 give the final
    score 100.0. *)
Theorem final_score_is_weighted_sum
    (argsort : list spec_float → list nat) (df : DataFrame) :
  well_formed df →
  ∃ scored role_score size_score country_score final_score,
    score_contacts df = Ok scored
    ∧ process_contacts argsort df
      = (df_sorted ← sort_values argsort scored "final_score" false;
         drop_columns df_sorted score_columns)
    ∧ getitem scored "role_score" = Ok role_score
    ∧ getitem scored "company_size_score" = Ok size_score
    ∧ getitem scored "country_score" = Ok country_score
    ∧ getitem scored "final_score" = Ok final_score
    ∧ ∀ i row, rows df !! i = Some row →
        ∃ r s c f,
          role_score !! i = Some (Int r)
          ∧ size_score !! i = Some (Int s)
          ∧ country_score !! i = Some (Int c)
          ∧ final_score !! i = Some (Float f)
          ∧ assign_role_score
              (field (columns df) (normalize_row (columns df) row) "Role") = Ok r
          ∧ assign_company_size_score
              (field (columns df) (normalize_row (columns df) row) "Company Size")
            = Ok s
          ∧ assign_country_score
              (field (columns df) (normalize_row (columns df) row) "Country") = Ok c
          ∧ f = Float64.add
                  (Float64.add (Float64.mul (Float64.of_int r) Float64.lit_0_5)
                               (Float64.mul (Float64.of_int s) Float64.lit_0_3))
                  (Float64.mul (Float64.of_int c) Float64.lit_0_2)
          ∧ Float64.is_finite f = true
          ∧ Float64.to_Q f
            == (1 # 2) * inject_Z r + (3 # 10) * inject_Z s + (1 # 5) * inject_Z c
          ∧ (r = 100 → s = 100 → c = 100 →
             f = Float64.of_int 100 ∧ Float64.to_Q f == 100).
Proof.
  intros wf.
  exists {| columns := columns df ++ score_columns;
            rows := (λ row, normalize_row (columns df) row
                            ++ score_cells (columns df) row) <$> rows df |},
         ((λ row, default NaN (score_cells (columns df) row !! 0%nat)) <$> rows df),
         ((λ row, default NaN (score_cells (columns df) row !! 1%nat)) <$> rows df),
         ((λ row, default NaN (score_cells (columns df) row !! 2%nat)) <$> rows df),
         ((λ row, default NaN (score_cells (columns df) row !! 3%nat)) <$> rows df).
  split; [exact (score_contacts_ok df wf)|].
  split; [by rewrite process_contacts_score_contacts, (score_contacts_ok df wf)|].
  split; [exact (scored_getitem df wf "role_score" 0 eq_refl)|].
  split; [exact (scored_getitem df wf "company_size_score" 1 eq_refl)|].
  split; [exact (scored_getitem df wf "country_score" 2 eq_refl)|].
  split; [exact (scored_getitem df wf "final_score" 3 eq_refl)|].
  intros i row Hrow.
  destruct (score_cells_facts df wf row) as (H1 & H2 & H3 & V1 & V2 & V3);
    [by eapply list_elem_of_lookup_2|].
  destruct (final_score_facts _ _ _ V1 V2 V3) as (_ & _ & Hfin & Hq & _).
  assert (∀ k, ((λ row, default NaN (score_cells (columns df) row !! k)) <$> rows df)
               !! i
               = Some (default NaN (score_cells (columns df) row !! k))) as Hcol
    by (intros k; by rewrite list_lookup_fmap, Hrow).
  eexists _, _, _, _.
  split; [exact (Hcol 0%nat)|]. split; [exact (Hcol 1%nat)|].
  split; [exact (Hcol 2%nat)|]. split; [exact (Hcol 3%nat)|].
  split; [exact H1|]. split; [exact H2|]. split; [exact H3|].
  split; [done|]. split; [exact Hfin|]. split; [exact Hq|].
  intros -> -> ->. by split.
Qed.

Lemma final_score_is_weighted_sum_witness :
  ∃ scored role_score size_score country_score final_score,
    score_contacts sample_frame = Ok scored
    ∧ process_contacts Npysort.argsort sample_frame
      = (df_sorted ← sort_values Npysort.argsort scored "final_score" false;
         drop_columns df_sorted score_columns)
    ∧ getitem scored "role_score" = Ok role_score
    ∧ getitem scored "company_size_score" = Ok size_score
    ∧ getitem scored "country_score" = Ok country_score
    ∧ getitem scored "final_score" = Ok final_score
    ∧ ∀ i row, rows sample_frame !! i = Some row →
        ∃ r s c f,
          role_score !! i = Some (Int r)
          ∧ size_score !! i = Some (Int s)
          ∧ country_score !! i = Some (Int c)
          ∧ final_score !! i = Some (Float f)
          ∧ assign_role_score
              (field (columns sample_frame)
                 (normalize_row (columns sample_frame) row) "Role") = Ok r
          ∧ assign_company_size_score
              (field (columns sample_frame)
                 (normalize_row (columns sample_frame) row) "Company Size")
            = Ok s
          ∧ assign_country_score
              (field (columns sample_frame)
                 (normalize_row (columns sample_frame) row) "Country") = Ok c
          ∧ f = Float64.add
                  (Float64.add (Float64.mul (Float64.of_int r) Float64.lit_0_5)
                               (Float64.mul (Float64.of_int s) Float64.lit_0_3))
                  (Float64.mul (Float64.of_int c) Float64.lit_0_2)
          ∧ Float64.is_finite f = true
          ∧ Float64.to_Q f
            == (1 # 2) * inject_Z r + (3 # 10) * inject_Z s + (1 # 5) * inject_Z c
          ∧ (r = 100 → s = 100 → c = 100 →
             f = Float64.of_int 100 ∧ Float64.to_Q f == 100).
Proof.
  apply (final_score_is_weighted_sum Npysort.argsort sample_frame).
  split; compute_done.
Defined.

(** C10: for every record, whatever its [Role], [Company Size] and
    [Country] hold once the missing ones are filled in, the role score
    that [process_contacts] computes lies in [10, 100], the company-size
    score in [20, 100], the country score in [60, 100] and the final
    score in [23, 100].  The scores are those of the score columns of
    the frame that [process_contacts] computes and sorts.  An intern of
    a company of 1-10 in a country of no tier gets 10, 20, 60 and 23.0;
    a CEO of a company of 10000+ in the USA gets 100 four times. *)
Theorem final_score_bounds
    (argsort : list spec_float → list nat) (df : DataFrame) :
  well_formed df →
  (∃ scored role_score size_score country_score final_score,
    score_contacts df = Ok scored
    ∧ process_contacts argsort df
      = (df_sorted ← sort_values argsort scored "final_score" false;
         drop_columns df_sorted score_columns)
    ∧ getitem scored "role_score" = Ok role_score
    ∧ getitem scored "company_size_score" = Ok size_score
    ∧ getitem scored "country_score" = Ok country_score
    ∧ getitem scored "final_score" = Ok final_score
    ∧ ∀ i row, rows df !! i = Some row →
        ∃ r s c f,
          role_score !! i = Some (Int r)
          ∧ size_score !! i = Some (Int s)
          ∧ country_score !! i = Some (Int c)
          ∧ final_score !! i = Some (Float f)
          ∧ 10 ≤ r ≤ 100 ∧ 20 ≤ s ≤ 100 ∧ 60 ≤ c ≤ 100
          ∧ Float64.is_finite f = true
          ∧ (23 <= Float64.to_Q f <= 100)%Q)
  ∧ (score_contacts extreme_frame ≫= λ scored, getitem scored "role_score")
    = Ok [Int 10; Int 100]
  ∧ (score_contacts extreme_frame ≫= λ scored, getitem scored "company_size_score")
    = Ok [Int 20; Int 100]
  ∧ (score_contacts extreme_frame ≫= λ scored, getitem scored "country_score")
    = Ok [Int 60; Int 100]
  ∧ (score_contacts extreme_frame ≫= λ scored, getitem scored "final_score")
    = Ok [Float (Float64.of_int 23); Float (Float64.of_int 100)].
Proof.
  intros wf. split; [|repeat split; vm_compute; reflexivity].
  exists {| columns := columns df ++ score_columns;
            rows := (λ row, normalize_row (columns df) row
                            ++ score_cells (columns df) row) <$> rows df |},
         ((λ row, default NaN (score_cells (columns df) row !! 0%nat)) <$> rows df),
         ((λ row, default NaN (score_cells (columns df) row !! 1%nat)) <$> rows df),
         ((λ row, default NaN (score_cells (columns df) row !! 2%nat)) <$> rows df),
         ((λ row, default NaN (score_cells (columns df) row !! 3%nat)) <$> rows df).
  split; [exact (score_contacts_ok df wf)|].
  split; [by rewrite process_contacts_score_contacts, (score_contacts_ok df wf)|].
  split; [exact (scored_getitem df wf "role_score" 0 eq_refl)|].
  split; [exact (scored_getitem df wf "company_size_score" 1 eq_refl)|].
  split; [exact (scored_getitem df wf "country_score" 2 eq_refl)|].
  split; [exact (scored_getitem df wf "final_score" 3 eq_refl)|].
  intros i row Hrow.
  destruct (score_cells_facts df wf row) as (_ & _ & _ & V1 & V2 & V3);
    [by eapply list_elem_of_lookup_2|].
  destruct (score_ranges _ _ _ V1 V2 V3) as (Br & Bs & Bc).
  destruct (final_score_facts _ _ _ V1 V2 V3) as (_ & Hp & Hfin & _ & Hq).
  assert (∀ k, ((λ row, default NaN (score_cells (columns df) row !! k)) <$> rows df)
               !! i
               = Some (default NaN (score_cells (columns df) row !! k))) as Hcol
    by (intros k; by rewrite list_lookup_fmap, Hrow).
  eexists _, _, _, _.
  split; [exact (Hcol 0%nat)|]. split; [exact (Hcol 1%nat)|].
  split; [exact (Hcol 2%nat)|]. split; [exact (Hcol 3%nat)|].
  split; [exact Br|]. split; [exact Bs|]. split; [exact Bc|].
  split; [exact Hfin|]. split.
  - rewrite Hq. change 23%Q with (inject_Z 23). rewrite <- Zle_Qle. lia.
  - rewrite Hq. change 100%Q with (inject_Z 100). rewrite <- Zle_Qle. lia.
Qed.

Lemma final_score_bounds_witness :
  ∃ scored role_score size_score country_score final_score,
    score_contacts extreme_frame = Ok scored
    ∧ process_contacts Npysort.argsort extreme_frame
      = (df_sorted ← sort_values Npysort.argsort scored "final_score" false;
         drop_columns df_sorted score_columns)
    ∧ getitem scored "role_score" = Ok role_score
    ∧ getitem scored "company_size_score" = Ok size_score
    ∧ getitem scored "country_score" = Ok country_score
    ∧ getitem scored "final_score" = Ok final_score
    ∧ ∀ i row, rows extreme_frame !! i = Some row →
        ∃ r s c f,
          role_score !! i = Some (Int r)
          ∧ size_score !! i = Some (Int s)
          ∧ country_score !! i = Some (Int c)
          ∧ final_score !! i = Some (Float f)
          ∧ 10 ≤ r ≤ 100 ∧ 20 ≤ s ≤ 100 ∧ 60 ≤ c ≤ 100
          ∧ Float64.is_finite f = true
          ∧ (23 <= Float64.to_Q f <= 100)%Q.
Proof.
  refine (proj1 (final_score_bounds Npysort.argsort extreme_frame _)).
  split; compute_done.
Defined.


(** * The default sort names positions of its argument

    Every entry the sorting routines write into the index array was
    read from it, so the result of [Npysort.argsort] never leaves the
    range of its argument. *)

Section InRange.
Variable v : list spec_float.
Variable n : nat.
Hypothesis n_pos : (0 < n)%nat.

Lemma at_in_range a p : in_range n a → (Npysort.at_ a p < n)%nat.
Proof.
  intros Ha. unfold Npysort.at_.
  destruct (a !! p) as [x|] eqn:Hx; simpl; [|done].
  unfold in_range in Ha. rewrite Forall_forall in Ha.
  by eapply Ha, list_elem_of_lookup_2.
Qed.

Lemma insert_in_range a p x : in_range n a → (x < n)%nat → in_range n (<[p := x]> a).
Proof. intros. by apply Forall_insert. Qed.

Lemma swap_in_range a p q : in_range n a → in_range n (Npysort.swap a p q).
Proof.
  intros Ha. unfold Npysort.swap.
  apply insert_in_range; [apply insert_in_range|]; auto using at_in_range.
Qed.

Lemma hoare_in_range fuel a vp pi pj :
  in_range n a → in_range n (Npysort.hoare v fuel a vp pi pj).1.
Proof.
  revert a pi pj. induction fuel as [|fuel IH]; intros a pi pj Ha; simpl; [done|].
  case_match; [done|]. by apply IH, swap_in_range.
Qed.

Lemma partition_in_range a pl pr :
  in_range n a → in_range n (Npysort.partition v a pl pr).1.
Proof.
  intros Ha. unfold Npysort.partition.
  set (a1 := if Npysort.LT _ _ then _ else a).
  assert (in_range n a1) as H1 by (subst a1; case_match; auto using swap_in_range).
  set (a2 := if Npysort.LT _ _ then _ else a1).
  assert (in_range n a2) as H2 by (subst a2; case_match; auto using swap_in_range).
  set (a3 := if Npysort.LT _ _ then _ else a2).
  assert (in_range n a3) as H3 by (subst a3; case_match; auto using swap_in_range).
  pose proof (hoare_in_range (length (Npysort.swap a3 (pl + (pr - pl) / 2) (pr - 1)))
                (Npysort.swap a3 (pl + (pr - pl) / 2) (pr - 1))
                (Npysort.key v (Npysort.at_ a3 (pl + (pr - pl) / 2)))
                pl (pr - 1) (swap_in_range _ _ _ H3)) as H4.
  destruct (Npysort.hoare _ _ _ _ _ _) as [a4 pi]. simpl in *.
  by apply swap_in_range.
Qed.

Lemma shift_in_range fuel a vp pl pj :
  in_range n a → in_range n (Npysort.shift v fuel a vp pl pj).1.
Proof.
  revert a pj. induction fuel as [|fuel IH]; intros a pj Ha; simpl; [done|].
  case_match; [|done]. apply IH, insert_in_range; auto using at_in_range.
Qed.

Lemma insert_at_in_range a pl pi : in_range n a → in_range n (Npysort.insert_at v a pl pi).
Proof.
  intros Ha. unfold Npysort.insert_at.
  pose proof (shift_in_range (length a) a (Npysort.key v (Npysort.at_ a pi)) pl pi Ha).
  destruct (Npysort.shift _ _ _ _ _ _) as [a' pj]. simpl in *.
  apply insert_in_range; auto using at_in_range.
Qed.

Lemma insertion_sort_in_range a pl pr :
  in_range n a → in_range n (Npysort.insertion_sort v a pl pr).
Proof.
  unfold Npysort.insertion_sort. generalize (seq (S pl) (pr - pl)). intros l.
  revert a. induction l as [|pi l IH]; intros a Ha; simpl; [done|].
  by apply IH, insert_at_in_range.
Qed.

Lemma sift_in_range fuel a pl m tmp i j :
  in_range n a → (tmp < n)%nat → in_range n (Npysort.sift v fuel a pl m tmp i j).
Proof.
  revert a i j. induction fuel as [|fuel IH]; intros a i j Ha Ht; simpl; [done|].
  repeat case_match; auto using insert_in_range, at_in_range.
Qed.

Lemma aheapsort_in_range a pl m : in_range n a → in_range n (Npysort.aheapsort v a pl m).
Proof.
  intros Ha. unfold Npysort.aheapsort.
  assert (∀ l a, in_range n a →
            in_range n (foldl (λ a l0, Npysort.sift v (length a) a pl m
                                       (Npysort.at_ a (pl + l0 - 1)) l0 (2 * l0)) a l))
    as Hbuild.
  { intros l. induction l as [|x l IH]; intros b Hb; simpl; [done|].
    apply IH, sift_in_range; auto using at_in_range. }
  generalize (Hbuild (reverse (seq 1 (m / 2))) a Ha).
  generalize (foldl (λ a l0, Npysort.sift v (length a) a pl m
                               (Npysort.at_ a (pl + l0 - 1)) l0 (2 * l0)) a
                (reverse (seq 1 (m / 2)))).
  generalize (reverse (seq 2 (m - 1))). clear Hbuild Ha a.
  intros l. induction l as [|x l IH]; intros b Hb; simpl; [done|].
  apply IH, sift_in_range; auto using insert_in_range, at_in_range.
Qed.

Lemma run_in_range fuel a pl pr cdepth stack fresh :
  in_range n a → in_range n (Npysort.run v fuel a pl pr cdepth stack fresh).
Proof.
  revert a pl pr cdepth stack fresh.
  induction fuel as [|fuel IH]; intros a pl pr cdepth stack fresh Ha; simpl; [done|].
  destruct (fresh && (cdepth <? 0)).
  - destruct stack as [|[[pl' pr'] d] stack]; auto using aheapsort_in_range.
  - destruct (Npysort.SMALL_QUICKSORT <? pr - pl)%nat.
    + pose proof (partition_in_range a pl pr Ha) as Hp.
      destruct (Npysort.partition v a pl pr) as [a' pi]. simpl in Hp.
      case_match; by apply IH.
    + destruct stack as [|[[pl' pr'] d] stack]; auto using insertion_sort_in_range.
Qed.
End InRange.

Lemma argsort_default_in_range (v : list spec_float) :
  Forall (λ i, (i < length v)%nat) (Npysort.argsort v).
Proof.
  destruct v as [|x v]; [constructor|].
  unfold Npysort.argsort, Npysort.aquicksort_.
  apply run_in_range; [simpl; lia|].
  apply Forall_seq. intros; lia.
Qed.

(** On a well-formed frame the ranking with the default sort returns a
    frame. *)
Lemma process_contacts_default_total (df : DataFrame) :
  well_formed df →
  process_contacts Npysort.argsort df = Ok (ranked Npysort.argsort df).
Proof.
  intros wf. apply process_contacts_ok; [done|].
  pose proof (argsort_default_in_range (argsort_input df)) as H.
  unfold argsort_input in H at 1. by rewrite length_reverse, sort_keys_length in H.
Qed.


(** * The default sort sorts

    [Npysort.argsort] returns a permutation of the positions of its
    argument along which final scores do not decrease. *)

Section ArrayFacts.
Implicit Types (a : list nat) (p q x y : nat).

Lemma at_lookup a p x : a !! p = Some x → Npysort.at_ a p = x.
Proof. unfold Npysort.at_. by intros ->. Qed.

Lemma lookup_at a p : (p < length a)%nat → a !! p = Some (Npysort.at_ a p).
Proof.
  intros Hp. destruct (lookup_lt_is_Some_2 a p Hp) as [x Hx].
  by rewrite (at_lookup a p x Hx).
Qed.

Lemma at_insert_eq a p x : (p < length a)%nat → Npysort.at_ (<[p := x]> a) p = x.
Proof. intros Hp. apply at_lookup. by apply list_lookup_insert_eq. Qed.

Lemma at_insert_ne a p q x : p ≠ q → Npysort.at_ (<[p := x]> a) q = Npysort.at_ a q.
Proof. intros Hpq. unfold Npysort.at_. by rewrite list_lookup_insert_ne. Qed.

Lemma at_ext a a' p : a' !! p = a !! p → Npysort.at_ a' p = Npysort.at_ a p.
Proof. unfold Npysort.at_. by intros ->. Qed.

(** Exchanging two entries of a list rearranges it. *)
Lemma insert_cons_Permutation a q x y :
  a !! q = Some y → y :: <[q := x]> a ≡ₚ x :: a.
Proof.
  revert q. induction a as [|z a IH]; intros [|q] Hq; simplify_eq/=.
  - apply perm_swap.
  - rewrite perm_swap, (IH q Hq). apply perm_swap.
Qed.

Lemma exchange_Permutation a p q x y :
  a !! p = Some x → a !! q = Some y → <[p := y]> (<[q := x]> a) ≡ₚ a.
Proof.
  revert p q. induction a as [|z a IH]; intros [|p] [|q] Hp Hq; simplify_eq/=.
  - done.
  - by apply insert_cons_Permutation.
  - by apply insert_cons_Permutation.
  - by rewrite (IH p q Hp Hq).
Qed.

Lemma swap_Permutation a p q :
  (p < length a)%nat → (q < length a)%nat → Npysort.swap a p q ≡ₚ a.
Proof.
  intros Hp Hq. unfold Npysort.swap.
  apply exchange_Permutation; by apply lookup_at.
Qed.

Lemma swap_length a p q : length (Npysort.swap a p q) = length a.
Proof. unfold Npysort.swap. by rewrite !length_insert. Qed.

Lemma at_swap_l a p q :
  (p < length a)%nat → Npysort.at_ (Npysort.swap a p q) p = Npysort.at_ a q.
Proof.
  intros Hp. unfold Npysort.swap.
  apply at_insert_eq. by rewrite length_insert.
Qed.

Lemma at_swap_r a p q :
  (q < length a)%nat → Npysort.at_ (Npysort.swap a p q) q = Npysort.at_ a p.
Proof.
  intros Hq. unfold Npysort.swap.
  destruct (decide (p = q)) as [->|Hne].
  - apply at_insert_eq. by rewrite length_insert.
  - rewrite at_insert_ne by done. by apply at_insert_eq.
Qed.

Lemma at_swap_other a p q r :
  r ≠ p → r ≠ q → Npysort.at_ (Npysort.swap a p q) r = Npysort.at_ a r.
Proof.
  intros Hp Hq. unfold Npysort.swap. by rewrite !at_insert_ne.
Qed.

Lemma lookup_swap_other a p q r :
  r ≠ p → r ≠ q → Npysort.swap a p q !! r = a !! r.
Proof.
  intros Hp Hq. unfold Npysort.swap. by rewrite !list_lookup_insert_ne.
Qed.
End ArrayFacts.

Section NpysortSorts.
Local Open Scope nat_scope.
Variable v : list spec_float.
Hypothesis scores : Forall is_score v.
Hypothesis nonempty : 0 < length v.
Implicit Types (a : list nat) (p q x y : nat).

Lemma LT_points x y :
  x < length v → y < length v →
  Npysort.LT (Npysort.key v x) (Npysort.key v y)
  = bool_decide (points_at v x < points_at v y)%Z.
Proof.
  intros Hx Hy.
  destruct (is_score_lt _ _ (key_at_is_score v scores x Hx)
              (key_at_is_score v scores y Hy)) as [H _].
  exact H.
Qed.

Lemma LT_at a b p q :
  in_range (length v) a → in_range (length v) b →
  Npysort.LT (Npysort.key v (Npysort.at_ a p)) (Npysort.key v (Npysort.at_ b q))
  = bool_decide (ptat v a p < ptat v b q)%Z.
Proof. intros Ha Hb. apply LT_points; by apply at_in_range. Qed.

Lemma Permutation_in_range a b :
  a ≡ₚ b → in_range (length v) b → in_range (length v) a.
Proof. unfold in_range. by intros ->. Qed.

(** ** Insertion sort *)

Section Shift.
Variables (a0 : list nat) (pl pi x : nat).
Hypothesis x_range : x < length v.

Lemma shift_spec fuel a pj :
  pj - pl < fuel →
  shifting v a0 pl pi x a pj →
  ∃ a' pj',
    Npysort.shift v fuel a (Npysort.key v x) pl pj = (a', pj')
    ∧ shifting v a0 pl pi x a' pj'
    ∧ (pj' = pl ∨ (ptat v a' (pj' - 1) ≤ points_at v x)%Z).
Proof.
  revert a pj. induction fuel as [|fuel IH]; intros a pj Hfuel Hs; [lia|].
  simpl.
  pose proof Hs as [(Hl & Hr & Hpi) Hlen Hrange Hperm Hbelow Habove Hmoved].
  assert (Npysort.LT (Npysort.key v x) (Npysort.key v (Npysort.at_ a (pj - 1)))
          = bool_decide (points_at v x < ptat v a (pj - 1))%Z) as HLT.
  { unfold ptat. apply LT_points; [done|by apply at_in_range]. }
  rewrite HLT.
  destruct (decide (pl < pj)) as [Hlt|Hge].
  2:{ rewrite (proj2 (Nat.ltb_ge pl pj)) by lia. simpl.
      exists a, pj. split; [done|]. split; [done|]. left. lia. }
  rewrite (proj2 (Nat.ltb_lt pl pj)) by lia. simpl.
  destruct (decide (points_at v x < ptat v a (pj - 1))%Z) as [Hx|Hx].
  2:{ rewrite bool_decide_eq_false_2 by done.
      exists a, pj. split; [done|]. split; [done|]. right. lia. }
  rewrite bool_decide_eq_true_2 by done.
  apply IH; [lia|].
  assert (Npysort.at_ a (pj - 1) = Npysort.at_ a0 (pj - 1)) as Hprev
    by (apply at_ext, Hbelow; lia).
  split.
  - lia.
  - by rewrite length_insert.
  - apply insert_in_range; [done|by apply at_in_range].
  - rewrite <- Hperm.
    (* the free position moves down by one *)
    rewrite <- (exchange_Permutation (<[pj := x]> a) (pj - 1) pj
                  (Npysort.at_ a (pj - 1)) x).
    + rewrite list_insert_insert_eq.
      rewrite list_insert_insert_ne by lia. done.
    + rewrite list_lookup_insert_ne by lia. apply lookup_at. lia.
    + apply list_lookup_insert_eq. lia.
  - intros p Hp. rewrite list_lookup_insert_ne by lia. apply Hbelow. lia.
  - intros p Hp. rewrite list_lookup_insert_ne by lia. by apply Habove.
  - intros p Hp1 Hp2. destruct (decide (p = pj)) as [->|Hne].
    + rewrite at_insert_eq by lia. split; [done|].
      unfold ptat in *. by rewrite <- Hprev.
    + rewrite at_insert_ne by lia. apply Hmoved; lia.
Qed.
End Shift.

Lemma rearranged_refl a l r : rearranged a a l r.
Proof. by split. Qed.

Lemma rearranged_trans a b c l r l' r' :
  l' ≤ l → r ≤ r' →
  rearranged a b l r → rearranged b c l' r' → rearranged a c l' r'.
Proof.
  intros Hl Hr [P1 F1] [P2 F2]. split; [by rewrite P2|].
  intros p Hp. rewrite F2 by done. apply F1. lia.
Qed.

Lemma rearranged_widen a b l r l' r' :
  l' ≤ l → r ≤ r' → rearranged a b l r → rearranged a b l' r'.
Proof.
  intros Hl Hr [P F]. split; [done|]. intros p Hp. apply F. lia.
Qed.

Lemma rearranged_length a b l r : rearranged a b l r → length b = length a.
Proof. by intros [-> _]. Qed.

Lemma rearranged_in_range a b l r :
  rearranged a b l r → in_range (length v) a → in_range (length v) b.
Proof. intros [P _]. by apply Permutation_in_range. Qed.

Lemma rearranged_at a b l r p :
  rearranged a b l r → p < l ∨ r < p → Npysort.at_ b p = Npysort.at_ a p.
Proof. intros [_ F] Hp. by apply at_ext, F. Qed.

Lemma insert_at_spec a pl pi :
  pl ≤ pi → pi < length a → in_range (length v) a →
  seg_sorted v a pl pi →
  rearranged a (Npysort.insert_at v a pl pi) pl pi
  ∧ seg_sorted v (Npysort.insert_at v a pl pi) pl (S pi).
Proof.
  intros Hl Hpi Hrange Hsorted. unfold Npysort.insert_at.
  set (x := Npysort.at_ a pi).
  assert (x < length v) as Hx by by apply at_in_range.
  destruct (shift_spec a pl pi x Hx (length a) a pi) as (a' & pj & -> & Hs & Hstop);
    [lia| |].
  { split; try done.
    - by rewrite list_insert_id by by apply lookup_at.
    - intros p ??. lia. }
  destruct Hs as [(Hl' & Hr' & _) Hlen _ Hperm Hbelow Habove Hmoved].
  assert (∀ p, p < pj → Npysort.at_ (<[pj := x]> a') p = Npysort.at_ a p) as A1.
  { intros p Hp. rewrite at_insert_ne by lia. by apply at_ext, Hbelow. }
  assert (Npysort.at_ (<[pj := x]> a') pj = x) as A2
    by (apply at_insert_eq; lia).
  assert (∀ p, pj < p → p ≤ pi →
            Npysort.at_ (<[pj := x]> a') p = Npysort.at_ a (p - 1)
            ∧ (points_at v x < ptat v a (p - 1))%Z) as A3.
  { intros p Hp1 Hp2. rewrite at_insert_ne by lia. by apply Hmoved. }
  split.
  - split; [done|]. intros p Hp. rewrite list_lookup_insert_ne by lia.
    destruct Hp; [apply Hbelow|apply Habove]; lia.
  - intros p q Hp Hpq Hq. unfold ptat.
    destruct (decide (p < pj)), (decide (q < pj)),
             (decide (p = pj)), (decide (q = pj)); try lia; subst.
    + rewrite !A1 by lia. apply Hsorted; lia.
    + rewrite A1, A2 by lia.
      destruct Hstop as [->|Hstop]; [lia|].
      unfold ptat in Hstop.
      rewrite (at_ext a a' (pj - 1)) in Hstop by (apply Hbelow; lia).
      etrans; [|exact Hstop]. apply Hsorted; lia.
    + rewrite A1 by lia. destruct (A3 q) as [-> _]; [lia..|].
      apply Hsorted; lia.
    + done.
    + rewrite A2. destruct (A3 q) as [-> Hlt]; [lia..|].
      unfold ptat in Hlt. lia.
    + destruct (A3 p) as [-> _]; [lia..|]. destruct (A3 q) as [-> _]; [lia..|].
      apply Hsorted; lia.
Qed.

Lemma insertion_loop_spec pl m :
  ∀ k a, pl ≤ k → k + m < length a → in_range (length v) a →
    seg_sorted v a pl (S k) →
    let a' := foldl (λ a pi, Npysort.insert_at v a pl pi) a (seq (S k) m) in
    rearranged a a' pl (k + m) ∧ seg_sorted v a' pl (S (k + m)).
Proof.
  induction m as [|m IH]; intros k a Hk Hlen Hrange Hsorted; simpl.
  - rewrite Nat.add_0_r. split; [apply rearranged_refl|done].
  - destruct (insert_at_spec a pl (S k)) as [R1 S1]; [lia|lia|done|done|].
    destruct (IH (S k) (Npysort.insert_at v a pl (S k))) as [R2 S2];
      [lia| |by eapply rearranged_in_range|done|].
    { rewrite (rearranged_length _ _ _ _ R1). lia. }
    replace (k + S m) with (S k + m) by lia.
    split; [|done].
    eapply rearranged_trans; [| |exact R1|exact R2]; lia.
Qed.

Lemma insertion_sort_spec a pl pr :
  pl ≤ pr → pr < length a → in_range (length v) a →
  rearranged a (Npysort.insertion_sort v a pl pr) pl pr
  ∧ seg_sorted v (Npysort.insertion_sort v a pl pr) pl (S pr).
Proof.
  intros Hl Hr Hrange. unfold Npysort.insertion_sort.
  destruct (insertion_loop_spec pl (pr - pl) pl a) as [R S]; [lia|lia|done| |].
  { intros p q ???. assert (p = q) as -> by lia. done. }
  replace (pl + (pr - pl)) with pr in * by lia. done.
Qed.

(** ** Partition *)

Section Scan.
Variables (a : list nat) (X : nat).
Hypothesis a_range : in_range (length v) a.
Hypothesis X_range : X < length v.

Lemma scan_up_spec fuel pi s :
  pi < s → s - pi ≤ fuel → (points_at v X ≤ ptat v a s)%Z →
  let pi' := Npysort.scan_up v fuel a (Npysort.key v X) pi in
  pi < pi' ∧ pi' ≤ s
  ∧ (∀ p, pi < p → p < pi' → (ptat v a p < points_at v X)%Z)
  ∧ (points_at v X ≤ ptat v a pi')%Z.
Proof.
  revert pi. induction fuel as [|fuel IH]; intros pi Hs Hfuel Hstop; [lia|].
  simpl.
  assert (Npysort.LT (Npysort.key v (Npysort.at_ a (S pi))) (Npysort.key v X)
          = bool_decide (ptat v a (S pi) < points_at v X)%Z) as ->.
  { unfold ptat. apply LT_points; [by apply at_in_range|done]. }
  case_bool_decide as Hlt.
  - assert (S pi < s) as Hs'.
    { destruct (decide (S pi = s)) as [E|]; [|lia]. rewrite E in Hlt. lia. }
    destruct (IH (S pi)) as (H1 & H2 & H3 & H4); [lia..|done|].
    split; [lia|]. split; [done|]. split; [|done].
    intros p Hp1 Hp2. destruct (decide (p = S pi)) as [->|]; [done|].
    apply H3; lia.
  - split; [lia|]. split; [lia|]. split; [intros; lia|lia].
Qed.

Lemma scan_down_spec fuel pj s :
  s < pj → pj - s ≤ fuel → (ptat v a s ≤ points_at v X)%Z →
  let pj' := Npysort.scan_down v fuel a (Npysort.key v X) pj in
  pj' < pj ∧ s ≤ pj'
  ∧ (∀ q, pj' < q → q < pj → (points_at v X < ptat v a q)%Z)
  ∧ (ptat v a pj' ≤ points_at v X)%Z.
Proof.
  revert pj. induction fuel as [|fuel IH]; intros pj Hs Hfuel Hstop; [lia|].
  simpl.
  assert (Npysort.LT (Npysort.key v X) (Npysort.key v (Npysort.at_ a (pred pj)))
          = bool_decide (points_at v X < ptat v a (pred pj))%Z) as ->.
  { unfold ptat. apply LT_points; [done|by apply at_in_range]. }
  case_bool_decide as Hlt.
  - assert (s < pred pj) as Hs'.
    { destruct (decide (pred pj = s)) as [E|]; [|lia]. rewrite E in Hlt. lia. }
    destruct (IH (pred pj)) as (H1 & H2 & H3 & H4); [lia..|done|].
    split; [lia|]. split; [done|]. split; [|done].
    intros q Hq1 Hq2. destruct (decide (q = pred pj)) as [->|]; [done|].
    apply H3; lia.
  - split; [lia|]. split; [lia|]. split; [intros; lia|lia].
Qed.
End Scan.

Section Hoare.
Variables (a0 : list nat) (pl pr X : nat).
Hypothesis a0_range : in_range (length v) a0.
Hypothesis X_range : X < length v.

Lemma hoare_spec fuel a pi pj :
  pj - pi ≤ fuel →
  partitioning v a0 pl pr X a pi pj →
  ∃ a' pi',
    Npysort.hoare v fuel a (Npysort.key v X) pi pj = (a', pi')
    ∧ rearranged a0 a' pl pr
    ∧ Npysort.at_ a' (pr - 1) = X
    ∧ pl < pi' ∧ pi' ≤ pr - 1
    ∧ (∀ p, pl ≤ p → p < pi' → (ptat v a' p ≤ points_at v X)%Z)
    ∧ (∀ q, pi' ≤ q → q ≤ pr → (points_at v X ≤ ptat v a' q)%Z).
Proof.
  revert a pi pj. induction fuel as [|fuel IH]; intros a pi pj Hfuel Hinv.
  { destruct Hinv as [(? & ? & ? & ?) _ _ _ _]. lia. }
  pose proof Hinv as [(B1 & B2 & B3 & B4) Hre Hpiv Hlow Hhigh].
  assert (in_range (length v) a) as Ha by by eapply rearranged_in_range.
  assert (length a = length a0) as Hlen by by eapply rearranged_length.
  simpl.
  destruct (scan_up_spec a X Ha X_range (length a) pi pj)
    as (U1 & U2 & U3 & U4); [lia|lia|apply Hhigh; lia|].
  destruct (scan_down_spec a X Ha X_range (length a) pj pi)
    as (D1 & D2 & D3 & D4); [lia|lia|apply Hlow; lia|].
  set (pi' := Npysort.scan_up v (length a) a (Npysort.key v X) pi) in *.
  set (pj' := Npysort.scan_down v (length a) a (Npysort.key v X) pj) in *.
  destruct (decide (pj' ≤ pi')) as [Hstop|Hgo].
  - rewrite (proj2 (Nat.leb_le pj' pi')) by done.
    exists a, pi'. split; [done|]. split; [done|]. split; [done|].
    split; [lia|]. split; [lia|]. split.
    + intros p Hp1 Hp2. destruct (decide (p ≤ pi)); [by apply Hlow|].
      apply Z.lt_le_incl, U3; lia.
    + intros q Hq1 Hq2. destruct (decide (pj ≤ q)); [by apply Hhigh|].
      destruct (decide (q = pi')) as [->|]; [done|].
      apply Z.lt_le_incl, D3; lia.
  - rewrite (proj2 (Nat.leb_gt pj' pi')) by lia.
    apply IH; [lia|].
    split.
    + lia.
    + eapply rearranged_trans; [| |exact Hre|]; [reflexivity..|].
      split; [apply swap_Permutation; lia|].
      intros p Hp. apply lookup_swap_other; lia.
    + rewrite at_swap_other by lia. done.
    + intros p Hp1 Hp2. unfold ptat.
      destruct (decide (p = pi')) as [->|].
      * rewrite at_swap_l by lia. exact D4.
      * rewrite at_swap_other by lia.
        destruct (decide (p ≤ pi)); [by apply Hlow|].
        apply Z.lt_le_incl, U3; lia.
    + intros q Hq1 Hq2. unfold ptat.
      destruct (decide (q = pj')) as [->|].
      * rewrite at_swap_r by lia. exact U4.
      * rewrite at_swap_other by lia.
        destruct (decide (pj ≤ q)); [by apply Hhigh|].
        apply Z.lt_le_incl, D3; lia.
Qed.
End Hoare.

(** [if (v[tosort[p]] < v[tosort[q]]) INTP_SWAP]: afterwards position
    [p] holds the entry with more points. *)
Lemma order_pair a p q :
  p < length a → q < length a → in_range (length v) a →
  let a' := if Npysort.LT (Npysort.key v (Npysort.at_ a p))
                          (Npysort.key v (Npysort.at_ a q))
            then Npysort.swap a p q else a in
  a' ≡ₚ a
  ∧ (∀ r, r ≠ p → r ≠ q → a' !! r = a !! r)
  ∧ ptat v a' p = Z.max (ptat v a p) (ptat v a q)
  ∧ ptat v a' q = Z.min (ptat v a p) (ptat v a q).
Proof.
  intros Hp Hq Ha. rewrite LT_at by done. simpl.
  case_bool_decide as Hlt.
  - split; [by apply swap_Permutation|].
    split; [intros; by apply lookup_swap_other|].
    unfold ptat in *. rewrite at_swap_l, at_swap_r by done. lia.
  - split; [done|]. split; [done|]. lia.
Qed.

Lemma partition_spec a pl pr :
  pl + 2 ≤ pr → pr < length a → in_range (length v) a →
  ∃ a' pi,
    Npysort.partition v a pl pr = (a', pi)
    ∧ rearranged a a' pl pr
    ∧ pl < pi ∧ pi < pr
    ∧ (∀ p, pl ≤ p → p < pi → (ptat v a' p ≤ ptat v a' pi)%Z)
    ∧ (∀ q, pi < q → q ≤ pr → (ptat v a' pi ≤ ptat v a' q)%Z).
Proof.
  intros Hl Hr Ha. unfold Npysort.partition.
  set (pm := pl + (pr - pl) / 2).
  assert (pl < pm ∧ pm < pr) as [Hm1 Hm2].
  { subst pm. pose proof (Nat.div_mod_eq (pr - pl) 2).
    pose proof (Nat.mod_upper_bound (pr - pl) 2). lia. }
  (* median of three *)
  destruct (order_pair a pm pl) as (P1 & F1 & X1 & N1); [lia..|done|].
  set (a1 := if Npysort.LT _ _ then Npysort.swap a pm pl else a) in *.
  assert (in_range (length v) a1) as Ha1 by by eapply Permutation_in_range.
  assert (length a1 = length a) as L1 by by rewrite P1.
  destruct (order_pair a1 pr pm) as (P2 & F2 & X2 & N2); [lia..|done|].
  set (a2 := if Npysort.LT _ _ then Npysort.swap a1 pr pm else a1) in *.
  assert (in_range (length v) a2) as Ha2 by by eapply Permutation_in_range.
  assert (length a2 = length a) as L2 by by rewrite P2.
  destruct (order_pair a2 pm pl) as (P3 & F3 & X3 & N3); [lia..|done|].
  set (a3 := if Npysort.LT _ _ then Npysort.swap a2 pm pl else a2) in *.
  assert (in_range (length v) a3) as Ha3 by by eapply Permutation_in_range.
  assert (length a3 = length a) as L3 by by rewrite P3.
  assert (ptat v a2 pl = ptat v a1 pl) as E1
    by (unfold ptat; f_equal; apply at_ext, F2; lia).
  assert (ptat v a3 pr = ptat v a2 pr) as E2
    by (unfold ptat; f_equal; apply at_ext, F3; lia).
  assert (ptat v a3 pl ≤ ptat v a3 pm ∧ ptat v a3 pm ≤ ptat v a3 pr)%Z as [O1 O2]
    by lia.
  assert (rearranged a a3 pl pr) as R3.
  { split; [by rewrite P3, P2, P1|].
    intros p Hp. rewrite F3, F2, F1 by lia. done. }
  (* the pivot goes to position [pr - 1] *)
  set (X := Npysort.at_ a3 pm).
  assert (X < length v) as HX by by apply at_in_range.
  set (a4 := Npysort.swap a3 pm (pr - 1)).
  assert (partitioning v a pl pr X a4 pl (pr - 1)) as Hinv.
  { split.
    - lia.
    - eapply rearranged_trans; [| |exact R3|]; [reflexivity..|].
      split; [apply swap_Permutation; lia|].
      intros p Hp. apply lookup_swap_other; lia.
    - subst a4. rewrite at_swap_r by lia. done.
    - intros p Hp1 Hp2. assert (p = pl) as -> by lia.
      unfold ptat. subst a4. rewrite at_swap_other by lia. exact O1.
    - intros q Hq1 Hq2. unfold ptat. subst a4.
      destruct (decide (q = pr - 1)) as [->|].
      + rewrite at_swap_r by lia. done.
      + rewrite at_swap_other by lia. assert (q = pr) as -> by lia. exact O2. }
  destruct (hoare_spec a pl pr X Ha HX (length a4) a4 pl (pr - 1))
    as (a5 & pi & -> & R5 & Hpiv & B1 & B2 & Hlow & Hhigh).
  { subst a4. rewrite swap_length. lia. }
  { done. }
  assert (length a5 = length a) as L5 by by eapply rearranged_length.
  exists (Npysort.swap a5 pi (pr - 1)), pi.
  split; [done|]. split.
  { eapply rearranged_trans; [| |exact R5|]; [reflexivity..|].
    split; [apply swap_Permutation; lia|].
    intros p Hp. apply lookup_swap_other; lia. }
  split; [done|]. split; [lia|].
  assert (ptat v (Npysort.swap a5 pi (pr - 1)) pi = points_at v X) as Epi.
  { unfold ptat. rewrite at_swap_l by lia. by rewrite Hpiv. }
  rewrite Epi. split.
  - intros p Hp1 Hp2. unfold ptat. rewrite at_swap_other by lia. by apply Hlow.
  - intros q Hq1 Hq2. unfold ptat.
    destruct (decide (q = pr - 1)) as [->|].
    + rewrite at_swap_r by lia. apply Hhigh; lia.
    + rewrite at_swap_other by lia. apply Hhigh; lia.
Qed.

(** ** Heapsort *)

Section Sift.
Variables (pl k i0 T : nat).

Lemma hat_insert_eq a h x :
  pl + h - 1 < length a → hat v pl (<[pl + h - 1 := x]> a) h = points_at v x.
Proof. intros. unfold hat, ptat. by rewrite at_insert_eq. Qed.

Lemma hat_insert_ne a h h' x :
  1 ≤ h → 1 ≤ h' → h ≠ h' →
  hat v pl (<[pl + h - 1 := x]> a) h' = hat v pl a h'.
Proof. intros. unfold hat, ptat. by rewrite at_insert_ne by lia. Qed.

Lemma sift_spec fuel a i j :
  j = 2 * i → k + 1 - i ≤ fuel →
  sifting v pl k i0 T a i →
  let a' := Npysort.sift v fuel a pl k T i j in
  <[pl + i - 1 := T]> a ≡ₚ a'
  ∧ (∀ p, p < pl + i - 1 ∨ pl + k - 1 < p → a' !! p = a !! p)
  ∧ (∀ x, i0 ≤ x → x ≤ k → dom v pl a' k x)
  ∧ (∀ B, (points_at v T ≤ B)%Z →
          (∀ x, i ≤ x → x ≤ k → (hat v pl a x ≤ B)%Z) →
          ∀ x, i ≤ x → x ≤ k → (hat v pl a' x ≤ B)%Z).
Proof.
  revert a i j. induction fuel as [|fuel IH]; intros a i j Hj Hfuel Hinv.
  { destruct Hinv as [(? & ? & ? & ?) _ _ _]. lia. }
  pose proof Hinv as [(B1 & B2 & B3 & B4) [Ha HT] Hbelow Htop].
  (* placing [T] at the free node, when its children hold no more *)
  assert ((∀ c, c = 2 * i ∨ c = 2 * i + 1 → c ≤ k →
             (hat v pl a c ≤ points_at v T)%Z) →
          let a' := <[pl + i - 1 := T]> a in
          <[pl + i - 1 := T]> a ≡ₚ a'
          ∧ (∀ p, p < pl + i - 1 ∨ pl + k - 1 < p → a' !! p = a !! p)
          ∧ (∀ x, i0 ≤ x → x ≤ k → dom v pl a' k x)
          ∧ (∀ B, (points_at v T ≤ B)%Z →
                  (∀ x, i ≤ x → x ≤ k → (hat v pl a x ≤ B)%Z) →
                  ∀ x, i ≤ x → x ≤ k → (hat v pl a' x ≤ B)%Z)) as Hplace.
  { intros Hch a'. subst a'. split; [done|]. split.
    { intros p Hp. apply list_lookup_insert_ne. lia. }
    split.
    - intros x Hx1 Hx2 c Hc Hck.
      destruct (decide (x = i)) as [->|Hxi].
      + rewrite hat_insert_eq by lia.
        rewrite hat_insert_ne by lia. by apply Hch.
      + rewrite (hat_insert_ne a i x) by lia.
        assert (dom v pl a k x) as Hdom.
        { destruct (decide (x = i0)) as [->|]; [apply Htop; lia|apply Hbelow; lia]. }
        destruct (decide (c = i)) as [->|Hci].
        * rewrite hat_insert_eq by lia.
          destruct Htop as [_ Hlt]; [lia|].
          specialize (Hdom i Hc Hck). lia.
        * rewrite hat_insert_ne by lia. by apply Hdom.
    - intros B HB Hall x Hx1 Hx2.
      destruct (decide (x = i)) as [->|].
      + by rewrite hat_insert_eq by lia.
      + rewrite hat_insert_ne by lia. by apply Hall. }
  simpl.
  destruct (decide (j ≤ k)) as [Hjk|Hjk].
  2:{ rewrite (proj2 (Nat.leb_gt j k)) by lia.
      apply Hplace. intros c Hc Hck. lia. }
  rewrite (proj2 (Nat.leb_le j k)) by done.
  (* the child with more points *)
  set (j' := if (j <? k) && Npysort.LT (Npysort.key v (Npysort.at_ a (pl + j - 1)))
                              (Npysort.key v (Npysort.at_ a (pl + (j + 1) - 1)))
             then S j else j).
  assert ((j' = 2 * i ∨ j' = 2 * i + 1) ∧ j' ≤ k
          ∧ ∀ c, c = 2 * i ∨ c = 2 * i + 1 → c ≤ k →
                 (hat v pl a c ≤ hat v pl a j')%Z) as (Hj' & Hj'k & Hmax).
  { subst j'. rewrite LT_at by done.
    change (ptat v a (pl + j - 1)) with (hat v pl a j).
    change (ptat v a (pl + (j + 1) - 1)) with (hat v pl a (j + 1)).
    assert (∀ c, c = 2 * i ∨ c = 2 * i + 1 → c = j ∨ c = j + 1) as Hcj
      by (intros; lia).
    destruct (decide (j < k)) as [Hlt|Hge].
    - rewrite (proj2 (Nat.ltb_lt j k)) by done. rewrite andb_true_l.
      case_bool_decide as Hcmp.
      + split; [lia|]. split; [lia|].
        replace (S j) with (j + 1) by lia.
        intros c Hc _. destruct (Hcj c Hc) as [-> | ->]; lia.
      + split; [lia|]. split; [lia|].
        intros c Hc _. destruct (Hcj c Hc) as [-> | ->]; lia.
    - rewrite (proj2 (Nat.ltb_ge j k)) by lia. rewrite andb_false_l.
      split; [lia|]. split; [lia|].
      intros c Hc Hck. destruct (Hcj c Hc) as [-> | ->]; lia. }
  assert (Npysort.LT (Npysort.key v T) (Npysort.key v (Npysort.at_ a (pl + j' - 1)))
          = bool_decide (points_at v T < hat v pl a j')%Z) as ->.
  { unfold hat, ptat. apply LT_points; [done|by apply at_in_range]. }
  case_bool_decide as Hcmp.
  2:{ apply Hplace. intros c Hc Hck. specialize (Hmax c Hc Hck). lia. }
  (* the child moves up, the free node moves down *)
  set (y := Npysort.at_ a (pl + j' - 1)).
  set (a1 := <[pl + i - 1 := y]> a).
  assert (sifting v pl k i0 T a1 j') as Hinv1.
  { assert (∀ h, 1 ≤ h → h ≠ i → hat v pl a1 h = hat v pl a h) as Hne
      by (intros; subst a1; by rewrite hat_insert_ne by lia).
    assert (hat v pl a1 i = hat v pl a j') as Heq
      by (subst a1; by rewrite hat_insert_eq by lia).
    assert (i0 < i → ∀ c, c = 2 * i ∨ c = 2 * i + 1 → c ≤ k →
              (hat v pl a c ≤ hat v pl a i)%Z) as Hstale.
    { intros Hi. by apply Hbelow. }
    assert (∀ x, i0 ≤ x → x ≤ k → (x = i0 → i0 < i ∨ i = i0) →
              dom v pl a1 k x) as Hdom1.
    { intros x Hx1 Hx2 _ c Hc Hck.
      destruct (decide (x = i)) as [->|Hxi].
      - rewrite Heq, Hne by lia. by apply Hmax.
      - rewrite (Hne x) by lia.
        assert (dom v pl a k x) as Hdom.
        { destruct (decide (x = i0)) as [->|]; [apply Htop; lia|apply Hbelow; lia]. }
        destruct (decide (c = i)) as [->|Hci].
        + rewrite Heq. specialize (Hdom i Hc Hck).
          specialize (Hstale ltac:(lia) j' Hj' Hj'k). lia.
        + rewrite Hne by lia. by apply Hdom. }
    split.
    - subst a1. rewrite length_insert. lia.
    - split; [|done]. subst a1. apply insert_in_range; [done|].
      by apply at_in_range.
    - intros x Hx1 Hx2. apply Hdom1; lia.
    - intros _. split; [apply Hdom1; lia|].
      rewrite Hne by lia. done. }
  destruct (IH a1 j' (j' + j')) as (P & F & D & Bd); [lia|lia|done|].
  split; [|split; [|split]].
  - rewrite <- P. subst a1.
    (* the virtual array: entries of nodes [i] and [j'] exchanged *)
    rewrite <- (exchange_Permutation (<[pl + i - 1 := T]> a)
                  (pl + i - 1) (pl + j' - 1) T y).
    + rewrite list_insert_insert_ne by lia.
      rewrite list_insert_insert_eq. done.
    + apply list_lookup_insert_eq. lia.
    + rewrite list_lookup_insert_ne by lia. apply lookup_at. lia.
  - intros p Hp. rewrite F by lia. subst a1.
    apply list_lookup_insert_ne. lia.
  - done.
  - intros B HB Hall x Hx1 Hx2.
    destruct (decide (j' ≤ x)) as [Hjx|Hjx].
    + apply Bd; [done| |done..].
      intros x' Hx1' Hx2'. subst a1. rewrite hat_insert_ne by lia.
      apply Hall; lia.
    + unfold hat, ptat. rewrite (at_ext a1) by (apply F; lia).
      destruct (decide (x = i)) as [->|].
      * subst a1. rewrite at_insert_eq by lia. apply (Hall j'); lia.
      * subst a1. rewrite at_insert_ne by lia. apply Hall; lia.
Qed.
End Sift.

Lemma reverse_seq_S s t : reverse (seq s (S t)) = (s + t) :: reverse (seq s t).
Proof. by rewrite seq_S, reverse_snoc. Qed.

Section Heap.
Variables (pl n : nat).

(** The root of a heap holds the most points. *)
Lemma heap_root_max a h :
  (∀ x, 1 ≤ x → x ≤ h → dom v pl a h x) →
  ∀ x, 1 ≤ x → x ≤ h → (hat v pl a x ≤ hat v pl a 1)%Z.
Proof.
  intros Hheap x. induction x as [x IH] using lt_wf_ind. intros Hx1 Hx2.
  destruct (decide (x = 1)) as [->|Hne]; [done|].
  assert (x = 2 * (x / 2) ∨ x = 2 * (x / 2) + 1) as Hc.
  { pose proof (Nat.div_mod_eq x 2). pose proof (Nat.mod_upper_bound x 2). lia. }
  assert (1 ≤ x / 2 ∧ x / 2 < x) as [Hp1 Hp2].
  { pose proof (Nat.div_mod_eq x 2). pose proof (Nat.mod_upper_bound x 2). lia. }
  etrans; [apply (Hheap (x / 2)); [lia|lia|exact Hc|done]|].
  apply IH; lia.
Qed.

Lemma build_heap_spec m :
  ∀ a, m ≤ n → pl + n ≤ length a → in_range (length v) a →
    (∀ x, m < x → x ≤ n → dom v pl a n x) →
    let a' := foldl (λ a l, Npysort.sift v (length a) a pl n
                              (Npysort.at_ a (pl + l - 1)) l (2 * l))
                    a (reverse (seq 1 m)) in
    rearranged a a' pl (pl + n - 1)
    ∧ (∀ x, 1 ≤ x → x ≤ n → dom v pl a' n x).
Proof.
  induction m as [|m IH]; intros a Hm Hlen Ha Hheap.
  { simpl. split; [apply rearranged_refl|]. intros x ??. apply Hheap; lia. }
  rewrite reverse_seq_S. simpl.
  set (T := Npysort.at_ a (pl + S m - 1)).
  destruct (sift_spec pl n (S m) T (length a) a (S m) (2 * S m))
    as (P & F & D & _); [done|lia| |].
  { split; [lia| |done|lia].
    split; [done|]. by apply at_in_range. }
  rewrite list_insert_id in P by (apply lookup_at; lia).
  set (a1 := Npysort.sift v (length a) a pl n T (S m) (2 * S m)) in *.
  assert (rearranged a a1 pl (pl + n - 1)) as R1.
  { split; [done|]. intros p Hp. apply F. lia. }
  destruct (IH a1) as [R2 D2]; [lia| |by eapply rearranged_in_range| |].
  { rewrite (rearranged_length _ _ _ _ R1). lia. }
  { intros x Hx1 Hx2. apply D; lia. }
  split; [|done].
  eapply rearranged_trans; [| |exact R1|exact R2]; lia.
Qed.

Lemma extract_spec t :
  ∀ a, t + 1 ≤ n → pl + n ≤ length a → in_range (length v) a →
    (∀ x, 1 ≤ x → x ≤ t + 1 → dom v pl a (t + 1) x) →
    seg_sorted v a (pl + (t + 1)) (pl + n) →
    (∀ x y, 1 ≤ x → x ≤ t + 1 → t + 1 < y → y ≤ n →
            (hat v pl a x ≤ hat v pl a y)%Z) →
    let a' := foldl (λ a m,
                       let tmp := Npysort.at_ a (pl + m - 1) in
                       let a := <[pl + m - 1 := Npysort.at_ a pl]> a in
                       Npysort.sift v (length a) a pl (m - 1) tmp 1 2)
                    a (reverse (seq 2 t)) in
    rearranged a a' pl (pl + n - 1) ∧ seg_sorted v a' pl (pl + n).
Proof.
  induction t as [|t IH]; intros a Ht Hlen Ha Hheap Hsuffix Hcross.
  { simpl. split; [apply rearranged_refl|].
    intros p q Hp Hpq Hq.
    destruct (decide (p = q)) as [->|]; [done|].
    destruct (decide (p = pl)) as [->|].
    - specialize (Hcross 1 (q - pl + 1)). unfold hat in Hcross.
      replace (pl + 1 - 1) with pl in Hcross by lia.
      replace (pl + (q - pl + 1) - 1) with q in Hcross by lia.
      apply Hcross; lia.
    - apply Hsuffix; lia. }
  rewrite reverse_seq_S. simpl.
  set (m := 2 + t).
  assert (m = t + 1 + 1) as Hm by (subst m; lia).
  set (T := Npysort.at_ a (pl + m - 1)).
  set (a1 := <[pl + m - 1 := Npysort.at_ a pl]> a).
  assert (length a1 = length a) as L1 by (subst a1; by rewrite length_insert).
  assert (in_range (length v) a1) as Ha1.
  { subst a1. apply insert_in_range; [done|]. by apply at_in_range. }
  assert (∀ h, 1 ≤ h → h ≠ m → hat v pl a1 h = hat v pl a h) as Hne.
  { intros h ??. unfold hat, ptat. subst a1. by rewrite at_insert_ne by lia. }
  assert (hat v pl a1 m = hat v pl a 1) as Heq.
  { unfold hat, ptat. subst a1. rewrite at_insert_eq by lia.
    by replace (pl + 1 - 1) with pl by lia. }
  assert (∀ x, 1 ≤ x → x ≤ m → (hat v pl a x ≤ hat v pl a 1)%Z) as Hroot.
  { intros x ??. apply (heap_root_max a (t + 1 + 1)); [|lia..].
    intros x' ??. rewrite <- Hm. replace m with (S t + 1) by lia. apply Hheap; lia. }
  destruct (sift_spec pl (m - 1) 1 T (length a1) a1 1 2)
    as (P & F & D & Bd); [done|lia| |].
  { split; [lia| | |intros; lia].
    - split; [done|]. by apply at_in_range.
    - intros x Hx1 Hx2 c Hc Hck. rewrite !Hne by lia.
      apply (Hheap x); [lia..|done|lia]. }
  set (a2 := Npysort.sift v (length a1) a1 pl (m - 1) T 1 2) in *.
  assert (a2 ≡ₚ a) as P2.
  { rewrite <- P. subst a1 T.
    replace (pl + 1 - 1) with pl by lia.
    apply exchange_Permutation; apply lookup_at; lia. }
  assert (rearranged a a2 pl (pl + n - 1)) as R2.
  { split; [done|]. intros p Hp. rewrite F by lia. subst a1.
    apply list_lookup_insert_ne. lia. }
  assert (∀ y, m ≤ y → hat v pl a2 y = hat v pl a1 y) as Hhigh.
  { intros y Hy. unfold hat, ptat. f_equal. apply at_ext, F. lia. }
  destruct (IH a2) as [R3 S3]; [lia| |by eapply rearranged_in_range| | | |].
  { rewrite (rearranged_length _ _ _ _ R2). lia. }
  { intros x Hx1 Hx2. replace (t + 1) with (m - 1) by lia. apply D; lia. }
  { intros p q Hp Hpq Hq.
    destruct (decide (p = q)) as [->|]; [done|].
    change (hat v pl a2 (p - pl + 1) ≤ hat v pl a2 (q - pl + 1))%Z
      || (unfold ptat; replace p with (pl + (p - pl + 1) - 1) by lia;
          replace q with (pl + (q - pl + 1) - 1) by lia;
          change (hat v pl a2 (p - pl + 1) ≤ hat v pl a2 (q - pl + 1))%Z).
    rewrite !Hhigh by lia.
    destruct (decide (p - pl + 1 = m)) as [E|].
    - rewrite E, Heq, Hne by lia. apply Hcross; lia.
    - rewrite !Hne by lia. unfold hat. apply Hsuffix; lia. }
  { intros x y Hx1 Hx2 Hy1 Hy2.
    rewrite (Hhigh y) by lia.
    apply (Bd (hat v pl a1 y)); [| |lia..].
    - destruct (decide (y = m)) as [->|].
      + rewrite Heq. subst T. apply (Hroot m); lia.
      + rewrite Hne by lia. subst T. apply (Hcross m y); lia.
    - intros x' Hx1' Hx2'. rewrite (Hne x') by lia.
      destruct (decide (y = m)) as [->|].
      + rewrite Heq. apply Hroot; lia.
      + rewrite Hne by lia. apply Hcross; lia. }
  split; [|done].
  eapply rearranged_trans; [| |exact R2|exact R3]; lia.
Qed.

Lemma aheapsort_spec a :
  1 ≤ n → pl + n ≤ length a → in_range (length v) a →
  rearranged a (Npysort.aheapsort v a pl n) pl (pl + n - 1)
  ∧ seg_sorted v (Npysort.aheapsort v a pl n) pl (pl + n).
Proof.
  intros Hn Hlen Ha. unfold Npysort.aheapsort.
  assert (n / 2 ≤ n ∧ ∀ x, n / 2 < x → n < 2 * x) as [Hhalf Hleaf].
  { pose proof (Nat.div_mod_eq n 2). pose proof (Nat.mod_upper_bound n 2).
    split; [lia|]. intros; lia. }
  destruct (build_heap_spec (n / 2) a) as [R1 D1]; [done..| |].
  { intros x Hx1 Hx2 c Hc Hck. specialize (Hleaf x Hx1). lia. }
  set (a1 := foldl _ a (reverse (seq 1 (n / 2)))) in *.
  destruct (extract_spec (n - 1) a1) as [R2 S2].
  - lia.
  - rewrite (rearranged_length _ _ _ _ R1). lia.
  - by eapply rearranged_in_range.
  - intros x ??. replace (n - 1 + 1) with n by lia. apply D1; lia.
  - intros p q ???. lia.
  - intros x y ????. lia.
  - split; [|done].
    eapply rearranged_trans; [| |exact R1|exact R2]; lia.
Qed.
End Heap.

(** ** The main loop *)

Lemma rearranged_inside a a' l r p :
  rearranged a a' l r → l ≤ p → p ≤ r → p < length a →
  ∃ p', l ≤ p' ∧ p' ≤ r ∧ Npysort.at_ a' p = Npysort.at_ a p'.
Proof.
  intros [P F] Hl Hr Hp.
  assert (length a' = length a) as Hlen by by rewrite P.
  assert (take l a' = take l a) as Ht.
  { apply list_eq. intros i. destruct (decide (i < l)).
    - rewrite !lookup_take_lt by done. apply F. lia.
    - rewrite !lookup_take_ge by lia. done. }
  assert (drop (S r) a' = drop (S r) a) as Hd.
  { apply list_eq. intros i. rewrite !lookup_drop. apply F. lia. }
  assert (take (S r - l) (drop l a') ≡ₚ take (S r - l) (drop l a)) as Hm.
  { apply (Permutation_app_inv_l (take l a)).
    apply (Permutation_app_inv_r (drop (S r) a)).
    rewrite <- Ht at 1. rewrite <- Hd at 1.
    assert (∀ b : list nat, take l b ++ take (S r - l) (drop l b) ++ drop (S r) b = b)
      as Hsplit.
    { intros b. transitivity (take l b ++ drop l b); [|apply take_drop]. f_equal.
      transitivity (take (S r - l) (drop l b) ++ drop (S r - l) (drop l b));
        [|apply take_drop].
      f_equal. rewrite drop_drop. f_equal. lia. }
    rewrite <- !(assoc_L (++)), !Hsplit. done. }
  assert (Npysort.at_ a' p ∈ take (S r - l) (drop l a')) as Hin.
  { apply (list_elem_of_lookup_2 _ (p - l)).
    rewrite lookup_take_lt by lia. rewrite lookup_drop.
    replace (l + (p - l)) with p by lia. apply lookup_at. lia. }
  rewrite Hm in Hin. apply list_elem_of_lookup_1 in Hin as [i Hi].
  assert (i < S r - l) as Hil.
  { destruct (decide (i < S r - l)); [done|].
    rewrite lookup_take_ge in Hi by lia. done. }
  rewrite lookup_take_lt in Hi by done. rewrite lookup_drop in Hi.
  exists (l + i). split; [lia|]. split; [lia|].
  symmetry. by apply at_lookup.
Qed.

Lemma sorting_length a segs : sorting v a segs → length a = length v.
Proof. intros [P _ _ _]. by rewrite P, length_seq. Qed.

Lemma sorting_in_range a segs : sorting v a segs → in_range (length v) a.
Proof.
  intros [P _ _ _]. apply (Permutation_in_range _ _ P).
  apply Forall_seq. intros; lia.
Qed.

(** Rearranging the first segment leaves in order what was in order,
    that segment apart. *)
Lemma order_frame a a' pl pr d stack p q :
  sorting v a ((pl, pr, d) :: stack) →
  rearranged a a' pl pr →
  p < q → q < length v →
  ¬ (inside (pl, pr, d) p ∧ inside (pl, pr, d) q) →
  ¬ together stack p q →
  (ptat v a' p ≤ ptat v a' q)%Z.
Proof.
  intros Hs Hr Hpq Hq Hcur Hstack.
  pose proof (sorting_length _ _ Hs) as Hlen.
  destruct Hs as [P Hsegs [Hap _] Hord].
  apply Forall_cons_1 in Hsegs as [[Hlr Hrn] _]. cbn [fst snd] in Hlr, Hrn.
  rewrite Forall_forall in Hap.
  unfold inside in Hcur. cbn [fst snd] in Hcur.
  assert (∀ x y, x < y → y < length v →
                 (x < pl ∨ pr < x ∨ y < pl ∨ pr < y) →
                 (∀ s, s ∈ stack → ¬ (inside s x ∧ inside s y)) →
                 (ptat v a x ≤ ptat v a y)%Z) as Hold.
  { intros x y Hxy Hy Hout Hno. apply Hord; [done|done|].
    unfold together. rewrite Exists_cons. intros [[Hx1 Hx2]|Hex].
    - unfold inside in Hx1, Hx2. cbn [fst snd] in Hx1, Hx2. lia.
    - apply Exists_exists in Hex as (s & Hin & Hboth). by eapply Hno. }
  assert (∀ s, s ∈ stack → ¬ (inside s p ∧ inside s q)) as Hno.
  { intros s Hin Hboth. apply Hstack. apply Exists_exists. eauto. }
  unfold ptat.
  destruct (decide (pl ≤ p ∧ p ≤ pr)) as [Hp|Hp];
    destruct (decide (pl ≤ q ∧ q ≤ pr)) as [Hq'|Hq']; [lia| | |].
  - destruct (rearranged_inside a a' pl pr p Hr) as (p' & H1 & H2 & ->); [lia..|].
    rewrite (rearranged_at a a' pl pr q Hr) by lia.
    apply Hold; [lia|done|lia|].
    intros s Hin [Hsp Hsq]. apply (Hap s Hin p'); [|done].
    unfold inside; cbn [fst snd]; lia.
  - destruct (rearranged_inside a a' pl pr q Hr) as (q' & H1 & H2 & ->); [lia..|].
    rewrite (rearranged_at a a' pl pr p Hr) by lia.
    apply Hold; [lia|lia|lia|].
    intros s Hin [Hsp Hsq]. apply (Hap s Hin q'); [|done].
    unfold inside; cbn [fst snd]; lia.
  - rewrite (rearranged_at a a' pl pr p Hr) by lia.
    rewrite (rearranged_at a a' pl pr q Hr) by lia.
    apply Hold; [done|done|lia|done].
Qed.

(** A segment that has been sorted is done with. *)
Lemma sorting_done a a' pl pr d stack :
  sorting v a ((pl, pr, d) :: stack) →
  rearranged a a' pl pr →
  seg_sorted v a' pl (S pr) →
  sorting v a' stack.
Proof.
  intros Hs Hr Hsorted. pose proof Hs as [P Hsegs [Hap Hap'] Hord].
  apply Forall_cons_1 in Hsegs as [_ Hsegs].
  split; [by rewrite (proj1 Hr)|done|done|].
  intros p q Hpq Hq Hstack.
  destruct (decide (pl ≤ p ∧ q ≤ pr)) as [Hin|Hout].
  - apply Hsorted; lia.
  - eapply order_frame; [exact Hs|exact Hr|done|done| |done].
    unfold inside; cbn [fst snd]. lia.
Qed.

(** A partitioned segment leaves its two sides to be sorted. *)
Lemma sorting_split a a' pl pr pi d d1 d2 stack :
  sorting v a ((pl, pr, d) :: stack) →
  rearranged a a' pl pr →
  pl < pi → pi < pr →
  (∀ p, pl ≤ p → p < pi → (ptat v a' p ≤ ptat v a' pi)%Z) →
  (∀ q, pi < q → q ≤ pr → (ptat v a' pi ≤ ptat v a' q)%Z) →
  sorting v a' ((pl, pi - 1, d1) :: (S pi, pr, d2) :: stack)
  ∧ sorting v a' ((S pi, pr, d2) :: (pl, pi - 1, d1) :: stack).
Proof.
  intros Hs Hr Hl Hu Hlow Hhigh. pose proof Hs as [P Hsegs [Hap Hap'] Hord].
  apply Forall_cons_1 in Hsegs as [[Hlr Hrn] Hsegs]. cbn [fst snd] in Hlr, Hrn.
  assert (∀ l r e, pl ≤ l → r ≤ pr →
            Forall (λ t, ∀ p, inside (l, r, e) p → ¬ inside t p) stack) as Hsub.
  { intros l r e H1 H2. eapply Forall_impl; [exact Hap|].
    intros t Ht p Hp. apply Ht. unfold inside in *; cbn [fst snd] in *. lia. }
  assert (∀ p q, p < q → q < length v →
            ¬ (inside (pl, pi - 1, d1) p ∧ inside (pl, pi - 1, d1) q) →
            ¬ (inside (S pi, pr, d2) p ∧ inside (S pi, pr, d2) q) →
            ¬ together stack p q →
            (ptat v a' p ≤ ptat v a' q)%Z) as Hnew.
  { intros p q Hpq Hq H1 H2 Hstack.
    unfold inside in H1, H2; cbn [fst snd] in H1, H2.
    destruct (decide (pl ≤ p ∧ q ≤ pr)) as [Hin|Hout].
    - assert (p ≤ pi ∧ pi ≤ q) as [Hp Hq'] by lia.
      transitivity (ptat v a' pi).
      + destruct (decide (p = pi)) as [->|]; [done|]. apply Hlow; lia.
      + destruct (decide (q = pi)) as [->|]; [done|]. apply Hhigh; lia.
    - eapply order_frame; [exact Hs|exact Hr|done|done| |done].
      unfold inside; cbn [fst snd]. lia. }
  split.
  - split; [by rewrite (proj1 Hr)| | |].
    + repeat apply Forall_cons_2; cbn [fst snd]; [lia|lia|done].
    + cbn [apart]. split; [|split; [|done]].
      * apply Forall_cons_2; [|apply Hsub; lia].
        unfold inside; cbn [fst snd]. lia.
      * apply Hsub; lia.
    + intros p q Hpq Hq Hno. unfold together in Hno.
      rewrite !Exists_cons in Hno. apply Hnew; tauto.
  - split; [by rewrite (proj1 Hr)| | |].
    + repeat apply Forall_cons_2; cbn [fst snd]; [lia|lia|done].
    + cbn [apart]. split; [|split; [|done]].
      * apply Forall_cons_2; [|apply Hsub; lia].
        unfold inside; cbn [fst snd]. lia.
      * apply Hsub; lia.
    + intros p q Hpq Hq Hno. unfold together in Hno.
      rewrite !Exists_cons in Hno. apply Hnew; tauto.
Qed.

Lemma budget_cons l r d segs :
  budget ((l, r, d) :: segs) = 2 * (r - l) + 1 + budget segs.
Proof. done. Qed.

Lemma run_spec fuel a pl pr d stack fresh :
  budget ((pl, pr, d) :: stack) < fuel →
  sorting v a ((pl, pr, d) :: stack) →
  sorting v (Npysort.run v fuel a pl pr d stack fresh) [].
Proof.
  revert a pl pr d stack fresh.
  induction fuel as [|fuel IH]; intros a pl pr d stack fresh Hfuel Hs; [lia|].
  pose proof (sorting_length _ _ Hs) as Hlen.
  pose proof (sorting_in_range _ _ Hs) as Hrange.
  pose proof (so_segs _ _ _ Hs) as Hsegs.
  apply Forall_cons_1 in Hsegs as [[Hlr Hrn] Hsegs]. cbn [fst snd] in Hlr, Hrn.
  rewrite budget_cons in Hfuel.
  assert (∀ a', sorting v a' stack →
            sorting v match stack with
                      | [] => a'
                      | (pl, pr, d) :: stack => Npysort.run v fuel a' pl pr d stack true
                      end []) as Hnext.
  { intros a' Hs'. destruct stack as [|[[l r] e] stack]; [done|].
    apply IH; [lia|done]. }
  cbn [Npysort.run].
  destruct (fresh && (d <? 0)%Z).
  { apply Hnext.
    destruct (aheapsort_spec pl (pr - pl + 1) a) as [R St]; [lia|lia|done|].
    replace (pl + (pr - pl + 1) - 1) with pr in R by lia.
    replace (pl + (pr - pl + 1)) with (S pr) in St by lia.
    by eapply sorting_done. }
  unfold Npysort.SMALL_QUICKSORT.
  destruct (decide (15 < pr - pl)) as [Hbig|Hsmall].
  2:{ rewrite (proj2 (Nat.ltb_ge 15 (pr - pl))) by lia.
      apply Hnext.
      destruct (insertion_sort_spec a pl pr) as [R St]; [lia|lia|done|].
      by eapply sorting_done. }
  rewrite (proj2 (Nat.ltb_lt 15 (pr - pl))) by lia.
  destruct (partition_spec a pl pr) as (a' & pi & -> & R & Hl & Hu & Hlow & Hhigh);
    [lia|lia|done|].
  destruct (sorting_split a a' pl pr pi d (d - 1)%Z (d - 1)%Z stack Hs R Hl Hu Hlow Hhigh)
    as [S1 S2].
  destruct (pi - pl <? pr - pi).
  - apply IH; [|done]. rewrite !budget_cons. lia.
  - apply IH; [|done]. rewrite !budget_cons. lia.
Qed.

Lemma aquicksort_sorting : sorting v (Npysort.aquicksort_ v) [].
Proof.
  unfold Npysort.aquicksort_. apply run_spec.
  - rewrite budget_cons. unfold budget. simpl. lia.
  - split; [done| | |].
    + apply Forall_singleton. cbn [fst snd]. lia.
    + cbn [apart]. done.
    + intros p q Hpq Hq Hno. exfalso. apply Hno.
      apply Exists_cons_hd. unfold inside; cbn [fst snd]. lia.
Qed.

Lemma Sorted_adjacent (R : nat → nat → Prop) a :
  (∀ p x y, a !! p = Some x → a !! S p = Some y → R x y) → Sorted R a.
Proof.
  induction a as [|x a IH]; intros H; [constructor|].
  constructor.
  - apply IH. intros p y z Hy Hz. by apply (H (S p)).
  - destruct a as [|y a]; constructor. by apply (H 0).
Qed.

Lemma aquicksort_sorts : sorts Npysort.argsort v.
Proof.
  pose proof aquicksort_sorting as Hs.
  pose proof (sorting_in_range _ _ Hs) as Hrange.
  pose proof (sorting_length _ _ Hs) as Hlen.
  destruct Hs as [P _ _ Hord].
  split; [exact P|].
  apply Sorted_adjacent. intros p x y Hx Hy.
  assert (x < length v ∧ y < length v) as [Hxv Hyv].
  { unfold in_range in Hrange. rewrite Forall_forall in Hrange.
    split; eapply Hrange, list_elem_of_lookup_2; eassumption. }
  change (Npysort.LT (Npysort.key v y) (Npysort.key v x) = false).
  rewrite LT_points by done. apply bool_decide_eq_false.
  assert (ptat v (Npysort.aquicksort_ v) p ≤ ptat v (Npysort.aquicksort_ v) (S p))%Z
    as Hle.
  { apply Hord; [lia| |].
    - apply lookup_lt_Some in Hy. unfold Npysort.argsort in Hy. lia.
    - intros H. by apply Exists_nil in H. }
  unfold ptat in Hle. unfold Npysort.argsort in Hx, Hy.
  rewrite (at_lookup _ _ _ Hx), (at_lookup _ _ _ Hy) in Hle. lia.
Qed.
End NpysortSorts.

(** NumPy's introsort puts the positions of any list of scores in
    non-decreasing order of their keys. *)
Lemma npysort_sorts (ks : list spec_float) :
  Forall is_score ks → sorts Npysort.argsort ks.
Proof.
  intros Hks. destruct ks as [|k ks]; [compute_done|].
  apply aquicksort_sorts; [done|simpl; lia].
Qed.

Lemma npysort_sorts_frame (df : DataFrame) :
  well_formed df → sorts Npysort.argsort (argsort_input df).
Proof.
  intros wf. apply npysort_sorts. unfold argsort_input.
  apply Forall_reverse, sort_keys_scores, wf.
Qed.

(** The sort of the ranking: the default one, or any routine that sorts
    the keys of the frame. *)
Lemma sorts_either (argsort : list spec_float → list nat) (df : DataFrame) :
  well_formed df →
  argsort = Npysort.argsort ∨ sorts argsort (argsort_input df) →
  sorts argsort (argsort_input df).
Proof.
  intros wf [->|Hs]; [by apply npysort_sorts_frame|done].
Qed.


(** * The ranking *)

(** C1: the output of the ranking holds the records of the input (their
    missing cells filled in), each as often as the input does, in
    descending order of final score: no record comes before a record
    with a strictly greater final score.  This holds for the scores the
    output rows get when scored again, and for the [final_score] column
    that [process_contacts] computes: the output is the filled input
    taken along a permutation of its positions on which that column
    does not increase.  The sort is the default one of NumPy, or any
    routine that sorts the keys of the frame. *)
Theorem ranking_descending (argsort : list spec_float → list nat) (df : DataFrame) :
  well_formed df →
  argsort = Npysort.argsort ∨ sorts argsort (argsort_input df) →
  ∃ out, process_contacts argsort df = Ok out
    ∧ columns out = columns df
    ∧ length (rows out) = length (rows df)
    ∧ rows out ≡ₚ normalize_row (columns df) <$> rows df
    ∧ (∀ i j ri rj,
        (i < j)%nat → rows out !! i = Some ri → rows out !! j = Some rj →
        ∃ si sj,
          row_final_score (columns out) ri = Ok si
          ∧ row_final_score (columns out) rj = Ok sj
          ∧ Float64.ltb si sj = false)
    ∧ ∃ scored final_score idx,
        score_contacts df = Ok scored
        ∧ getitem scored "final_score" = Ok (Float <$> final_score)
        ∧ idx ≡ₚ seq 0 (length (rows df))
        ∧ rows out
          = (λ i, default [] ((normalize_row (columns df) <$> rows df) !! i)) <$> idx
        ∧ ∀ p q a b fa fb,
            (p < q)%nat → idx !! p = Some a → idx !! q = Some b →
            final_score !! a = Some fa → final_score !! b = Some fb →
            Float64.ltb fa fb = false.
Proof.
  intros wf Hs. apply (sorts_either argsort df wf) in Hs.
  exists (ranked argsort df).
  split; [by apply process_contacts_ranked|].
  split; [done|].
  split; [by rewrite (ranked_Permutation argsort df Hs), length_fmap|].
  split; [exact (ranked_Permutation argsort df Hs)|].
  pose proof (nargsort_desc argsort (sort_keys df) (sort_keys_scores df wf) Hs) as Hd.
  pose proof (mirror_in_range argsort (sort_keys df) Hs) as Hrange.
  rewrite Forall_forall, sort_keys_length in Hrange.
  split.
  2:{ eexists _, (sort_keys df), (mirror_indexer argsort (sort_keys df)).
      split; [exact (score_contacts_ok df wf)|].
      split; [by rewrite (scored_getitem df wf "final_score" 3 eq_refl),
                         (scored_final_score df wf)|].
      split; [rewrite <- sort_keys_length; by apply mirror_Permutation|].
      split; [done|].
      intros p q a b fa fb Hpq Ha Hb Hfa Hfb.
      pose proof (StronglySorted_lookup _ _ _ _ _ _ Hd Hpq Ha Hb) as Hab.
      unfold desc, points_at, key_at in Hab. rewrite Hfa, Hfb in Hab. simpl in Hab.
      assert (is_score fa ∧ is_score fb) as [Ia Ib].
      { pose proof (sort_keys_scores df wf) as Hsc. rewrite Forall_forall in Hsc.
        split; eapply Hsc, list_elem_of_lookup_2; eassumption. }
      destruct (is_score_lt _ _ Ia Ib) as [_ ->].
      apply bool_decide_eq_false. lia. }
  intros i j ri rj Hij Hi Hj. unfold ranked in *. cbn [rows columns] in *.
  apply list_lookup_fmap_Some in Hi as (a & -> & Ha).
  apply list_lookup_fmap_Some in Hj as (b & -> & Hb).
  destruct (ranked_row_score df wf a) as [Sa Ia];
    [by eapply Hrange, list_elem_of_lookup_2|].
  destruct (ranked_row_score df wf b) as [Sb Ib];
    [by eapply Hrange, list_elem_of_lookup_2|].
  exists (key_at (sort_keys df) a), (key_at (sort_keys df) b).
  split; [done|]. split; [done|].
  destruct (is_score_lt _ _ Ia Ib) as [_ ->].
  apply bool_decide_eq_false.
  pose proof (StronglySorted_lookup _ _ _ _ _ _ Hd Hij Ha Hb) as Hab.
  unfold desc, points_at in Hab. lia.
Qed.

Lemma ranking_descending_witness :
  ∃ out, process_contacts Npysort.argsort sample_frame = Ok out
    ∧ columns out = columns sample_frame
    ∧ length (rows out) = length (rows sample_frame)
    ∧ rows out ≡ₚ normalize_row (columns sample_frame) <$> rows sample_frame
    ∧ (∀ i j ri rj,
        (i < j)%nat → rows out !! i = Some ri → rows out !! j = Some rj →
        ∃ si sj,
          row_final_score (columns out) ri = Ok si
          ∧ row_final_score (columns out) rj = Ok sj
          ∧ Float64.ltb si sj = false)
    ∧ ∃ scored final_score idx,
        score_contacts sample_frame = Ok scored
        ∧ getitem scored "final_score" = Ok (Float <$> final_score)
        ∧ idx ≡ₚ seq 0 (length (rows sample_frame))
        ∧ rows out
          = (λ i, default []
                    ((normalize_row (columns sample_frame) <$> rows sample_frame) !! i))
              <$> idx
        ∧ ∀ p q a b fa fb,
            (p < q)%nat → idx !! p = Some a → idx !! q = Some b →
            final_score !! a = Some fa → final_score !! b = Some fb →
            Float64.ltb fa fb = false.
Proof.
  apply (ranking_descending Npysort.argsort sample_frame).
  - split; compute_done.
  - left. reflexivity.
Defined.

(** ** Records with equal final scores *)

Section Ties.
Variable argsort : list spec_float → list nat.
Variable df : DataFrame.
Hypothesis wf : well_formed df.
Hypothesis sorted : sorts argsort (argsort_input df).

(** Selecting the rows with a given final score is selecting the
    positions with that sort key. *)
Lemma filter_score_positions (s : spec_float) (idx : list nat) :
  Forall (λ i, (i < length (rows df))%nat) idx →
  filter (λ r, row_final_score (columns df) r = Ok s)
    ((λ i, default [] ((normalize_row (columns df) <$> rows df) !! i)) <$> idx)
  = (λ i, default [] ((normalize_row (columns df) <$> rows df) !! i))
      <$> filter (λ i, key_at (sort_keys df) i = s) idx.
Proof.
  intros Hidx. rewrite filter_fmap. f_equal.
  apply filter_ext_Forall. eapply Forall_impl; [exact Hidx|].
  intros i Hi. cbv beta in Hi. simpl.
  destruct (ranked_row_score df wf i Hi) as [-> _]. naive_solver.
Qed.

Lemma normalized_rows_positions :
  normalize_row (columns df) <$> rows df
  = (λ i, default [] ((normalize_row (columns df) <$> rows df) !! i))
      <$> seq 0 (length (rows df)).
Proof.
  rewrite <- (length_fmap (normalize_row (columns df)) (rows df)).
  by rewrite fmap_lookup_seq.
Qed.

Lemma stable_positions (s : spec_float) :
  stable_on argsort (argsort_input df) →
  filter (λ i, key_at (sort_keys df) i = s) (mirror_indexer argsort (sort_keys df))
  = filter (λ i, key_at (sort_keys df) i = s) (seq 0 (length (rows df))).
Proof.
  intros Hst.
  pose proof (nargsort_desc_stable argsort (sort_keys df)
                (sort_keys_scores df wf) sorted Hst) as Hd.
  apply (StronglySorted_unique_strong lt).
  - intros; lia.
  - apply Sorted_StronglySorted; [apply _|].
    eapply (Sorted_weaken (λ i, key_at (sort_keys df) i = s)
              (desc_stable (sort_keys df))).
    + apply Forall_forall. by intros i [? _]%list_elem_of_filter.
    + intros i j Hi Hj Hij. unfold desc_stable in Hij.
      destruct Hij as [Hlt|[_ Hlt]]; [|done].
      unfold points_at in Hlt. rewrite Hi, Hj in Hlt. lia.
    + apply StronglySorted_Sorted, StronglySorted_filter, Hd.
  - apply StronglySorted_filter, StronglySorted_seq.
  - rewrite (mirror_Permutation argsort (sort_keys df) sorted).
    by rewrite sort_keys_length.
Qed.
End Ties.

(** C2, as the code has it: the sort of the ranking (the default one of
    NumPy, or any routine that sorts the keys of the frame) keeps the
    records with a given final score together and loses none of them,
    but their order among themselves is the one the sorting routine
    leaves them in; it is their input order whenever the routine is
    stable on the keys. *)
Theorem ranking_ties (argsort : list spec_float → list nat) (df : DataFrame) :
  well_formed df →
  argsort = Npysort.argsort ∨ sorts argsort (argsort_input df) →
  ∃ out, process_contacts argsort df = Ok out
    ∧ (∀ s,
         filter (λ r, row_final_score (columns out) r = Ok s) (rows out)
         ≡ₚ filter (λ r, row_final_score (columns df) r = Ok s)
              (normalize_row (columns df) <$> rows df))
    ∧ (stable_on argsort (argsort_input df) →
       ∀ s,
         filter (λ r, row_final_score (columns out) r = Ok s) (rows out)
         = filter (λ r, row_final_score (columns df) r = Ok s)
             (normalize_row (columns df) <$> rows df)).
Proof.
  intros wf Hs. apply (sorts_either argsort df wf) in Hs.
  exists (ranked argsort df).
  split; [by apply process_contacts_ranked|]. split.
  - intros s. cbn [columns]. by rewrite (ranked_Permutation argsort df Hs).
  - intros Hst s. unfold ranked. cbn [rows columns].
    pose proof (mirror_in_range argsort (sort_keys df) Hs) as Hrange.
    rewrite sort_keys_length in Hrange.
    rewrite (filter_score_positions df wf s _ Hrange).
    rewrite (stable_positions argsort df wf Hs s Hst).
    rewrite <- (filter_score_positions df wf s (seq 0 (length (rows df))))
      by (apply Forall_seq; intros; lia).
    f_equal. symmetry. apply normalized_rows_positions.
Qed.

Lemma ranking_ties_witness :
  ∃ out, process_contacts Npysort.argsort sample_frame = Ok out
    ∧ (∀ s,
         filter (λ r, row_final_score (columns out) r = Ok s) (rows out)
         ≡ₚ filter (λ r, row_final_score (columns sample_frame) r = Ok s)
              (normalize_row (columns sample_frame) <$> rows sample_frame))
    ∧ (stable_on Npysort.argsort (argsort_input sample_frame) →
       ∀ s,
         filter (λ r, row_final_score (columns out) r = Ok s) (rows out)
         = filter (λ r, row_final_score (columns sample_frame) r = Ok s)
             (normalize_row (columns sample_frame) <$> rows sample_frame)).
Proof.
  apply (ranking_ties Npysort.argsort sample_frame).
  - split; compute_done.
  - left. reflexivity.
Defined.

(** The order of records with equal final scores is not kept in general:
    of eighteen contacts with one and the same final score, the default
    sort of NumPy moves the third one behind the seventeenth. *)
Lemma ranking_not_stable :
  well_formed tied_frame
  ∧ sorts Npysort.argsort (argsort_input tied_frame)
  ∧ ∃ out,
      process_contacts Npysort.argsort tied_frame = Ok out
      ∧ rows tied_frame !! 2%nat = Some (tied_row "c02")
      ∧ rows tied_frame !! 16%nat = Some (tied_row "c16")
      ∧ row_final_score (columns out) (tied_row "c02")
        = row_final_score (columns out) (tied_row "c16")
      ∧ rows out !! 2%nat = Some (tied_row "c16")
      ∧ rows out !! 16%nat = Some (tied_row "c02")
      ∧ filter (λ r, row_final_score (columns out) r = Ok (Float64.of_int 71)) (rows out)
        ≠ filter (λ r, row_final_score (columns tied_frame) r = Ok (Float64.of_int 71))
            (normalize_row (columns tied_frame) <$> rows tied_frame).
Proof.
  split; [split; compute_done|]. split; [compute_done|].
  eexists. split; [vm_compute; reflexivity|].
  repeat split; try reflexivity.
  vm_compute. intros H. discriminate H.
Qed.


(** * Missing values *)

(** C7: the three [fillna] statements put "unknown" into a missing
    [Role], "1-10" into a missing [Company Size] and "unknown" into a
    missing [Country], and leave every other cell of every row as it
    is; [process_contacts] scores and ranks the frame so filled. *)
Theorem fill_missing_defaults (df : DataFrame) :
  Forall (λ row, length row = length (columns df)) (rows df) →
  NoDup (columns df) →
  "Role" ∈ columns df → "Company Size" ∈ columns df → "Country" ∈ columns df →
  ∃ out, fill_missing df = Ok out
    ∧ columns out = columns df
    ∧ length (rows out) = length (rows df)
    ∧ (∀ k row, rows df !! k = Some row →
         ∃ row', rows out !! k = Some row'
           ∧ length row' = length row
           ∧ ∀ c, c ∈ columns df →
               field (columns df) row' c =
                 if isna (field (columns df) row c) then
                   if decide (c = "Role") then Str "unknown"
                   else if decide (c = "Company Size") then Str "1-10"
                   else if decide (c = "Country") then Str "unknown"
                   else field (columns df) row c
                 else field (columns df) row c)
    ∧ (∀ argsort,
         process_contacts argsort df = fill_missing df ≫= score_and_rank argsort).
Proof.
  intros Hrect Hnd HR HS HC.
  exists {| columns := columns df; rows := normalize_row (columns df) <$> rows df |}.
  split; [by apply fill_missing_ok|]. split; [done|].
  split; [cbn [rows]; by rewrite length_fmap|].
  split; [|intros; apply process_contacts_stages].
  intros k row Hk. exists (normalize_row (columns df) row).
  cbn [rows]. rewrite list_lookup_fmap, Hk.
  rewrite Forall_forall in Hrect.
  assert (length row = length (columns df)) as Hlen
    by (by eapply Hrect, list_elem_of_lookup_2).
  split; [done|]. split; [by rewrite normalize_row_length|].
  intros c Hc. rewrite field_normalize by done.
  unfold normalize_cell, default_for.
  repeat case_decide; by destruct (isna _).
Qed.

Lemma fill_missing_defaults_witness :
  ∃ out, fill_missing sample_frame = Ok out
    ∧ columns out = columns sample_frame
    ∧ rows out !! 2%nat = Some [Str "Cy"; Str "unknown"; Str "1-10"; Str "Spain"].
Proof.
  destruct (fill_missing_defaults sample_frame) as (out & Hout & Hcols & _);
    [compute_done..|].
  exists out. split; [done|]. split; [done|].
  vm_compute in Hout. by injection Hout as <-.
Defined.

(** C8, as the code has it: the output has the columns of the input and
    as many rows, and its rows are the rows of the input with their
    missing [Role], [Company Size] and [Country] filled in, in another
    order; they are the rows of the input themselves when none of these
    cells is missing.  The sort is the default one of NumPy, or any
    routine that sorts the keys of the frame. *)
Theorem ranking_reorders_filled (argsort : list spec_float → list nat) (df : DataFrame) :
  well_formed df →
  argsort = Npysort.argsort ∨ sorts argsort (argsort_input df) →
  ∃ out, process_contacts argsort df = Ok out
    ∧ columns out = columns df
    ∧ Forall (λ c, c ∉ columns out) score_columns
    ∧ length (rows out) = length (rows df)
    ∧ rows out ≡ₚ normalize_row (columns df) <$> rows df
    ∧ (no_missing df → rows out ≡ₚ rows df).
Proof.
  intros wf Hs. apply (sorts_either argsort df wf) in Hs.
  exists (ranked argsort df).
  pose proof (ranked_Permutation argsort df Hs) as Hp.
  split; [by apply process_contacts_ranked|]. split; [done|].
  split; [by destruct wf|].
  split; [by rewrite Hp, length_fmap|]. split; [done|].
  intros Hno. rewrite Hp.
  rewrite <- (list_fmap_id (rows df)) at 2.
  by rewrite (Forall_fmap_ext_1 _ id _ Hno).
Qed.

Lemma ranking_reorders_filled_witness :
  ∃ out, process_contacts Npysort.argsort sample_frame = Ok out
    ∧ columns out = columns sample_frame
    ∧ Forall (λ c, c ∉ columns out) score_columns
    ∧ length (rows out) = length (rows sample_frame)
    ∧ rows out ≡ₚ normalize_row (columns sample_frame) <$> rows sample_frame
    ∧ (no_missing sample_frame → rows out ≡ₚ rows sample_frame).
Proof.
  apply (ranking_reorders_filled Npysort.argsort sample_frame).
  - split; compute_done.
  - left. reflexivity.
Defined.

(** The output is not the input reordered when a cell is missing: a
    contact without a role comes out with the role "unknown". *)
Lemma ranking_changes_missing_role :
  well_formed frame_without_role
  ∧ sorts Npysort.argsort (argsort_input frame_without_role)
  ∧ ∃ out,
      process_contacts Npysort.argsort frame_without_role = Ok out
      ∧ rows frame_without_role = [ [Str "Ana"; NaN; Str "11-50"; Str "Spain"] ]
      ∧ rows out = [ [Str "Ana"; Str "unknown"; Str "11-50"; Str "Spain"] ]
      ∧ ¬ rows out ≡ₚ rows frame_without_role.
Proof.
  split; [split; compute_done|]. split; [compute_done|].
  eexists. split; [vm_compute; reflexivity|].
  repeat split. compute_done.
Qed.



(** * Totality *)

Lemma ranking_total_any (argsort : list spec_float → list nat) (df : DataFrame) :
  well_formed df →
  sorts argsort (argsort_input df) →
  (∃ out, process_contacts argsort df = Ok out)
  ∧ (rows df = [] → process_contacts argsort df = Ok df)
  ∧ (∀ row, rows df = [row] →
       process_contacts argsort df
       = Ok {| columns := columns df; rows := [normalize_row (columns df) row] |}).
Proof.
  intros wf Hs.
  pose proof (process_contacts_ranked argsort df wf Hs) as Hok.
  pose proof (ranked_Permutation argsort df Hs) as Hp.
  split; [by eexists|]. split.
  - intros Hnil. rewrite Hok. rewrite Hnil in Hp. csimpl in Hp.
    apply Permutation_nil_r in Hp.
    unfold ranked in *. cbn [rows] in Hp. rewrite Hp.
    destruct df as [cols rs]. simpl in *. by subst.
  - intros row Hrow. rewrite Hok. rewrite Hrow in Hp. csimpl in Hp.
    apply Permutation_singleton_r in Hp.
    unfold ranked in *. cbn [rows] in Hp. by rewrite Hp.
Qed.

(** C9, as the code has it: the ranking does not fail on a well-formed
    frame; an empty frame comes back as it is, and a frame of one row
    comes back with that row's missing cells filled in (as it is, when
    none is missing).  The sort is the default one of NumPy, or any
    routine that sorts the keys of the frame. *)
Theorem ranking_total (argsort : list spec_float → list nat) (df : DataFrame) :
  well_formed df →
  argsort = Npysort.argsort ∨ sorts argsort (argsort_input df) →
  (∃ out, process_contacts argsort df = Ok out)
  ∧ (rows df = [] → process_contacts argsort df = Ok df)
  ∧ (∀ row, rows df = [row] →
       process_contacts argsort df
       = Ok {| columns := columns df; rows := [normalize_row (columns df) row] |})
  ∧ (∀ row, rows df = [row] → normalize_row (columns df) row = row →
       process_contacts argsort df = Ok df).
Proof.
  intros wf Hs. apply (sorts_either argsort df wf) in Hs.
  destruct (ranking_total_any argsort df wf Hs) as (Hout & Hnil & Hone).
  split; [done|]. split; [done|]. split; [done|].
  intros row Hrow Hsame. rewrite (Hone row Hrow), Hsame.
  destruct df as [cols rs]. simpl in *. by subst.
Qed.

Lemma ranking_total_witness :
  (∃ out, process_contacts Npysort.argsort sample_frame = Ok out)
  ∧ process_contacts Npysort.argsort {| columns := header; rows := [] |}
    = Ok {| columns := header; rows := [] |}.
Proof.
  split.
  - refine (proj1 (ranking_total Npysort.argsort sample_frame _ _)).
    + split; compute_done.
    + left. reflexivity.
  - refine (proj1 (proj2 (ranking_total Npysort.argsort
                            {| columns := header; rows := [] |} _ _)) eq_refl).
    + split; compute_done.
    + left. reflexivity.
Defined.

(** A frame of one row does not always come back as it is: a contact
    without a country comes out with the country "unknown". *)
Lemma ranking_changes_missing_country :
  well_formed frame_without_country
  ∧ sorts Npysort.argsort (argsort_input frame_without_country)
  ∧ rows frame_without_country = [ [Str "Ana"; Str "CEO"; Str "11-50"; NaN] ]
  ∧ process_contacts Npysort.argsort frame_without_country
    = Ok {| columns := header;
            rows := [ [Str "Ana"; Str "CEO"; Str "11-50"; Str "unknown"] ] |}
  ∧ process_contacts Npysort.argsort frame_without_country
    ≠ Ok frame_without_country.
Proof.
  split; [split; compute_done|]. split; [compute_done|].
  split; [done|]. split; [vm_compute; reflexivity|].
  vm_compute. intros H. discriminate H.
Qed.

(** * Errors, edge cases and invariants of the pipeline *)

(** * Errors of the pipeline *)

Section Raising.
Context {A B : Type}.

(** A traversal whose steps can only raise [e] raises [e] as soon as
    one step does. *)
Lemma traverse_raise (f : A → result B) (e : exn) (l : list A) :
  Forall (λ x, (∃ y, f x = Ok y) ∨ f x = Raise e) l →
  Exists (λ x, f x = Raise e) l →
  traverse f l = Raise e.
Proof.
  induction 1 as [|x l Hx _ IH]; intros Hex; [by apply Exists_nil in Hex|].
  simpl. destruct Hx as [[y Hy]|Hx].
  - rewrite Hy. simpl. apply Exists_cons in Hex as [Hex|Hex]; [congruence|].
    by rewrite (IH Hex).
  - by rewrite Hx.
Qed.
End Raising.

Lemma fillna_inplace_columns df c v :
  c ∈ columns df →
  ∃ df', fillna_inplace df c v = Ok df' ∧ columns df' = columns df.
Proof.
  intros Hc. destruct (fillna_inplace_replace df c v Hc) as (i & _ & ->).
  by eexists.
Qed.

Lemma fillna_inplace_missing df c v :
  c ∉ columns df → fillna_inplace df c v = Raise (KeyError c).
Proof. intros Hc. unfold fillna_inplace. by rewrite getitem_missing. Qed.

(** The three [fillna] statements stop at the first column that is not
    there. *)
Lemma fill_missing_cases (df : DataFrame) :
  match list_find (λ c, c ∉ columns df) input_columns with
  | Some (_, c) => fill_missing df = Raise (KeyError c)
  | None => ∃ df', fill_missing df = Ok df' ∧ columns df' = columns df
  end.
Proof.
  unfold fill_missing, input_columns. cbn [list_find].
  destruct (decide ("Role" ∉ columns df)) as [HR|HR]; simpl.
  { by rewrite fillna_inplace_missing. }
  apply dec_stable in HR.
  destruct (fillna_inplace_columns df "Role" "unknown" HR) as (df1 & -> & E1).
  rewrite bind_Ok.
  destruct (decide ("Company Size" ∉ columns df)) as [HS|HS]; simpl.
  { rewrite fillna_inplace_missing; [done|by rewrite E1]. }
  apply dec_stable in HS. rewrite <- E1 in HS.
  destruct (fillna_inplace_columns df1 "Company Size" "1-10" HS) as (df2 & -> & E2).
  rewrite bind_Ok.
  destruct (decide ("Country" ∉ columns df)) as [HC|HC]; simpl.
  { rewrite fillna_inplace_missing; [done|by rewrite E2, E1]. }
  apply dec_stable in HC. rewrite <- E1, <- E2 in HC.
  destruct (fillna_inplace_columns df2 "Country" "unknown" HC) as (df3 & -> & E3).
  exists df3. split; [done|]. by rewrite E3, E2, E1.
Qed.

(** * Assigning a column *)

Section ZipWith.
Context {A B C : Type}.
Implicit Types (f : A → B → A) (l : list A) (k : list B).

Lemma Forall_zip_with_l (P Q : A → Prop) f l k :
  (∀ x y, P x → Q (f x y)) → Forall P l → Forall Q (zip_with f l k).
Proof.
  intros Hf Hl. revert k. induction Hl as [|x l Hx _ IH]; intros [|y k]; simpl;
    constructor; auto.
Qed.

Lemma fmap_zip_with_new (g : A → B) f l k :
  Forall (λ x, ∀ y, g (f x y) = y) l → length k = length l →
  g <$> zip_with f l k = k.
Proof.
  intros Hl. revert k. induction Hl as [|x l Hx _ IH]; intros [|y k] Hlen;
    simplify_eq/=; [done|]. by rewrite Hx, IH.
Qed.

Lemma fmap_zip_with_old (g h : A → C) f l k :
  Forall (λ x, ∀ y, g (f x y) = h x) l → length k = length l →
  g <$> zip_with f l k = h <$> l.
Proof.
  intros Hl. revert k. induction Hl as [|x l Hx _ IH]; intros [|y k] Hlen;
    simplify_eq/=; [done|]. by rewrite Hx, IH.
Qed.
End ZipWith.

Section Select.
Context {A : Type}.
Implicit Types (keep : list bool) (l : list A).

Lemma select_nil_r keep : select keep (@nil A) = [].
Proof. by destruct keep. Qed.

Lemma select_app keep keep' l l' :
  length l = length keep →
  select (keep ++ keep') (l ++ l') = select keep l ++ select keep' l'.
Proof.
  revert l. induction keep as [|b keep IH]; intros [|x l] Hlen; simplify_eq/=;
    [done|]. rewrite IH by done. by destruct b.
Qed.

Lemma select_insert_dropped keep l i x :
  keep !! i = Some false → select keep (<[i := x]> l) = select keep l.
Proof.
  revert l i. induction keep as [|b keep IH]; intros [|y l] [|i] Hi;
    simplify_eq/=; try done.
  rewrite IH by done. done.
Qed.

Lemma select_length keep l l' :
  length l = length keep → length l' = length keep →
  length (select keep l) = length (select keep l').
Proof.
  revert l l'. induction keep as [|b keep IH]; intros [|x l] [|x' l'] H1 H2;
    simplify_eq/=; [done|].
  destruct b; simpl; auto.
Qed.
End Select.

Lemma select_length_labels {A} (keep : list bool) (cols : list string) (l : list A) :
  length cols = length keep → length l = length keep →
  length (select keep l) = length (select keep cols).
Proof.
  revert cols l. induction keep as [|b keep IH]; intros [|c cols] [|x l] H1 H2;
    simplify_eq/=; [done|].
  destruct b; simpl; auto.
Qed.

Section SetItem.
Variables (df : DataFrame) (c : string) (s : Series).
Hypothesis rect : rectangular df.
Hypothesis len : length s = length (rows df).

Lemma setitem_total : ∃ df', setitem df c s = Ok df'.
Proof.
  unfold setitem. rewrite bool_decide_eq_true_2 by done.
  destruct (list_find _ _) as [[i ?]|]; by eexists.
Qed.

Lemma setitem_spec df' :
  setitem df c s = Ok df' →
  rectangular df'
  ∧ length (rows df') = length (rows df)
  ∧ getitem df' c = Ok s
  ∧ (∀ c', c' ≠ c → getitem df' c' = getitem df c')
  ∧ (∀ c', c' ∈ columns df → c' ∈ columns df')
  ∧ c ∈ columns df'
  ∧ (c ∈ score_columns → without_scores df' = without_scores df).
Proof.
  unfold setitem. rewrite bool_decide_eq_true_2 by done.
  destruct (list_find (λ x, x = c) (columns df)) as [[i y]|] eqn:Hfind.
  - (* the label exists: its column is replaced *)
    pose proof Hfind as (Hi & -> & Hfirst)%list_find_Some.
    intros [= <-]. unfold rectangular, getitem, get_loc, without_scores in *.
    cbn [columns rows].
    assert (i < length (columns df))%nat as Hlt by by eapply lookup_lt_Some.
    split; [|split; [|split; [|split; [|split; [|split]]]]].
    + eapply Forall_zip_with_l; [|exact rect].
      intros row v Hrow. simpl in *. by rewrite length_insert.
    + rewrite length_zip_with. lia.
    + rewrite Hfind. simpl. f_equal. apply fmap_zip_with_new; [|done].
      eapply Forall_impl; [exact rect|]. intros row Hrow v. simpl in *.
      rewrite list_lookup_insert_eq by lia. done.
    + intros c' Hc'.
      destruct (list_find (λ x, x = c') (columns df)) as [[j y]|] eqn:Hj; [|done].
      simpl. f_equal. apply fmap_zip_with_old; [|done].
      apply Forall_forall. intros row _ v.
      apply list_find_Some in Hj as (Hj & -> & _).
      rewrite list_lookup_insert_ne; [done|]. intros ->. congruence.
    + done.
    + by eapply list_elem_of_lookup_2.
    + intros Hscore. f_equal. apply fmap_zip_with_old; [|done].
      apply Forall_forall. intros row _ v.
      apply select_insert_dropped. rewrite list_lookup_fmap, Hi. simpl.
      by rewrite bool_decide_eq_false_2 by (intros H; by apply H).
  - (* a new label: a column is appended *)
    intros [= <-]. unfold rectangular, getitem, get_loc, without_scores in *.
    cbn [columns rows].
    pose proof Hfind as Hnone. rewrite list_find_None in Hnone.
    assert (c ∉ columns df) as Hc.
    { intros Hin. rewrite Forall_forall in Hnone. by apply (Hnone c). }
    split; [|split; [|split; [|split; [|split; [|split]]]]].
    + eapply Forall_zip_with_l; [|exact rect].
      intros row v Hrow. simpl in *. rewrite !length_app. simpl. lia.
    + rewrite length_zip_with. lia.
    + rewrite list_find_app_r by done.
      simpl. rewrite decide_True by done. simpl.
      f_equal. apply fmap_zip_with_new; [|done].
      eapply Forall_impl; [exact rect|]. intros row Hrow v. simpl in *.
      rewrite lookup_app_r by lia.
      replace (length (columns df) - length row)%nat with 0%nat by lia. done.
    + intros c' Hc'.
      destruct (list_find (λ x, x = c') (columns df)) as [[j y]|] eqn:Hj.
      * rewrite (list_find_app_l _ _ [c] _ _ Hj). simpl. f_equal.
        apply fmap_zip_with_old; [|done].
        eapply Forall_impl; [exact rect|]. intros row Hrow v. simpl in *.
        apply list_find_Some in Hj as (Hj & _ & _). apply lookup_lt_Some in Hj.
        rewrite lookup_app_l by lia. done.
      * rewrite list_find_app_r by done. simpl.
        rewrite decide_False by done. done.
    + intros c' Hin. apply elem_of_app. by left.
    + apply elem_of_app. right. apply list_elem_of_here.
    + intros Hscore. rewrite fmap_app. simpl.
      rewrite bool_decide_eq_false_2 by (intros H; by apply H).
      f_equal.
      * rewrite select_app by by rewrite length_fmap. simpl. by rewrite app_nil_r.
      * apply fmap_zip_with_old; [|done].
        eapply Forall_impl; [exact rect|]. intros row Hrow v. simpl in *.
        rewrite select_app by by rewrite length_fmap. simpl. by rewrite app_nil_r.
Qed.
End SetItem.

(** * The pipeline on any table *)

Lemma lower_or_raise (c : cell) :
  (∃ s, c = Str s
        ∧ (∃ z, assign_role_score c = Ok z) ∧ (∃ z, assign_country_score c = Ok z))
  ∨ ((∀ s, c ≠ Str s)
     ∧ assign_role_score c = Raise AttributeError
     ∧ assign_country_score c = Raise AttributeError).
Proof.
  destruct c as [s|z|f]; [left|by right..].
  exists s. split; [done|]. split; [by eexists|].
  rewrite assign_country_score_str. by eexists.
Qed.

Lemma series_apply_raise (f : cell → result Z) (s : Series) :
  (∀ c, (∃ z, f c = Ok z) ∨ f c = Raise AttributeError) →
  Exists (λ c, f c = Raise AttributeError) s →
  series_apply f s = Raise AttributeError.
Proof.
  intros Hf Hex. unfold series_apply. apply traverse_raise.
  - apply Forall_forall. intros c _.
    destruct (Hf c) as [[z ->]| ->]; [left; by eexists|by right].
  - eapply Exists_impl; [exact Hex|]. intros c Hc. simpl. by rewrite Hc.
Qed.

Lemma drop_columns_without_scores (df : DataFrame) :
  Forall (λ c, c ∈ columns df) score_columns →
  drop_columns df score_columns = Ok (without_scores df).
Proof.
  intros Hin. unfold drop_columns.
  destruct (traverse_is_ok (get_loc (columns df)) score_columns) as [locs ->]; [|done].
  eapply Forall_impl; [exact Hin|]. intros c Hc. simpl in Hc. unfold get_loc.
  destruct (find_label_elem_of _ _ Hc) as [i ->]. by eexists.
Qed.

Section ScoreAndRankAny.
Variable argsort : list spec_float → list nat.
Variables (cols : list string) (R : list (list cell)).
Hypothesis rect : Forall (λ row, length row = length cols) R.
Hypothesis has_role : "Role" ∈ cols.
Hypothesis has_size : "Company Size" ∈ cols.
Hypothesis has_country : "Country" ∈ cols.

Lemma score_and_rank_role_raise :
  Exists (λ row, ∀ s, field cols row "Role" ≠ Str s) R →
  score_and_rank argsort {| columns := cols; rows := R |} = Raise AttributeError.
Proof.
  intros Hex. unfold score_and_rank.
  step (getitem_fields {| columns := cols; rows := R |} "Role" has_role).
  cbn [columns rows].
  rewrite series_apply_raise; [done| |].
  - intros c. destruct (lower_or_raise c) as [(s & _ & Hr & _)|(_ & Hr & _)]; auto.
  - apply Exists_fmap. eapply Exists_impl; [exact Hex|]. intros row Hrow. simpl.
    destruct (lower_or_raise (field cols row "Role")) as [(s & Hs & _)|(_ & Hr & _)];
      [by destruct (Hrow s)|done].
Qed.

Hypothesis role_ok :
  Forall (λ row, assign_role_score (field cols row "Role") = Ok (role_points cols row)) R.

Lemma score_and_rank_country_raise :
  Exists (λ row, ∀ s, field cols row "Country" ≠ Str s) R →
  score_and_rank argsort {| columns := cols; rows := R |} = Raise AttributeError.
Proof.
  intros Hex. unfold score_and_rank.
  set (df0 := {| columns := cols; rows := R |}).
  assert (rectangular df0) as R0 by exact rect.
  assert (∀ c, c ∈ cols → getitem df0 c = Ok ((λ row, field cols row c) <$> R))
    as G0 by (intros c Hc; by apply (getitem_fields df0)).
  step (G0 "Role" has_role).
  step (series_apply_ok assign_role_score
          (λ row, field cols row "Role") (role_points cols) R role_ok).
  set (s1 := (λ row, Int (role_points cols row)) <$> R).
  assert (length s1 = length (rows df0)) as L1 by (unfold s1; by rewrite length_fmap).
  destruct (setitem_total df0 "role_score" s1 L1) as [df1 E1].
  destruct (setitem_spec df0 "role_score" s1 R0 L1 df1 E1)
    as (R1 & N1 & _ & O1 & I1 & _).
  step E1.
  rewrite (O1 "Company Size") by done.
  step (G0 "Company Size" has_size).
  step (series_apply_ok assign_company_size_score
          (λ row, field cols row "Company Size") (size_points cols) R).
  2:{ apply Forall_true. done. }
  set (s2 := (λ row, Int (size_points cols row)) <$> R).
  assert (length s2 = length (rows df1)) as L2
    by (unfold s2; by rewrite N1, length_fmap).
  destruct (setitem_total df1 "company_size_score" s2 L2) as [df2 E2].
  destruct (setitem_spec df1 "company_size_score" s2 R1 L2 df2 E2)
    as (R2 & N2 & _ & O2 & I2 & _).
  step E2.
  rewrite (O2 "Country"), (O1 "Country") by done.
  step (G0 "Country" has_country).
  rewrite series_apply_raise; [done| |].
  - intros c. destruct (lower_or_raise c) as [(s & _ & _ & Hc)|(_ & _ & Hc)]; auto.
  - apply Exists_fmap. eapply Exists_impl; [exact Hex|]. intros row Hrow. simpl.
    destruct (lower_or_raise (field cols row "Country"))
      as [(s & Hs & _)|(_ & _ & Hc)]; [by destruct (Hrow s)|done].
Qed.

Hypothesis country_ok :
  Forall (λ row,
    assign_country_score (field cols row "Country") = Ok (country_points cols row)) R.

(** Whether or not the table has columns named like the derived ones,
    the rows come back in the order of the indexer, without such
    columns. *)
Lemma score_and_rank_any :
  let keys := (λ row, the_final_score (role_points cols row)
                        (size_points cols row) (country_points cols row)) <$> R in
  ∀ idx, nargsort argsort keys false = Ok idx →
  Forall (λ i, (i < length R)%nat) idx →
  score_and_rank argsort {| columns := cols; rows := R |}
  = Ok (without_scores
          {| columns := cols; rows := (λ i, default [] (R !! i)) <$> idx |}).
Proof.
  intros keys idx Hnarg Hidx.
  destruct weights_lookup as (W1 & W2 & W3).
  unfold score_and_rank.
  set (df0 := {| columns := cols; rows := R |}).
  assert (rectangular df0) as R0 by exact rect.
  assert (∀ c, c ∈ cols → getitem df0 c = Ok ((λ row, field cols row c) <$> R))
    as G0 by (intros c Hc; by apply (getitem_fields df0)).
  (* role_score *)
  step (G0 "Role" has_role).
  step (series_apply_ok assign_role_score
          (λ row, field cols row "Role") (role_points cols) R role_ok).
  set (s1 := (λ row, Int (role_points cols row)) <$> R).
  assert (length s1 = length (rows df0)) as L1 by (unfold s1; by rewrite length_fmap).
  destruct (setitem_total df0 "role_score" s1 L1) as [df1 E1].
  destruct (setitem_spec df0 "role_score" s1 R0 L1 df1 E1)
    as (R1 & N1 & G1 & O1 & I1 & C1 & S1).
  step E1.
  (* company_size_score *)
  rewrite (O1 "Company Size") by done.
  step (G0 "Company Size" has_size).
  step (series_apply_ok assign_company_size_score
          (λ row, field cols row "Company Size") (size_points cols) R).
  2:{ apply Forall_true. done. }
  set (s2 := (λ row, Int (size_points cols row)) <$> R).
  assert (length s2 = length (rows df1)) as L2
    by (unfold s2; by rewrite N1, length_fmap).
  destruct (setitem_total df1 "company_size_score" s2 L2) as [df2 E2].
  destruct (setitem_spec df1 "company_size_score" s2 R1 L2 df2 E2)
    as (R2 & N2 & G2 & O2 & I2 & C2 & S2).
  step E2.
  (* country_score *)
  rewrite (O2 "Country"), (O1 "Country") by done.
  step (G0 "Country" has_country).
  step (series_apply_ok assign_country_score
          (λ row, field cols row "Country") (country_points cols) R country_ok).
  set (s3 := (λ row, Int (country_points cols row)) <$> R).
  assert (length s3 = length (rows df2)) as L3
    by (unfold s3; by rewrite N2, N1, length_fmap).
  destruct (setitem_total df2 "country_score" s3 L3) as [df3 E3].
  destruct (setitem_spec df2 "country_score" s3 R2 L3 df3 E3)
    as (R3 & N3 & G3 & O3 & I3 & C3 & S3).
  step E3.
  (* final_score *)
  step W1. step W2. step W3.
  rewrite (O3 "role_score"), (O2 "role_score") by done. step G1.
  unfold s1. step (series_mul_float_ok (role_points cols) Float64.lit_0_5 R).
  rewrite (O3 "company_size_score") by done. step G2.
  unfold s2. step (series_mul_float_ok (size_points cols) Float64.lit_0_3 R).
  step G3.
  unfold s3. step (series_mul_float_ok (country_points cols) Float64.lit_0_2 R).
  step (series_add_ok
          (λ row, Float64.mul (Float64.of_int (role_points cols row)) Float64.lit_0_5)
          (λ row, Float64.mul (Float64.of_int (size_points cols row)) Float64.lit_0_3)
          R).
  step (series_add_ok
          (λ row, Float64.add
                    (Float64.mul (Float64.of_int (role_points cols row)) Float64.lit_0_5)
                    (Float64.mul (Float64.of_int (size_points cols row)) Float64.lit_0_3))
          (λ row, Float64.mul (Float64.of_int (country_points cols row)) Float64.lit_0_2)
          R).
  change (λ x, Float (Float64.add
                 (Float64.add
                    (Float64.mul (Float64.of_int (role_points cols x)) Float64.lit_0_5)
                    (Float64.mul (Float64.of_int (size_points cols x)) Float64.lit_0_3))
                 (Float64.mul (Float64.of_int (country_points cols x)) Float64.lit_0_2)))
    with (λ x, Float (the_final_score (role_points cols x) (size_points cols x)
                                      (country_points cols x))).
  set (s4 := (λ row, Float (the_final_score (role_points cols row)
                              (size_points cols row) (country_points cols row))) <$> R).
  assert (length s4 = length (rows df3)) as L4
    by (unfold s4; by rewrite N3, N2, N1, length_fmap).
  destruct (setitem_total df3 "final_score" s4 L4) as [df4 E4].
  destruct (setitem_spec df3 "final_score" s4 R3 L4 df4 E4)
    as (R4 & N4 & G4 & O4 & I4 & C4 & S4).
  step E4.
  (* sort_values *)
  unfold sort_values. step G4.
  unfold s4.
  step (as_float64_ok
          (λ row, the_final_score (role_points cols row)
                    (size_points cols row) (country_points cols row)) R).
  fold keys. step Hnarg.
  assert (length (rows df4) = length R) as N by by rewrite N4, N3, N2, N1.
  rewrite take_rows_ok by by rewrite N.
  rewrite bind_Ok.
  rewrite drop_columns_without_scores.
  2:{ cbn [columns]. unfold score_columns.
      repeat apply Forall_cons_2; auto using Forall_nil_2. }
  f_equal.
  assert (without_scores df4 = without_scores df0) as Hws.
  { rewrite S4, S3, S2, S1; [done|compute_done..]. }
  unfold without_scores in *. cbn [columns rows] in *.
  injection Hws as Hc Hr. rewrite Hc. f_equal.
  rewrite <- !list_fmap_compose.
  apply Forall_fmap_ext_1. eapply Forall_impl; [exact Hidx|].
  intros i Hi. simpl. cbv beta in Hi.
  assert (select ((λ c, bool_decide (c ∉ score_columns)) <$> columns df4)
            <$> rows df4 !! i
          = select ((λ c, bool_decide (c ∉ score_columns)) <$> cols) <$> R !! i)
    as Hi'.
  { rewrite <- !list_lookup_fmap. by rewrite Hr. }
  destruct (rows df4 !! i) as [r4|] eqn:H4.
  - destruct (R !! i) as [r|] eqn:H0; simpl in *; [congruence|].
    apply lookup_ge_None in H0. lia.
  - apply lookup_ge_None in H4. lia.
Qed.
End ScoreAndRankAny.

(** * Columns named like the derived ones *)

Section FieldSelect.
Implicit Types (cols : list string) (row : list cell) (c : string).

Lemma field_nil_r cols c : field cols [] c = NaN.
Proof. unfold field. by destruct (list_find _ _) as [[i ?]|]. Qed.

Lemma field_cons c0 cols x row c :
  field (c0 :: cols) (x :: row) c
  = if decide (c0 = c) then x else field cols row c.
Proof.
  unfold field. cbn [list_find].
  destruct (decide (c0 = c)) as [->|Hne]; simpl; [done|].
  by destruct (list_find _ cols) as [[i ?]|].
Qed.

(** Dropping the columns named like a derived one leaves the other
    fields of a row as they were. *)
Lemma field_select cols row c :
  c ∉ score_columns →
  let keep := (λ c, bool_decide (c ∉ score_columns)) <$> cols in
  field (select keep cols) (select keep row) c = field cols row c.
Proof.
  intros Hc. revert row. induction cols as [|c0 cols IH]; intros row; simpl.
  - by destruct row.
  - destruct row as [|x row].
    + rewrite !field_nil_r. done.
    + rewrite field_cons. case_bool_decide as Hc0.
      * rewrite field_cons. destruct (decide (c0 = c)); [done|apply IH].
      * rewrite decide_False; [apply IH|]. intros ->. naive_solver.
Qed.

Lemma normalize_row_select cols row :
  let keep := (λ c, bool_decide (c ∉ score_columns)) <$> cols in
  normalize_row (select keep cols) (select keep row)
  = select keep (normalize_row cols row).
Proof.
  unfold normalize_row. revert row.
  induction cols as [|c0 cols IH]; intros row; simpl; [done|].
  destruct row as [|x row]; simpl.
  - by destruct (if bool_decide _ then _ else _).
  - case_bool_decide; simpl; by rewrite IH.
Qed.

Lemma score_of_select cols row :
  let keep := (λ c, bool_decide (c ∉ score_columns)) <$> cols in
  score_of (select keep cols) (select keep row) = score_of cols row.
Proof.
  intros keep. unfold score_of, row_final_score. subst keep.
  rewrite normalize_row_select.
  rewrite !field_select by compute_done. done.
Qed.
End FieldSelect.

Lemma sort_keys_without_scores (df : DataFrame) :
  sort_keys (without_scores df) = sort_keys df.
Proof.
  unfold sort_keys, without_scores. cbn [columns rows].
  rewrite <- list_fmap_compose. apply list_fmap_ext. intros _ row _. simpl.
  apply score_of_select.
Qed.

Lemma select_kept_elem_of (cols : list string) (c : string) :
  c ∈ select ((λ c, bool_decide (c ∉ score_columns)) <$> cols) cols
  ↔ c ∈ cols ∧ c ∉ score_columns.
Proof.
  induction cols as [|c0 cols IH]; simpl.
  - rewrite elem_of_nil. tauto.
  - case_bool_decide as Hc0; rewrite ?elem_of_cons, IH, ?elem_of_cons.
    + split; [intros [->|[? ?]]; tauto|tauto].
    + split; [tauto|]. intros [[->|?] ?]; tauto.
Qed.

Lemma select_kept_filter (cols : list string) :
  select ((λ c, bool_decide (c ∉ score_columns)) <$> cols) cols
  = filter (λ c, c ∉ score_columns) cols.
Proof.
  induction cols as [|c cols IH]; [done|]. csimpl.
  rewrite filter_cons. destruct (decide (c ∉ score_columns)) as [H|H].
  - rewrite bool_decide_eq_true_2 by done. by rewrite IH.
  - rewrite bool_decide_eq_false_2 by done. done.
Qed.

Lemma select_kept_NoDup (cols : list string) :
  NoDup cols →
  NoDup (select ((λ c, bool_decide (c ∉ score_columns)) <$> cols) cols).
Proof.
  induction 1 as [|c0 cols Hc0 _ IH]; simpl; [constructor|].
  case_bool_decide; [|done].
  constructor; [|done]. rewrite select_kept_elem_of. tauto.
Qed.

(** Without the columns named like the derived ones a table that can be
    scored is a well-formed input. *)
Lemma scorable_without_scores (df : DataFrame) :
  scorable df → well_formed (without_scores df).
Proof.
  intros [Hrect Hnd Hcols TR TC].
  unfold input_columns in Hcols. rewrite !Forall_cons in Hcols.
  destruct Hcols as (HR & HS & HC & _).
  unfold without_scores. split; cbn [columns rows].
  - apply Forall_fmap. eapply Forall_impl; [exact Hrect|]. intros row Hrow. simpl.
    apply select_length_labels; by rewrite length_fmap.
  - by apply select_kept_NoDup.
  - apply select_kept_elem_of. split; [done|compute_done].
  - apply select_kept_elem_of. split; [done|compute_done].
  - apply select_kept_elem_of. split; [done|compute_done].
  - apply Forall_fmap. eapply Forall_impl; [exact TR|]. intros row Hrow. simpl.
    by rewrite field_select by compute_done.
  - apply Forall_fmap. eapply Forall_impl; [exact TC|]. intros row Hrow. simpl.
    by rewrite field_select by compute_done.
  - apply Forall_forall. intros c Hc Hin.
    apply select_kept_elem_of in Hin as [_ Hn]. by apply Hn.
Qed.

Lemma well_formed_scorable (df : DataFrame) : well_formed df → scorable df.
Proof.
  intros [Hrect Hnd HR HS HC TR TC _]. split; try done.
  unfold input_columns. repeat apply Forall_cons_2; auto using Forall_nil_2.
Qed.

Lemma scorable_sort_keys (df : DataFrame) :
  scorable df → Forall is_score (sort_keys df).
Proof.
  intros Hs. rewrite <- sort_keys_without_scores.
  by apply sort_keys_scores, scorable_without_scores.
Qed.

Lemma scorable_sorts (argsort : list spec_float → list nat) (df : DataFrame) :
  scorable df →
  argsort = Npysort.argsort ∨ sorts argsort (argsort_input df) →
  sorts argsort (argsort_input df).
Proof.
  intros Hs [->|H]; [|done]. apply npysort_sorts.
  unfold argsort_input. by apply Forall_reverse, scorable_sort_keys.
Qed.

Section Scorable.
Variable argsort : list spec_float → list nat.
Variable df : DataFrame.
Hypothesis ok : scorable df.

(** [process_contacts] on any table that can be scored. *)
Lemma process_contacts_scorable :
  Forall (λ j, (j < length (rows df))%nat) (argsort (argsort_input df)) →
  process_contacts argsort df = Ok (without_scores (ranked argsort df)).
Proof.
  intros Hrange. pose proof ok as [Hrect Hnd Hcols TR TC].
  unfold input_columns in Hcols. rewrite !Forall_cons in Hcols.
  destruct Hcols as (HR & HS & HC & _).
  rewrite process_contacts_stages.
  rewrite fill_missing_ok by done. rewrite bind_Ok.
  set (cols := columns df) in *.
  set (R := normalize_row cols <$> rows df).
  assert (Forall (λ row,
            let row' := normalize_row cols row in
            assign_role_score (field cols row' "Role") = Ok (role_points cols row')
            ∧ assign_country_score (field cols row' "Country")
              = Ok (country_points cols row')
            ∧ score_of cols row
              = the_final_score (role_points cols row') (size_points cols row')
                  (country_points cols row')) (rows df)) as Hrows.
  { unfold rectangular in Hrect. rewrite Forall_forall in Hrect, TR, TC.
    apply Forall_forall. intros row Hrow.
    destruct (normalized_scores cols row (Hrect _ Hrow) HR HC (TR _ Hrow) (TC _ Hrow))
      as (H1 & _ & H3 & _ & H5). done. }
  assert ((λ row, the_final_score (role_points cols row) (size_points cols row)
                    (country_points cols row)) <$> R
          = sort_keys df) as Hkeys.
  { unfold R, sort_keys. rewrite <- list_fmap_compose.
    apply Forall_fmap_ext_1. eapply Forall_impl; [exact Hrows|].
    intros row (_ & _ & H). simpl. symmetry. exact H. }
  rewrite (score_and_rank_any argsort cols R)
    with (idx := mirror_indexer argsort (sort_keys df)).
  - done.
  - apply Forall_fmap. eapply Forall_impl; [exact Hrect|].
    intros row Hlen. simpl. by apply normalize_row_length.
  - done.
  - done.
  - done.
  - apply Forall_fmap. eapply Forall_impl; [exact Hrows|]. by intros row (H & _).
  - apply Forall_fmap. eapply Forall_impl; [exact Hrows|]. by intros row (_ & H & _).
  - rewrite Hkeys. apply nargsort_descending.
    + eapply Forall_impl; [exact (scorable_sort_keys df ok)|]. apply is_score_not_nan.
    + by rewrite sort_keys_length.
  - unfold R, mirror_indexer. rewrite length_fmap.
    apply Forall_reverse, Forall_fmap.
    eapply Forall_impl; [exact Hrange|]. intros j Hj. cbv beta in Hj. simpl.
    rewrite sort_keys_length. lia.
Qed.

Lemma ranked_without_scores :
  ranked argsort (without_scores df) = without_scores (ranked argsort df).
Proof.
  unfold ranked. rewrite sort_keys_without_scores.
  unfold without_scores. cbn [columns rows].
  f_equal.
  rewrite <- (list_fmap_compose
                (λ i, default [] ((normalize_row (columns df) <$> rows df) !! i))).
  apply list_fmap_ext. intros _ i _. simpl.
  rewrite !list_lookup_fmap.
  destruct (rows df !! i) as [row|]; simpl.
  - apply normalize_row_select.
  - by rewrite select_nil_r.
Qed.
End Scorable.

(** * Cells that are not text *)

Lemma normalize_not_text (label : string) (x : cell) :
  ¬ is_text x → ∀ s, normalize_cell label x ≠ Str s.
Proof.
  intros Hx s. unfold normalize_cell.
  destruct x as [t|z|f]; simpl in *.
  - by destruct Hx.
  - by destruct (default_for label).
  - destruct (Float64.is_nan f); [by destruct Hx|]. by destruct (default_for label).
Qed.

Section NotText.
Variable argsort : list spec_float → list nat.
Variable df : DataFrame.
Hypothesis rect : rectangular df.
Hypothesis nodup : NoDup (columns df).
Hypothesis present : Forall (λ c, c ∈ columns df) input_columns.

Lemma score_and_rank_not_text :
  ¬ (Forall (λ row, is_text (field (columns df) row "Role")) (rows df)
     ∧ Forall (λ row, is_text (field (columns df) row "Country")) (rows df)) →
  score_and_rank argsort
    {| columns := columns df; rows := normalize_row (columns df) <$> rows df |}
  = Raise AttributeError.
Proof.
  intros Hnot.
  pose proof present as Hcols. unfold input_columns in Hcols.
  rewrite !Forall_cons in Hcols. destruct Hcols as (HR & HS & HC & _).
  set (cols := columns df) in *.
  assert (Forall (λ row, length row = length cols) (normalize_row cols <$> rows df))
    as Hrect.
  { apply Forall_fmap. eapply Forall_impl; [exact rect|].
    intros row Hlen. simpl. by apply normalize_row_length. }
  destruct (decide (Forall (λ row, is_text (field cols row "Role")) (rows df)))
    as [TR|TR].
  - assert (¬ Forall (λ row, is_text (field cols row "Country")) (rows df)) as TC
      by tauto.
    apply score_and_rank_country_raise; try done.
    + apply Forall_fmap. unfold rectangular in rect.
      rewrite Forall_forall in rect, TR. apply Forall_forall. intros row Hrow. simpl.
      destruct (normalize_text cols row (rect _ Hrow) "Role" "unknown" eq_refl
                  (TR _ Hrow) HR) as [s Hs].
      unfold role_points. by rewrite Hs.
    + apply not_Forall_Exists in TC; [|apply _].
      apply Exists_fmap. apply Exists_exists in TC as (row & Hrow & Hno).
      apply Exists_exists. exists row. split; [done|]. simpl.
      unfold rectangular in rect. rewrite Forall_forall in rect.
      rewrite (field_normalize cols row (rect _ Hrow)) by done.
      by apply normalize_not_text.
  - apply score_and_rank_role_raise; try done.
    apply not_Forall_Exists in TR; [|apply _].
    apply Exists_fmap. apply Exists_exists in TR as (row & Hrow & Hno).
    apply Exists_exists. exists row. split; [done|]. simpl.
    unfold rectangular in rect. rewrite Forall_forall in rect.
    rewrite (field_normalize cols row (rect _ Hrow)) by done.
    by apply normalize_not_text.
Qed.

Lemma fill_missing_present :
  fill_missing df
  = Ok {| columns := columns df; rows := normalize_row (columns df) <$> rows df |}.
Proof.
  pose proof present as Hcols. unfold input_columns in Hcols.
  rewrite !Forall_cons in Hcols. destruct Hcols as (HR & HS & HC & _).
  by apply fill_missing_ok.
Qed.
End NotText.

(** X1: a frame that lacks one of the three input columns makes
    [process_contacts] raise [KeyError] for the first one it lacks, in
    the order [Role], [Company Size], [Country]. *)
Theorem process_contacts_missing_column
    (argsort : list spec_float → list nat) (df : DataFrame) (i : nat) (c : string) :
  list_find (λ c, c ∉ columns df) input_columns = Some (i, c) →
  process_contacts argsort df = Raise (KeyError c).
Proof.
  intros Hfind. rewrite process_contacts_stages.
  pose proof (fill_missing_cases df) as H. rewrite Hfind in H. by rewrite H.
Qed.

Lemma process_contacts_missing_column_witness :
  process_contacts Npysort.argsort
    {| columns := ["Name"; "Role"; "Country"];
       rows := [ [Str "Ana"; Str "CEO"; Str "Spain"] ] |}
  = Raise (KeyError "Company Size").
Proof.
  apply (process_contacts_missing_column Npysort.argsort _ 1 "Company Size").
  reflexivity.
Defined.

(** X2: when the three input columns are there, a cell of [Role] or
    [Country] that is neither text nor missing (a number) makes
    [process_contacts] raise [AttributeError]. *)
Theorem process_contacts_not_text
    (argsort : list spec_float → list nat) (df : DataFrame) (row : list cell) :
  rectangular df → NoDup (columns df) →
  Forall (λ c, c ∈ columns df) input_columns →
  row ∈ rows df →
  ¬ is_text (field (columns df) row "Role")
  ∨ ¬ is_text (field (columns df) row "Country") →
  process_contacts argsort df = Raise AttributeError.
Proof.
  intros Hrect Hnd Hcols Hrow Hno. rewrite process_contacts_stages.
  rewrite fill_missing_present by done. rewrite bind_Ok.
  apply score_and_rank_not_text; try done.
  intros [TR TC]. rewrite Forall_forall in TR, TC.
  destruct Hno as [Hno|Hno]; apply Hno; auto.
Qed.

Lemma process_contacts_not_text_witness :
  process_contacts Npysort.argsort
    {| columns := header;
       rows := [ [Str "Ana"; Str "CEO"; Str "11-50"; Str "Spain"];
                 [Str "Bob"; Int 7; Str "11-50"; Str "Spain"] ] |}
  = Raise AttributeError.
Proof.
  apply (process_contacts_not_text Npysort.argsort _
           [Str "Bob"; Int 7; Str "11-50"; Str "Spain"]).
  - compute_done.
  - compute_done.
  - compute_done.
  - compute_done.
  - left. simpl. tauto.
Defined.

(** X3: with the default sort, [process_contacts] returns a frame
    exactly for the tables that have the three input columns with text
    or nothing in [Role] and [Country]; otherwise it raises [KeyError]
    for a missing input column or [AttributeError], and nothing else. *)
Theorem process_contacts_outcome (df : DataFrame) :
  rectangular df → NoDup (columns df) →
  ((∃ out, process_contacts Npysort.argsort df = Ok out) ↔ scorable df)
  ∧ (∀ e, process_contacts Npysort.argsort df = Raise e →
       e = AttributeError
       ∨ (∃ c, c ∈ input_columns ∧ (c ∉ columns df) ∧ e = KeyError c)).
Proof.
  intros Hrect Hnd.
  assert (scorable df → ∃ out, process_contacts Npysort.argsort df = Ok out) as Hok.
  { intros Hs. eexists. apply process_contacts_scorable; [done|].
    rewrite <- sort_keys_length.
    apply argsort_in_range, scorable_sorts; [done|by left]. }
  pose proof (fill_missing_cases df) as Hfill.
  destruct (list_find (λ c, c ∉ columns df) input_columns) as [[i c]|] eqn:Hfind.
  - pose proof Hfind as (Hi & Hc & _)%list_find_Some.
    assert (process_contacts Npysort.argsort df = Raise (KeyError c)) as Hraise
      by by rewrite process_contacts_stages, Hfill.
    split.
    + split; [intros [out Hout]; congruence|].
      intros [_ _ Hcols _ _]. rewrite Forall_forall in Hcols.
      destruct Hc. by eapply Hcols, list_elem_of_lookup_2.
    + intros e He. right. exists c. split; [by eapply list_elem_of_lookup_2|].
      split; [done|congruence].
  - apply list_find_None in Hfind.
    assert (Forall (λ c, c ∈ columns df) input_columns) as Hcols.
    { eapply Forall_impl; [exact Hfind|]. intros c Hc. simpl in Hc.
      by apply dec_stable. }
    destruct (decide
      (Forall (λ row, is_text (field (columns df) row "Role")) (rows df)
       ∧ Forall (λ row, is_text (field (columns df) row "Country")) (rows df)))
      as [[TR TC]|Hno].
    + assert (scorable df) as Hs by done.
      destruct (Hok Hs) as [out Hout].
      split; [split; [done|by eexists]|]. intros e He. congruence.
    + assert (process_contacts Npysort.argsort df = Raise AttributeError) as Hraise.
      { rewrite process_contacts_stages.
        rewrite fill_missing_present by done. rewrite bind_Ok.
        by apply score_and_rank_not_text. }
      split.
      * split; [intros [out Hout]; congruence|].
        intros [_ _ _ TR TC]. by destruct Hno.
      * intros e He. left. congruence.
Qed.

Lemma process_contacts_outcome_witness :
  (∃ out, process_contacts Npysort.argsort sample_frame = Ok out)
  ↔ scorable sample_frame.
Proof.
  refine (proj1 (process_contacts_outcome sample_frame _ _)); compute_done.
Defined.

(** X4: columns of the input that carry the name of a derived score
    column are overwritten and dropped: the result is the one for the
    table without them, whose labels are the other labels of the input. *)
Theorem process_contacts_ignores_score_columns
    (argsort : list spec_float → list nat) (df : DataFrame) :
  scorable df →
  argsort = Npysort.argsort ∨ sorts argsort (argsort_input df) →
  ∃ out,
    process_contacts argsort df = Ok out
    ∧ process_contacts argsort (without_scores df) = Ok out
    ∧ columns out = filter (λ c, c ∉ score_columns) (columns df).
Proof.
  intros Hs Hsort. apply (scorable_sorts argsort df Hs) in Hsort.
  pose proof (argsort_in_range argsort (sort_keys df) Hsort) as Hrange.
  exists (without_scores (ranked argsort df)). split; [|split].
  - apply process_contacts_scorable; [done|]. by rewrite <- sort_keys_length.
  - rewrite <- ranked_without_scores.
    apply process_contacts_ok; [by apply scorable_without_scores|].
    unfold argsort_input. rewrite sort_keys_without_scores.
    unfold without_scores. cbn [rows]. rewrite length_fmap.
    by rewrite <- sort_keys_length.
  - unfold without_scores, ranked. cbn [columns]. apply select_kept_filter.
Qed.

Lemma process_contacts_ignores_score_columns_witness :
  ∃ out,
    process_contacts Npysort.argsort
      {| columns := ["Role"; "final_score"; "Company Size"; "Country"];
         rows := [ [Str "CEO"; Str "n/a"; Str "11-50"; Str "Spain"] ] |} = Ok out
    ∧ process_contacts Npysort.argsort
        (without_scores
           {| columns := ["Role"; "final_score"; "Company Size"; "Country"];
              rows := [ [Str "CEO"; Str "n/a"; Str "11-50"; Str "Spain"] ] |}) = Ok out
    ∧ columns out
      = filter (λ c, c ∉ score_columns)
          ["Role"; "final_score"; "Company Size"; "Country"].
Proof.
  apply (process_contacts_ignores_score_columns Npysort.argsort
           {| columns := ["Role"; "final_score"; "Company Size"; "Country"];
              rows := [ [Str "CEO"; Str "n/a"; Str "11-50"; Str "Spain"] ] |}).
  - split; compute_done.
  - left. reflexivity.
Defined.

(** * The ranked frame *)

Lemma normalize_cell_idemp (label : string) (x : cell) :
  normalize_cell label (normalize_cell label x) = normalize_cell label x.
Proof.
  unfold normalize_cell. destruct (default_for label) as [d|]; [|done].
  by destruct (isna x) eqn:Hx; [|rewrite Hx].
Qed.

Lemma normalize_row_idemp (cols : list string) (row : list cell) :
  normalize_row cols (normalize_row cols row) = normalize_row cols row.
Proof.
  unfold normalize_row. revert row.
  induction cols as [|c cols IH]; intros [|x row]; simpl; try done.
  by rewrite normalize_cell_idemp, IH.
Qed.

Lemma StronglySorted_seq_rel (R : relation nat) (a n : nat) :
  (∀ i j, (a ≤ i)%nat → (i < j)%nat → (j < a + n)%nat → R i j) →
  StronglySorted R (seq a n).
Proof.
  revert a. induction n as [|n IH]; intros a H; simpl; constructor.
  - apply IH. intros i j ???. apply H; lia.
  - apply Forall_seq. intros j Hj. apply H; lia.
Qed.

Section Ranked.
Variable argsort : list spec_float → list nat.
Variable df : DataFrame.
Hypothesis wf : well_formed df.
Hypothesis sorted : sorts argsort (argsort_input df).

Lemma ranked_no_missing : no_missing (ranked argsort df).
Proof.
  unfold no_missing. rewrite (ranked_Permutation argsort df sorted).
  cbn [columns ranked]. apply Forall_fmap, Forall_true. intros row. simpl.
  apply normalize_row_idemp.
Qed.

(** The ranked frame is again a well-formed input. *)
Lemma ranked_well_formed : well_formed (ranked argsort df).
Proof.
  pose proof wf as [Hrect Hnd HR HS HC TR TC Hfree].
  rewrite Forall_forall in Hrect, TR, TC.
  split; try done.
  - rewrite (ranked_Permutation argsort df sorted). cbn [columns ranked].
    apply Forall_fmap, Forall_forall. intros row Hrow. simpl.
    apply normalize_row_length; auto.
  - rewrite (ranked_Permutation argsort df sorted). cbn [columns ranked].
    apply Forall_fmap, Forall_forall. intros row Hrow. simpl.
    destruct (normalize_text (columns df) row (Hrect _ Hrow) "Role" "unknown"
                eq_refl (TR _ Hrow) HR) as [s ->]. done.
  - rewrite (ranked_Permutation argsort df sorted). cbn [columns ranked].
    apply Forall_fmap, Forall_forall. intros row Hrow. simpl.
    destruct (normalize_text (columns df) row (Hrect _ Hrow) "Country" "unknown"
                eq_refl (TC _ Hrow) HC) as [s ->]. done.
Qed.

(** The final scores of the ranked rows are the sort keys, in the
    order of the indexer. *)
Lemma ranked_scores :
  row_final_score (columns df) <$> rows (ranked argsort df)
  = Ok <$> (key_at (sort_keys df) <$> mirror_indexer argsort (sort_keys df)).
Proof.
  unfold ranked. cbn [rows]. rewrite <- !list_fmap_compose.
  apply Forall_fmap_ext_1.
  pose proof (mirror_in_range argsort (sort_keys df) sorted) as Hrange.
  rewrite sort_keys_length in Hrange.
  eapply Forall_impl; [exact Hrange|]. intros i Hi. simpl.
  by destruct (ranked_row_score df wf i Hi) as [-> _].
Qed.

Lemma ranked_sort_keys :
  sort_keys (ranked argsort df)
  = key_at (sort_keys df) <$> mirror_indexer argsort (sort_keys df).
Proof.
  unfold sort_keys at 1. unfold ranked. cbn [columns rows].
  rewrite <- !list_fmap_compose.
  apply Forall_fmap_ext_1.
  pose proof (mirror_in_range argsort (sort_keys df) sorted) as Hrange.
  rewrite sort_keys_length in Hrange.
  eapply Forall_impl; [exact Hrange|]. intros i Hi. simpl.
  unfold score_of.
  destruct (ranked_row_score df wf i Hi) as [Hscore _].
  rewrite list_lookup_fmap in *.
  destruct (rows df !! i) as [row|] eqn:Hrow; simpl in *.
  - by rewrite normalize_row_idemp, Hscore.
  - apply lookup_ge_None in Hrow. lia.
Qed.

Lemma ranked_keys_descending i j :
  (i < j)%nat → (j < length (rows df))%nat →
  points_at (sort_keys (ranked argsort df)) j
  ≤ points_at (sort_keys (ranked argsort df)) i.
Proof.
  intros Hij Hj. rewrite ranked_sort_keys.
  pose proof (nargsort_desc argsort (sort_keys df) (sort_keys_scores df wf) sorted)
    as Hd.
  pose proof (mirror_Permutation argsort (sort_keys df) sorted) as Hp.
  apply Permutation_length in Hp. rewrite length_seq, sort_keys_length in Hp.
  destruct (lookup_lt_is_Some_2 (mirror_indexer argsort (sort_keys df)) i)
    as [a Ha]; [lia|].
  destruct (lookup_lt_is_Some_2 (mirror_indexer argsort (sort_keys df)) j)
    as [b Hb]; [lia|].
  pose proof (StronglySorted_lookup _ _ _ _ _ _ Hd Hij Ha Hb) as Hab.
  unfold desc in Hab.
  assert (∀ k c, mirror_indexer argsort (sort_keys df) !! k = Some c →
            points_at (key_at (sort_keys df) <$> mirror_indexer argsort (sort_keys df)) k
            = points_at (sort_keys df) c) as Hpt.
  { intros k c Hk. unfold points_at at 1. unfold key_at at 1.
    by rewrite list_lookup_fmap, Hk. }
  by rewrite (Hpt i a Ha), (Hpt j b Hb).
Qed.
End Ranked.

(** A stable descending sort of keys that are already in descending
    order moves nothing. *)
Lemma mirror_indexer_descending
    (argsort : list spec_float → list nat) (keys : list spec_float) :
  Forall is_score keys →
  sorts argsort (reverse keys) → stable_on argsort (reverse keys) →
  (∀ i j, (i < j)%nat → (j < length keys)%nat →
          points_at keys j ≤ points_at keys i) →
  mirror_indexer argsort keys = seq 0 (length keys).
Proof.
  intros Hks Hs Hst Hdesc.
  apply (StronglySorted_unique_strong (desc_stable keys)).
  - intros x y _ _ Hxy Hyx. unfold desc_stable in *. lia.
  - by apply nargsort_desc_stable.
  - apply StronglySorted_seq_rel. intros i j _ Hij Hj. unfold desc_stable.
    specialize (Hdesc i j Hij ltac:(lia)). lia.
  - by apply mirror_Permutation.
Qed.

Lemma ranked_identity (argsort : list spec_float → list nat) (df : DataFrame) :
  no_missing df →
  mirror_indexer argsort (sort_keys df) = seq 0 (length (rows df)) →
  ranked argsort df = df.
Proof.
  intros Hno Hidx. unfold ranked. rewrite Hidx.
  assert (normalize_row (columns df) <$> rows df = rows df) as ->.
  { rewrite <- (list_fmap_id (rows df)) at 2. by apply Forall_fmap_ext_1. }
  rewrite fmap_lookup_seq. by destruct df.
Qed.

(** X5: the frame [process_contacts] returns for a well-formed input is
    itself a well-formed input, and none of its [Role], [Company Size]
    and [Country] cells is missing. *)
Theorem ranking_output_filled
    (argsort : list spec_float → list nat) (df : DataFrame) :
  well_formed df →
  argsort = Npysort.argsort ∨ sorts argsort (argsort_input df) →
  ∃ out, process_contacts argsort df = Ok out
    ∧ well_formed out
    ∧ no_missing out
    ∧ Forall (λ row, ∀ c, c ∈ input_columns → isna (field (columns out) row c) = false)
        (rows out).
Proof.
  intros wf Hs. apply (sorts_either argsort df wf) in Hs.
  exists (ranked argsort df).
  split; [by apply process_contacts_ranked|].
  split; [by apply ranked_well_formed|].
  split; [by apply ranked_no_missing|].
  rewrite (ranked_Permutation argsort df Hs). cbn [columns ranked].
  pose proof wf as [Hrect _ HR HS HC _ _ _]. rewrite Forall_forall in Hrect.
  apply Forall_fmap, Forall_forall. intros row Hrow c Hc. simpl.
  unfold input_columns in Hc.
  assert (c ∈ columns df ∧ ∃ d, default_for c = Some d) as [Hin [d Hd]].
  { elem_cases Hc; (split; [done|by eexists]). }
  rewrite (field_normalize (columns df) row (Hrect _ Hrow)) by done.
  unfold normalize_cell. rewrite Hd.
  by destruct (isna (field (columns df) row c)) eqn:Hna.
Qed.

Lemma ranking_output_filled_witness :
  ∃ out, process_contacts Npysort.argsort frame_without_role = Ok out
    ∧ well_formed out
    ∧ no_missing out
    ∧ Forall (λ row, ∀ c, c ∈ input_columns → isna (field (columns out) row c) = false)
        (rows out).
Proof.
  apply (ranking_output_filled Npysort.argsort frame_without_role).
  - split; compute_done.
  - left. reflexivity.
Defined.

(** X7: ranking a ranked frame again changes nothing when the second
    sort is stable on the keys of that frame. *)
Theorem ranking_again
    (argsort argsort' : list spec_float → list nat) (df out : DataFrame) :
  well_formed df →
  argsort = Npysort.argsort ∨ sorts argsort (argsort_input df) →
  process_contacts argsort df = Ok out →
  sorts argsort' (argsort_input out) →
  stable_on argsort' (argsort_input out) →
  process_contacts argsort' out = Ok out.
Proof.
  intros wf Hs Hout Hs' Hst'. apply (sorts_either argsort df wf) in Hs.
  rewrite (process_contacts_ranked argsort df wf Hs) in Hout.
  injection Hout as <-.
  pose proof (ranked_well_formed argsort df wf Hs) as wf'.
  pose proof (ranked_Permutation argsort df Hs) as Hp.
  apply Permutation_length in Hp. rewrite length_fmap in Hp.
  rewrite (process_contacts_ranked argsort' _ wf' Hs'). f_equal.
  apply ranked_identity; [by apply ranked_no_missing|].
  rewrite <- sort_keys_length.
  apply mirror_indexer_descending; [by apply sort_keys_scores|done|done|].
  intros i j Hij Hj. apply ranked_keys_descending; [done|done|done|].
  rewrite sort_keys_length in Hj. lia.
Qed.

Lemma ranking_again_witness :
  process_contacts Npysort.argsort (ranked Npysort.argsort sample_frame)
  = Ok (ranked Npysort.argsort sample_frame).
Proof.
  apply (ranking_again Npysort.argsort Npysort.argsort sample_frame).
  - split; compute_done.
  - left. reflexivity.
  - vm_compute. reflexivity.
  - compute_done.
  - compute_done.
Defined.

(** X8: two well-formed frames with the same columns and the same rows
    in any order, ranked with any two sorting routines, give the same
    rows and, position by position, the same final scores: the order of
    the input and the routine matter among equal scores only. *)
Theorem ranking_scores_unique
    (argsort1 argsort2 : list spec_float → list nat) (df1 df2 : DataFrame) :
  well_formed df1 → well_formed df2 →
  columns df1 = columns df2 → rows df1 ≡ₚ rows df2 →
  argsort1 = Npysort.argsort ∨ sorts argsort1 (argsort_input df1) →
  argsort2 = Npysort.argsort ∨ sorts argsort2 (argsort_input df2) →
  ∃ out1 out2,
    process_contacts argsort1 df1 = Ok out1
    ∧ process_contacts argsort2 df2 = Ok out2
    ∧ rows out1 ≡ₚ rows out2
    ∧ row_final_score (columns out1) <$> rows out1
      = row_final_score (columns out2) <$> rows out2.
Proof.
  intros wf1 wf2 Hcols Hrows Hs1 Hs2.
  apply (sorts_either argsort1 df1 wf1) in Hs1.
  apply (sorts_either argsort2 df2 wf2) in Hs2.
  exists (ranked argsort1 df1), (ranked argsort2 df2).
  split; [by apply process_contacts_ranked|].
  split; [by apply process_contacts_ranked|].
  split.
  { rewrite (ranked_Permutation argsort1 df1 Hs1), (ranked_Permutation argsort2 df2 Hs2).
    by rewrite Hcols, Hrows. }
  cbn [columns ranked].
  rewrite (ranked_scores argsort1 df1 wf1 Hs1), (ranked_scores argsort2 df2 wf2 Hs2).
  f_equal.
  assert (∀ argsort df, well_formed df → sorts argsort (argsort_input df) →
            key_at (sort_keys df) <$> mirror_indexer argsort (sort_keys df)
            ≡ₚ sort_keys df) as Hperm.
  { intros argsort df wf Hs.
    rewrite (mirror_Permutation argsort (sort_keys df) Hs).
    change (key_at (sort_keys df)) with (λ j, default S754_nan (sort_keys df !! j)).
    by rewrite (fmap_lookup_seq S754_nan (sort_keys df)). }
  assert (∀ argsort df, well_formed df → sorts argsort (argsort_input df) →
            StronglySorted (λ f g, whole g ≤ whole f)
              (key_at (sort_keys df) <$> mirror_indexer argsort (sort_keys df)))
    as Hsorted.
  { intros argsort df wf Hs.
    eapply StronglySorted_fmap;
      [|exact (nargsort_desc argsort (sort_keys df) (sort_keys_scores df wf) Hs)].
    intros x y Hxy. exact Hxy. }
  apply (StronglySorted_unique_strong (λ f g, whole g ≤ whole f)).
  - intros f g Hf Hg Hfg Hgf.
    rewrite (Hperm argsort1 df1 wf1 Hs1) in Hf.
    rewrite (Hperm argsort2 df2 wf2 Hs2) in Hg.
    pose proof (sort_keys_scores df1 wf1) as S1.
    pose proof (sort_keys_scores df2 wf2) as S2.
    rewrite Forall_forall in S1, S2.
    apply is_score_eq; [by apply S1|by apply S2|lia].
  - by apply Hsorted.
  - by apply Hsorted.
  - rewrite (Hperm argsort1 df1 wf1 Hs1), (Hperm argsort2 df2 wf2 Hs2).
    unfold sort_keys. by rewrite Hcols, Hrows.
Qed.

Lemma ranking_scores_unique_witness :
  ∃ out1 out2,
    process_contacts Npysort.argsort sample_frame = Ok out1
    ∧ process_contacts Npysort.argsort
        {| columns := columns sample_frame; rows := reverse (rows sample_frame) |}
      = Ok out2
    ∧ rows out1 ≡ₚ rows out2
    ∧ row_final_score (columns out1) <$> rows out1
      = row_final_score (columns out2) <$> rows out2.
Proof.
  apply (ranking_scores_unique Npysort.argsort Npysort.argsort sample_frame
           {| columns := columns sample_frame; rows := reverse (rows sample_frame) |}).
  - split; compute_done.
  - split; compute_done.
  - reflexivity.
  - cbn [rows]. symmetry. apply reverse_Permutation.
  - left. reflexivity.
  - left. reflexivity.
Defined.

(** * Order of the weighted sums *)





(** X10: no entry of the score tables is out of reach: every key of
    [ROLE_SCORES] and [COMPANY_SIZE_SCORES] gets its own score, every
    country of tier 1 gets 100 and every country of tier 2 gets 80 (the
    keys are lower-case, and the tiers have no country in common). *)
Theorem table_entries_reachable (k : string) :
  (∀ z, ROLE_SCORES !! k = Some z → assign_role_score (Str k) = Ok z)
  ∧ (∀ z, COMPANY_SIZE_SCORES !! k = Some z →
          assign_company_size_score (Str k) = Ok z)
  ∧ (k ∈ tier_1 → assign_country_score (Str k) = Ok 100)
  ∧ (k ∈ tier_2 → assign_country_score (Str k) = Ok 80).
Proof.
  split; [|split; [|split]].
  - intros z Hk. unfold ROLE_SCORES in Hk.
    apply elem_of_list_to_map_2 in Hk.
    repeat (apply elem_of_cons in Hk as [[= -> ->]|Hk]; [reflexivity|]).
    by apply elem_of_nil in Hk.
  - intros z Hk. unfold assign_company_size_score. simpl. by rewrite Hk.
  - intros Hk. unfold tier_1 in Hk. rewrite !elem_of_union, !elem_of_singleton in Hk.
    destruct Hk as [[[[[->| ->]| ->]| ->]| ->]| ->]; reflexivity.
  - intros Hk. unfold tier_2 in Hk. rewrite !elem_of_union, !elem_of_singleton in Hk.
    destruct Hk as [[[->| ->]| ->]| ->]; reflexivity.
Qed.

Lemma table_entries_reachable_witness :
  assign_role_score (Str "ceo") = Ok 100
  ∧ assign_company_size_score (Str "11-50") = Ok 30
  ∧ assign_country_score (Str "india") = Ok 80.
Proof.
  split; [apply (table_entries_reachable "ceo"); reflexivity|].
  split; [apply (table_entries_reachable "11-50"); reflexivity|].
  apply (table_entries_reachable "india"). compute_done.
Defined.



(** * The other columns *)

(** The sort key of a row is a function of its three scored cells. *)
Lemma score_of_scored_fields (cols cols' : list string) (row row' : list cell) :
  length row = length cols → length row' = length cols' →
  Forall (λ c, c ∈ cols) input_columns → Forall (λ c, c ∈ cols') input_columns →
  scored_fields cols row = scored_fields cols' row' →
  score_of cols row = score_of cols' row'.
Proof.
  intros Hlen Hlen' Hin Hin' Heq.
  unfold input_columns in Hin, Hin'. rewrite !Forall_cons in Hin, Hin'.
  destruct Hin as (HR & HS & HC & _). destruct Hin' as (HR' & HS' & HC' & _).
  unfold scored_fields, input_columns in Heq. simpl in Heq.
  injection Heq as ER ES EC.
  unfold score_of, row_final_score.
  rewrite !(field_normalize cols row Hlen) by done.
  rewrite !(field_normalize cols' row' Hlen') by done.
  by rewrite ER, ES, EC.
Qed.

Lemma sort_keys_scored_fields (df1 df2 : DataFrame) :
  well_formed df1 → well_formed df2 →
  scored_fields (columns df1) <$> rows df1 = scored_fields (columns df2) <$> rows df2 →
  sort_keys df1 = sort_keys df2.
Proof.
  intros wf1 wf2 Heq.
  pose proof (well_formed_scorable df1 wf1) as [R1 _ I1 _ _].
  pose proof (well_formed_scorable df2 wf2) as [R2 _ I2 _ _].
  unfold rectangular in R1, R2. unfold sort_keys.
  revert R1 R2 Heq. generalize (rows df1) (rows df2). intros l1.
  induction l1 as [|row l1 IH]; intros [|row' l2] R1 R2 Heq; simplify_eq/=; [done|].
  apply Forall_cons_1 in R1 as [L1 R1]. apply Forall_cons_1 in R2 as [L2 R2].
  f_equal; [|by apply IH].
  apply score_of_scored_fields; try done.
  unfold scored_fields, input_columns. simpl. by rewrite H, H1, H2.
Qed.

(** X12: the order of the contacts depends on their [Role],
    [Company Size] and [Country] cells only: two well-formed frames that
    agree on these cells, row by row, are put in order by one and the
    same permutation of their rows, whatever their other columns hold. *)
Theorem ranking_ignores_other_columns
    (argsort : list spec_float → list nat) (df1 df2 : DataFrame) :
  well_formed df1 → well_formed df2 →
  scored_fields (columns df1) <$> rows df1 = scored_fields (columns df2) <$> rows df2 →
  argsort = Npysort.argsort ∨ sorts argsort (argsort_input df1) →
  ∃ idx out1 out2,
    process_contacts argsort df1 = Ok out1
    ∧ process_contacts argsort df2 = Ok out2
    ∧ idx ≡ₚ seq 0 (length (rows df1))
    ∧ rows out1
      = (λ i, default [] ((normalize_row (columns df1) <$> rows df1) !! i)) <$> idx
    ∧ rows out2
      = (λ i, default [] ((normalize_row (columns df2) <$> rows df2) !! i)) <$> idx.
Proof.
  intros wf1 wf2 Heq Hs. apply (sorts_either argsort df1 wf1) in Hs.
  pose proof (sort_keys_scored_fields df1 df2 wf1 wf2 Heq) as Hkeys.
  assert (sorts argsort (argsort_input df2)) as Hs2.
  { unfold argsort_input in *. by rewrite <- Hkeys. }
  exists (mirror_indexer argsort (sort_keys df1)),
         (ranked argsort df1), (ranked argsort df2).
  split; [by apply process_contacts_ranked|].
  split; [by apply process_contacts_ranked|].
  split; [|split].
  - rewrite <- sort_keys_length. by apply mirror_Permutation.
  - done.
  - unfold ranked. cbn [rows]. by rewrite Hkeys.
Qed.

Lemma ranking_ignores_other_columns_witness :
  ∃ idx out1 out2,
    process_contacts Npysort.argsort sample_frame = Ok out1
    ∧ process_contacts Npysort.argsort sample_frame_bare = Ok out2
    ∧ idx ≡ₚ seq 0 (length (rows sample_frame))
    ∧ rows out1
      = (λ i, default []
                ((normalize_row (columns sample_frame) <$> rows sample_frame) !! i))
          <$> idx
    ∧ rows out2
      = (λ i, default []
                ((normalize_row (columns sample_frame_bare)
                    <$> rows sample_frame_bare) !! i))
          <$> idx.
Proof.
  apply (ranking_ignores_other_columns Npysort.argsort sample_frame sample_frame_bare).
  - split; compute_done.
  - split; compute_done.
  - reflexivity.
  - left. reflexivity.
Defined.
